(** * Span tracer and trace evaluator: a shallow embedding

    The development follows the two Python sources:
    - [sweagent/tracer.py]: the span ledger, the scoped recorder, the
      instrumentation registry (patch / restore) and the exporter;
    - [traces/evaluate_trace.py]: the loader of a tabular export and the
      metrics compiler.

    Python values are modelled as the code has them: [int] is [Z], [float] is
    a binary64 [float] (primitive floats), [str] is the [string] of the
    UTF-8 bytes of the text, a [dict] used
    for grouping is an association list in insertion order, attribute
    tables are finite maps, raised exceptions are the [Err] case of an
    error monad.  Part I holds the definitions, Part II the theorems. *)

From Stdlib Require Import ZArith Floats Ascii String.
From stdpp Require Import gmap strings list sorting.

Local Open Scope Z_scope.

(* ===================================================================== *)
(** * Part I: definitions *)
(* ===================================================================== *)

(** ** Python runtime primitives used by both sources *)
Module Py.

(** The exceptions the modelled code can meet. *)
Inductive exn : Type :=
  | ValueError
  | TypeError
  | KeyError (key : string)
  | IndexError
  | OverflowError
  | ZeroDivisionError
  | AttributeError
  | CsvError
  | CancelledError
  | KeyboardInterrupt
  | Exception (tag : nat).

(** A computation that returns or raises. *)
Inductive result (A : Type) : Type :=
  | Ok (a : A)
  | Err (e : exn).
Arguments Ok {A} a.
Arguments Err {A} e.

#[export] Instance result_ret : MRet result := fun A a => Ok a.
#[export] Instance result_bind : MBind result := fun A B f m =>
  match m with
  | Ok a => f a
  | Err e => Err e
  end.
#[export] Instance result_fmap : FMap result := fun A B f m =>
  match m with
  | Ok a => Ok (f a)
  | Err e => Err e
  end.

(** A loop whose body may raise: the first exception ends it. *)
Fixpoint for_each {A B : Type} (f : A -> result B) (l : list A) : result (list B) :=
  match l with
  | [] => Ok []
  | x :: l' => y ← f x; ys ← for_each f l'; Ok (y :: ys)
  end.

Definition is_ok {A : Type} (r : result A) : bool :=
  match r with
  | Ok _ => true
  | Err _ => false
  end.

(** [x or y] on an optional, possibly empty sequence: [None] and the empty
    list are falsy. *)
Definition or_list {A : Type} (x : option (list A)) (y : list A) : list A :=
  match x with
  | Some (a :: l) => a :: l
  | _ => y
  end.

(** [x or y] on an optional string: [None] and the empty string are falsy. *)
Definition or_str (x : option string) (y : string) : string :=
  match x with
  | Some (String a s) => String a s
  | _ => y
  end.

(** *** [int(s)] and [str(n)] *)

(** Whitespace stripped by [int] from an ASCII string: TAB..CR and the
    space. *)
Definition is_space (c : ascii) : bool :=
  let n := nat_of_ascii c in
  ((9 <=? n)%nat && (n <=? 13)%nat) || (n =? 32)%nat.

Definition is_digit (c : ascii) : bool :=
  let n := nat_of_ascii c in (48 <=? n)%nat && (n <=? 57)%nat.

Definition digit_val (c : ascii) : Z := Z.of_nat (nat_of_ascii c) - 48.

Fixpoint lstrip (s : string) : string :=
  match s with
  | String c s' => if is_space c then lstrip s' else s
  | EmptyString => EmptyString
  end.

(** [rstrip] keeps a space only when something that is no space follows. *)
Fixpoint rstrip (s : string) : string :=
  match s with
  | String c s' =>
      match rstrip s' with
      | EmptyString => if is_space c then EmptyString else String c EmptyString
      | r => String c r
      end
  | EmptyString => EmptyString
  end.

Definition strip (s : string) : string := rstrip (lstrip s).

(** Decimal digits with single underscores between digits.  [prev] tells
    whether the character before was a digit. *)
Fixpoint digits_value (acc : Z) (prev : bool) (s : string) : option Z :=
  match s with
  | EmptyString => if prev then Some acc else None
  | String c s' =>
      if is_digit c then digits_value (10 * acc + digit_val c) true s'
      else if Ascii.eqb c "_" then
        (if prev then digits_value acc false s' else None)
      else None
  end.

(** One optional sign, then the digits. *)
Definition signed_value (s : string) : option Z :=
  match s with
  | String "+" d => digits_value 0 false d
  | String "-" d => Z.opp <$> digits_value 0 false d
  | d => digits_value 0 false d
  end.

(** A [str] is held as the string of its UTF-8 bytes, so that the
    characters below U+0080 are the bytes below 128.  [code_points]
    gives the characters back; [need] is the number of bytes still due to
    the character being read, [least] the least character that may take
    so many bytes, [acc] what was read of it. *)
Definition byte (c : ascii) : N := N_of_ascii c.

(** What an ill-formed sequence of bytes is read as; no text holds one. *)
Definition REPLACEMENT : N := 0xFFFD.

(** The character read, when it is well formed: not one that fewer bytes
    hold, no surrogate, and none beyond U+10FFFF. *)
Definition scalar_value (least cp : N) : N :=
  if ((least <=? cp) && negb ((0xD800 <=? cp) && (cp <=? 0xDFFF)) && (cp <=? 0x10FFFF))%N
  then cp else REPLACEMENT.

Fixpoint code_points_from (need : nat) (least acc : N) (s : string) : list N :=
  match s with
  | EmptyString =>
      match need with
      | O => []
      | S _ => [REPLACEMENT]
      end
  | String c s' =>
      let b := byte c in
      match need with
      | O =>
          if (b <? 0x80)%N then b :: code_points_from 0 0 0 s'
          else if (b <? 0xC0)%N then REPLACEMENT :: code_points_from 0 0 0 s'
          else if (b <? 0xE0)%N then code_points_from 1 0x80 (b - 0xC0) s'
          else if (b <? 0xF0)%N then code_points_from 2 0x800 (b - 0xE0) s'
          else if (b <? 0xF8)%N then code_points_from 3 0x10000 (b - 0xF0) s'
          else REPLACEMENT :: code_points_from 0 0 0 s'
      | S need' =>
          if ((0x80 <=? b) && (b <? 0xC0))%N
          then
            let acc' := (acc * 64 + (b - 0x80))%N in
            match need' with
            | O => scalar_value least acc' :: code_points_from 0 0 0 s'
            | S _ => code_points_from need' least acc' s'
            end
          else REPLACEMENT :: code_points_from 0 0 0 s'
      end
  end.

Definition code_points (s : string) : list N := code_points_from 0 0 0 s.

(** The white space beyond U+007F ([str.isspace]). *)
Definition unicode_space (cp : N) : bool :=
  ((cp =? 0x85) || (cp =? 0xA0) || (cp =? 0x1680)
   || ((0x2000 <=? cp) && (cp <=? 0x200A))
   || (cp =? 0x2028) || (cp =? 0x2029) || (cp =? 0x202F)
   || (cp =? 0x205F) || (cp =? 0x3000))%N.

(** The decimal digits beyond U+007F come in runs of ten, zero to nine:
    the zero of each run (the Unicode database 14.0 of CPython 3.11). *)
Definition decimal_zeros : list N :=
  [
   0x660; 0x6f0; 0x7c0; 0x966; 0x9e6; 0xa66; 0xae6; 0xb66;
   0xbe6; 0xc66; 0xce6; 0xd66; 0xde6; 0xe50; 0xed0; 0xf20;
   0x1040; 0x1090; 0x17e0; 0x1810; 0x1946; 0x19d0; 0x1a80; 0x1a90;
   0x1b50; 0x1bb0; 0x1c40; 0x1c50; 0xa620; 0xa8d0; 0xa900; 0xa9d0;
   0xa9f0; 0xaa50; 0xabf0; 0xff10; 0x104a0; 0x10d30; 0x11066; 0x110f0;
   0x11136; 0x111d0; 0x112f0; 0x11450; 0x114d0; 0x11650; 0x116c0; 0x11730;
   0x118e0; 0x11950; 0x11c50; 0x11d50; 0x11da0; 0x16a60; 0x16ac0; 0x16b50;
   0x1d7ce; 0x1d7d8; 0x1d7e2; 0x1d7ec; 0x1d7f6; 0x1e140; 0x1e2f0; 0x1e950;
   0x1fbf0]%N.

(** The value of a decimal digit ([unicodedata.decimal]). *)
Definition decimal (cp : N) : option N :=
  (fun zero => cp - zero)%N
    <$> List.find (fun zero => (zero <=? cp) && (cp <? zero + 10))%N decimal_zeros.

(** One character of [_PyUnicode_TransformDecimalAndSpaceToASCII]: white
    space becomes a space, a decimal digit its ASCII digit, and anything
    else beyond U+007E a character that is no part of a number. *)
Definition to_ascii (cp : N) : ascii :=
  if (cp <? 127)%N then ascii_of_N cp
  else if unicode_space cp then " "%char
  else
    match decimal cp with
    | Some d => ascii_of_N (48 + d)
    | None => "?"%char
    end.

Fixpoint is_ascii (s : string) : bool :=
  match s with
  | EmptyString => true
  | String c s' => (byte c <? 0x80)%N && is_ascii s'
  end.

(** A [str] of ASCII characters is left as it is. *)
Definition decimal_and_space_to_ascii (s : string) : string :=
  if is_ascii s then s
  else string_of_list_ascii (map to_ascii (code_points s)).

(** [int(s)] for a [str], base 10: the digits and the white space of any
    script read as ASCII, then surrounding white space, one optional sign,
    digits. *)
Definition int_of_str (s : string) : result Z :=
  match signed_value (strip (decimal_and_space_to_ascii s)) with
  | Some z => Ok z
  | None => Err ValueError
  end.

(** [all(p(c) for c in s)] *)
Fixpoint all_chars (p : ascii -> bool) (s : string) : bool :=
  match s with
  | EmptyString => true
  | String c s' => p c && all_chars p s'
  end.

(** [int(x)] where [x] is a [str] or [None]. *)
Definition int (x : option string) : result Z :=
  match x with
  | Some s => int_of_str s
  | None => Err TypeError
  end.

Definition digit_char (d : Z) : ascii := ascii_of_nat (Z.to_nat (48 + d)).

(** The decimal digits of [n >= 0], most significant first, in front of
    [acc]; [fuel] bounds the number of digits. *)
Fixpoint digits_of (fuel : nat) (n : Z) (acc : string) : string :=
  match fuel with
  | O => acc
  | S fuel' =>
      let acc' := String (digit_char (n mod 10)) acc in
      if n <? 10 then acc' else digits_of fuel' (n / 10) acc'
  end.

(** [str(n)] for an [int]. *)
Definition str_of_int (n : Z) : string :=
  let m := Z.abs n in
  let ds := digits_of (S (Z.to_nat (Z.log2 m))) m EmptyString in
  if n <? 0 then String "-" ds else ds.

(** *** Floats *)

Definition SF_of_int (z : Z) : spec_float :=
  match z with
  | Z0 => S754_zero false
  | Zpos p => S754_finite false p 0
  | Zneg p => S754_finite true p 0
  end.

(** [a / b] on two [int]s: the quotient rounded once to the nearest
    binary64; a zero divisor and a quotient beyond the float range raise. *)
Definition truediv (a b : Z) : result float :=
  if b =? 0 then Err ZeroDivisionError
  else
    match SFdiv prec emax (SF_of_int a) (SF_of_int b) with
    | S754_infinity _ => Err OverflowError
    | q => Ok (SF2Prim q)
    end.

(** *** [sum], [max] and [list.sort] *)

Definition sum (l : list Z) : Z := fold_left Z.add l 0.

(** [max(l)] of a non-empty list. *)
Definition max_list (x : Z) (l : list Z) : Z := fold_left Z.max l x.

Section Sort.
Context {A : Type} (key : A -> Z).

(** [x] goes in front of the first element whose key is not larger:
    elements with equal keys keep the order in which they arrived. *)
Fixpoint insert_desc (x : A) (l : list A) : list A :=
  match l with
  | [] => [x]
  | y :: l' => if key x <? key y then y :: insert_desc x l' else x :: y :: l'
  end.

(** [l.sort(key=key, reverse=True)]: the stable sort, largest key first.
    A stable sort is determined by the keys, so insertion stands for
    the interpreter's merge sort. *)
Definition sort_desc (l : list A) : list A := foldr insert_desc [] l.

(** [a] may stand before [b] in a list sorted by [key], largest first. *)
Definition desc (a b : A) : Prop := key b <= key a.
End Sort.

(** [x] stands before [y] in [l]. *)
Definition before {A : Type} (l : list A) (x y : A) : Prop :=
  exists i j : nat, (i < j)%nat /\ l !! i = Some x /\ l !! j = Some y.

End Py.

(** ** The [csv] module: writer, text-file iteration and reader
    (dialect [excel], [QUOTE_MINIMAL]) *)
Module Csv.
Import Py.

Definition CR : ascii := "013"%char.
Definition LF : ascii := "010"%char.
Definition QUOTE : ascii := "034"%char.
Definition COMMA : ascii := ","%char.

Definition is_newline (c : ascii) : bool := Ascii.eqb c CR || Ascii.eqb c LF.

(** *** Writer *)

(** A character that forces the field to be quoted. *)
Definition special (c : ascii) : bool :=
  Ascii.eqb c COMMA || Ascii.eqb c QUOTE || is_newline c.

Fixpoint has_special (s : string) : bool :=
  match s with
  | EmptyString => false
  | String c s' => special c || has_special s'
  end.

(** Every quote character is written twice. *)
Fixpoint double_quotes (s : string) : string :=
  match s with
  | EmptyString => EmptyString
  | String c s' =>
      if Ascii.eqb c QUOTE then String QUOTE (String QUOTE (double_quotes s'))
      else String c (double_quotes s')
  end.

(** One field as written; [alone] tells that the record has this field
    only, in which case the empty string is quoted. *)
Definition write_field (alone : bool) (s : string) : string :=
  if has_special s || (alone && String.eqb s EmptyString)
  then String QUOTE (double_quotes s +:+ String QUOTE EmptyString)
  else s.

Fixpoint join_fields (l : list string) : string :=
  match l with
  | [] => EmptyString
  | [x] => x
  | x :: l' => x +:+ String COMMA (join_fields l')
  end.

(** [writer.writerow(cells)]: the record and the line terminator. *)
Definition writerow (cells : list string) : string :=
  join_fields (map (write_field (Nat.eqb (length cells) 1)) cells)
  +:+ String CR (String LF EmptyString).

(** [writer.writerows(rows)] into an empty file. *)
Definition write_rows (rows : list (list string)) : string :=
  foldr (fun r s => writerow r +:+ s) EmptyString rows.

(** *** Iterating over a text file *)

(** What the reader is fed: the characters of each line, and the end of
    the line. *)
Inductive token : Type :=
  | Ch (c : ascii)
  | EOL.

Inductive line_state : Type :=
  | Fresh     (* at the start of a line *)
  | Mid       (* inside a line *)
  | AfterCR.  (* a carriage return was read, its line is not closed yet *)

(** The tokens one character gives.  [translate] is the file's newline
    mode: [true] for [open(path)] (every line ending becomes a line feed),
    [false] for [open(path, newline=<empty>)] (lines end at CR, LF or
    CR LF and are left as they are). *)
Definition next_tokens (translate : bool) (ls : line_state) (c : ascii)
  : list token * line_state :=
  let start :=
    if Ascii.eqb c CR then ([Ch (if translate then LF else CR)], AfterCR)
    else if Ascii.eqb c LF then ([Ch LF; EOL], Fresh)
    else ([Ch c], Mid) in
  match ls with
  | AfterCR =>
      if Ascii.eqb c LF then ((if translate then [] else [Ch LF]) ++ [EOL], Fresh)
      else (EOL :: start.1, start.2)
  | _ => start
  end.

Fixpoint tokens (translate : bool) (ls : line_state) (s : string) : list token :=
  match s with
  | EmptyString =>
      match ls with
      | Fresh => []
      | _ => [EOL]
      end
  | String c s' =>
      let '(ts, ls') := next_tokens translate ls c in
      ts ++ tokens translate ls' s'
  end.

(** *** Reader *)

Inductive parse_state : Type :=
  | START_RECORD
  | START_FIELD
  | IN_FIELD
  | IN_QUOTED_FIELD
  | QUOTE_IN_QUOTED_FIELD
  | EAT_CRNL.

Record reader : Type := {
  state : parse_state;
  field : string;              (* the field being read *)
  fields : list string;        (* the fields of the record being read *)
  records : list (list string) (* the records read so far *)
}.

Definition parse_reset (recs : list (list string)) : reader :=
  {| state := START_RECORD; field := EmptyString; fields := []; records := recs |}.

Definition set_state (st : parse_state) (r : reader) : reader :=
  {| state := st; field := field r; fields := fields r; records := records r |}.

Definition parse_add_char (c : ascii) (r : reader) : reader :=
  {| state := state r; field := field r +:+ String c EmptyString;
     fields := fields r; records := records r |}.

Definition parse_save_field (r : reader) : reader :=
  {| state := state r; field := EmptyString;
     fields := fields r ++ [field r]; records := records r |}.

Definition end_of_field (t : token) (r : reader) : reader :=
  set_state (match t with EOL => START_RECORD | Ch _ => EAT_CRNL end)
            (parse_save_field r).

Definition is_line_end (t : token) : bool :=
  match t with
  | EOL => true
  | Ch c => is_newline c
  end.

Definition is_char (t : token) (c : ascii) : bool :=
  match t with
  | EOL => false
  | Ch c' => Ascii.eqb c' c
  end.

Definition token_char (t : token) : ascii :=
  match t with
  | EOL => "000"%char
  | Ch c => c
  end.

Definition start_field (t : token) (r : reader) : reader :=
  if is_line_end t then end_of_field t r
  else if is_char t QUOTE then set_state IN_QUOTED_FIELD r
  else if is_char t COMMA then parse_save_field r
  else set_state IN_FIELD (parse_add_char (token_char t) r).

(** [parse_process_char]: one step of the reader's automaton. *)
Definition parse_process_char (r : reader) (t : token) : result reader :=
  match state r with
  | START_RECORD =>
      match t with
      | EOL => Ok r
      | Ch c =>
          if is_newline c then Ok (set_state EAT_CRNL r)
          else Ok (start_field t (set_state START_FIELD r))
      end
  | START_FIELD => Ok (start_field t r)
  | IN_FIELD =>
      if is_line_end t then Ok (end_of_field t r)
      else if is_char t COMMA then Ok (set_state START_FIELD (parse_save_field r))
      else Ok (parse_add_char (token_char t) r)
  | IN_QUOTED_FIELD =>
      match t with
      | EOL => Ok r
      | Ch c =>
          if Ascii.eqb c QUOTE then Ok (set_state QUOTE_IN_QUOTED_FIELD r)
          else Ok (parse_add_char c r)
      end
  | QUOTE_IN_QUOTED_FIELD =>
      if is_char t QUOTE then Ok (set_state IN_QUOTED_FIELD (parse_add_char QUOTE r))
      else if is_char t COMMA then Ok (set_state START_FIELD (parse_save_field r))
      else if is_line_end t then Ok (end_of_field t r)
      else Ok (set_state IN_FIELD (parse_add_char (token_char t) r))
  | EAT_CRNL =>
      match t with
      | EOL => Ok (set_state START_RECORD r)
      | Ch c => if is_newline c then Ok r else Err CsvError
      end
  end.

(** A record is complete when a line ends in state [START_RECORD]. *)
Definition end_of_line (r : reader) : reader :=
  match state r with
  | START_RECORD => parse_reset (records r ++ [fields r])
  | _ => r
  end.

Definition feed (r : reader) (t : token) : result reader :=
  r' ← parse_process_char r t;
  match t with
  | EOL => Ok (end_of_line r')
  | Ch _ => Ok r'
  end.

Fixpoint feed_all (r : reader) (ts : list token) : result reader :=
  match ts with
  | [] => Ok r
  | t :: ts' => r' ← feed r t; feed_all r' ts'
  end.

(** The input ends: a record left open inside a quoted field is closed. *)
Definition end_of_input (r : reader) : list (list string) :=
  match state r with
  | IN_QUOTED_FIELD => records r ++ [fields r ++ [field r]]
  | _ => records r
  end.

(** [list(csv.reader(f))] for the text file [f] of content [s]. *)
Definition read_all (translate : bool) (s : string) : result (list (list string)) :=
  r ← feed_all (parse_reset []) (tokens translate Fresh s);
  Ok (end_of_input r).

(** The reader run over a piece of text: the tokens of the text are fed as
    they come, and the state of the line is handed on. *)
Fixpoint run (translate : bool) (ls : line_state) (r : reader) (s : string)
  : result (line_state * reader) :=
  match s with
  | EmptyString => Ok (ls, r)
  | String c s' =>
      let '(ts, ls') := next_tokens translate ls c in
      r' ← feed_all r ts; run translate ls' r' s'
  end.

(** A text with every line ending turned into a line feed; [after_cr]
    tells that the character before was a carriage return. *)
Fixpoint translate_newlines (after_cr : bool) (s : string) : string :=
  match s with
  | EmptyString => EmptyString
  | String c s' =>
      if Ascii.eqb c CR then String LF (translate_newlines true s')
      else if Ascii.eqb c LF then
        (if after_cr then translate_newlines false s'
         else String LF (translate_newlines false s'))
      else String c (translate_newlines false s')
  end.

(** The state of the line after the text [s]. *)
Fixpoint line_after (ls : line_state) (s : string) : line_state :=
  match s with
  | EmptyString => ls
  | String c s' =>
      line_after (if Ascii.eqb c CR then AfterCR
                  else if Ascii.eqb c LF then Fresh else Mid) s'
  end.

(** The text [s], met inside a quoted field, as the reader keeps it. *)
Definition read_quoted (translate : bool) (ls : line_state) (s : string) : string :=
  if translate
  then translate_newlines (match ls with AfterCR => true | _ => false end) s
  else s.

(** A field as it is read back from a file opened in the mode [translate]. *)
Definition as_read (translate : bool) (s : string) : string :=
  if translate then translate_newlines false s else s.

(** A character the writer does not treat specially. *)
Definition plain (c : ascii) : Prop :=
  Ascii.eqb c CR = false /\ Ascii.eqb c LF = false /\
  Ascii.eqb c QUOTE = false /\ Ascii.eqb c COMMA = false.

(** The reader is about to read a field. *)
Definition at_start (st : parse_state) : Prop := st = START_RECORD \/ st = START_FIELD.

(** What is left of a written field of content [v] once it is read from
    the state [st]: the reader waits for the comma or the end of the line. *)
Inductive field_read (v : string) (fs : list string) (rs : list (list string))
  : parse_state -> reader -> Prop :=
  | read_quoted_field st :
      field_read v fs rs st (Build_reader QUOTE_IN_QUOTED_FIELD v fs rs)
  | read_plain_field st :
      v <> EmptyString -> field_read v fs rs st (Build_reader IN_FIELD v fs rs)
  | read_empty_field st :
      v = EmptyString -> field_read v fs rs st (Build_reader st EmptyString fs rs).

(** *** [DictReader] *)

(** The value of [key] in [dict(zip(fieldnames, row))], short rows filled
    with [None]: a later column of the same name wins. *)
Fixpoint dict_get (fieldnames : list string) (row : list string) (key : string)
  : option (option string) :=
  match fieldnames with
  | [] => None
  | k :: ks =>
      let here := if String.eqb k key then Some (head row) else None in
      match dict_get ks (tail row) key with
      | Some v => Some v
      | None => here
      end
  end.

(** [rec[key]] *)
Definition getitem (fieldnames row : list string) (key : string)
  : result (option string) :=
  match dict_get fieldnames row key with
  | Some v => Ok v
  | None => Err (KeyError key)
  end.

Definition nonblank (row : list string) : bool :=
  match row with
  | [] => false
  | _ => true
  end.

(** The first record is the header; blank records after it are skipped. *)
Definition dict_rows (recs : list (list string)) : list string * list (list string) :=
  match recs with
  | [] => ([], [])
  | h :: rows => (h, List.filter nonblank rows)
  end.

End Csv.

(** ** [traces/evaluate_trace.py] *)
Module EvaluateTrace.
Import Py.

(** *** Units *)

Record Unit : Type := {
  unit_name : string; (* [Unit.name]: ns, ms or s *)
  factor : float      (* multiply nanoseconds by this factor *)
}.

Definition UNITS : list (string * Unit) :=
  [ ("ns", {| unit_name := "ns"; factor := 1 |});
    ("ms", {| unit_name := "ms"; factor := 0x1.0c6f7a0b5ed8dp-20 |}); (* 1e-6 *)
    ("s", {| unit_name := "s"; factor := 0x1.12e0be826d695p-30 |}) ]. (* 1e-9 *)

(** *** Data loading *)

(** A row as loaded.  [kind] and [name] are what the reader hands out for
    the column: a [str], or [None] where the record is too short. *)
Record Row : Type := {
  kind : option string;
  name : option string;
  wall_ns : Z
}.

(** One pass of the loop of [load_rows]: the three fields are read in
    the order of the keyword arguments. *)
Definition load_row (fieldnames rec : list string) : result Row :=
  k ← Csv.getitem fieldnames rec "kind";
  n ← Csv.getitem fieldnames rec "name";
  w ← Csv.getitem fieldnames rec "wall_ns";
  wall ← int w;
  Ok {| kind := k; name := n; wall_ns := wall |}.

(** The rows of a text file of content [content] read through
    [csv.DictReader]; [translate] is the newline mode of the file. *)
Definition rows_of_text (translate : bool) (content : string) : result (list Row) :=
  recs ← Csv.read_all translate content;
  let '(fieldnames, rows) := Csv.dict_rows recs in
  for_each (load_row fieldnames) rows.

(** [load_rows(csv_path)] where the file holds [content]:
    [csv_path.open()] is the text mode that translates line endings. *)
Definition load_rows (content : string) : result (list Row) :=
  rows_of_text true content.

(** *** Computation *)

Record ApiMetrics : Type := {
  api_name : option string; (* [ApiMetrics.name] *)
  count : Z;
  cumulative_ns : Z;
  mean_ns : float
}.

Record RunSummary : Type := {
  program_duration_ns : option Z;
  api_cumulative_ns : Z;
  non_api_ns : option Z;
  api_share_pct : option float
}.

(** [by_name[k].append(w)] on a [defaultdict(list)]: a new key goes last. *)
Fixpoint by_name_append (k : option string) (w : Z)
  (d : list (option string * list Z)) : list (option string * list Z) :=
  match d with
  | [] => [(k, [w])]
  | (k', ws) :: d' =>
      if decide (k' = k) then (k', ws ++ [w]) :: d'
      else (k', ws) :: by_name_append k w d'
  end.

Definition is_api (r : Row) : bool := bool_decide (kind r = Some "api").
Definition is_program (r : Row) : bool := bool_decide (kind r = Some "program").
Definition is_entire_run (r : Row) : bool :=
  is_program r && bool_decide (name r = Some "entire_run").

(** The body of the first loop. *)
Definition group_step (d : list (option string * list Z)) (r : Row)
  : list (option string * list Z) :=
  if is_api r then by_name_append (name r) (wall_ns r) d else d.

(** The first loop: the walls of the api rows, grouped by name. *)
Definition group_by_name (rows : list Row) : list (option string * list Z) :=
  fold_left group_step rows [].

(** The body of the second loop. *)
Definition api_metrics (entry : option string * list Z) : result ApiMetrics :=
  let '(name, walls) := entry in
  let total := sum walls in
  let count := Z.of_nat (length walls) in
  mean ← (if count =? 0 then Ok 0%float else truediv total count);
  Ok {| api_name := name; count := count; cumulative_ns := total; mean_ns := mean |}.

(** [max(program_spans)] when the list is not empty. *)
Definition max_wall (program_spans : list Z) : option Z :=
  match program_spans with
  | [] => None
  | x :: l => Some (max_list x l)
  end.

(** The program duration: the largest span named entire_run if there is
    one, otherwise the largest among all program spans. *)
Definition program_duration (rows : list Row) : option Z :=
  let program_spans := map wall_ns (List.filter is_entire_run rows) in
  let program_spans :=
    match program_spans with
    | [] => map wall_ns (List.filter is_program rows)
    | _ => program_spans
    end in
  max_wall program_spans.

(** [api_total_ns / program_ns * 100.0 if program_ns > 0 else 0.0] *)
Definition share_pct (api_total_ns program_ns : Z) : result float :=
  if 0 <? program_ns
  then q ← truediv api_total_ns program_ns; Ok (q * 100)%float
  else Ok 0%float.

Definition compute_metrics (rows : list Row) : result (list ApiMetrics * RunSummary) :=
  let by_name := group_by_name rows in
  per_api ← for_each api_metrics by_name;
  let per_api := sort_desc cumulative_ns per_api in
  let program_ns := program_duration rows in
  let api_total_ns := sum (map cumulative_ns per_api) in
  derived ←
    match program_ns with
    | Some p =>
        pct ← share_pct api_total_ns p;
        Ok (Some (p - api_total_ns), Some pct)
    | None => Ok (None, None)
    end;
  Ok (per_api,
      {| program_duration_ns := program_ns;
         api_cumulative_ns := api_total_ns;
         non_api_ns := derived.1;
         api_share_pct := derived.2 |}).

(** *** Vocabulary of the statements *)

(** [r] is an api row of name [n]. *)
Definition api_named (n : option string) (r : Row) : Prop :=
  kind r = Some "api" /\ name r = n.
#[export] Instance api_named_dec n r : Decision (api_named n r).
Proof. unfold api_named. apply _. Defined.

(** [a] is the index of the first api row of name [n]. *)
Definition first_seen_at (rows : list Row) (n : option string) (a : nat) : Prop :=
  (exists r, rows !! a = Some r /\ api_named n r) /\
  forall a' r', rows !! a' = Some r' -> api_named n r' -> (a <= a')%nat.

(** [m] is the largest element of [l]. *)
Definition is_max_of (m : Z) (l : list Z) : Prop :=
  m ∈ l /\ forall x, x ∈ l -> x <= m.

Definition program_row (r : Row) : Prop := kind r = Some "program".
Definition run_scope_row (r : Row) : Prop :=
  kind r = Some "program" /\ name r = Some "entire_run".
#[export] Instance program_row_dec r : Decision (program_row r).
Proof. unfold program_row. apply _. Defined.
#[export] Instance run_scope_row_dec r : Decision (run_scope_row r).
Proof. unfold run_scope_row. apply _. Defined.

(** The header [Tracer.save] writes. *)
Definition export_header : list string :=
  ["kind"; "name"; "start_ns"; "end_ns"; "wall_ns";
   "cpu_start_ns"; "cpu_end_ns"; "cpu_ns"; "meta"].

(** The record [rec] holds no string under the column [key]: there is no
    such column, or the record is too short to reach it. *)
Definition missing (fieldnames rec : list string) (key : string) : Prop :=
  forall s, Csv.dict_get fieldnames rec key <> Some (Some s).

(** The record holds under wall_ns a string that [int] rejects. *)
Definition unparsable (fieldnames rec : list string) : Prop :=
  exists s, Csv.dict_get fieldnames rec "wall_ns" = Some (Some s) /\
            int_of_str s = Err ValueError.

Definition malformed (fieldnames rec : list string) : Prop :=
  missing fieldnames rec "kind" \/ missing fieldnames rec "name" \/
  missing fieldnames rec "wall_ns" \/ unparsable fieldnames rec.

(** A file under the header of an export whose one row holds a negative
    wall_ns. *)
Definition negative_export : string :=
  Csv.write_rows
    [export_header;
     ["api"; "AgentDebugger.step"; "10"; "5"; "-5"; "0"; "0"; "0"; "{}"]].

(** A file under the header of an export whose one row holds a wall_ns
    that is no integer. *)
Definition unparsable_row : list string :=
  ["api"; "AgentDebugger.step"; "0"; "5"; "five"; "0"; "0"; "0"; "{}"].
Definition unparsable_export : string :=
  Csv.write_rows [export_header; unparsable_row].

(** [Row(kind, name, wall_ns)] on two strings. *)
Definition row (k n : string) (w : Z) : Row :=
  {| kind := Some k; name := Some n; wall_ns := w |}.

(** The rows of the aggregation example, and what they compile to. *)
Definition example_rows : list Row :=
  [row "api" "A" 100; row "api" "A" 300; row "api" "B" 50;
   row "program" "entire_run" 1000].
Definition example_per_api : list ApiMetrics :=
  [ {| api_name := Some "A"; count := 2; cumulative_ns := 400; mean_ns := 200 |};
    {| api_name := Some "B"; count := 1; cumulative_ns := 50; mean_ns := 50 |} ].
Definition example_summary : RunSummary :=
  {| program_duration_ns := Some 1000; api_cumulative_ns := 450;
     non_api_ns := Some 550; api_share_pct := Some 45%float |}.

(** Rows with a tie between two labels and a program span of no duration. *)
Definition tie_rows : list Row :=
  [row "api" "A" 100; row "api" "B" 60; row "api" "C" 500; row "api" "B" 40;
   row "program" "warmup" 0].
Definition tie_per_api : list ApiMetrics :=
  [ {| api_name := Some "C"; count := 1; cumulative_ns := 500; mean_ns := 500 |};
    {| api_name := Some "A"; count := 1; cumulative_ns := 100; mean_ns := 100 |};
    {| api_name := Some "B"; count := 2; cumulative_ns := 100; mean_ns := 50 |} ].
Definition tie_summary : RunSummary :=
  {| program_duration_ns := Some 0; api_cumulative_ns := 700;
     non_api_ns := Some (-700); api_share_pct := Some 0%float |}.

(** *** The command line *)

(** What an invocation leaves behind. *)
Inductive output : Type :=
  | Printed (text : string)
  | Written (path : string) (content : string).

Record Args : Type := {
  unit : Unit;
  out_md : option string;
  out_csv : option string
}.

(** A run of the command: the outputs so far, and how it went on. *)
Definition io (A : Type) : Type := list output -> list output * result A.

#[export] Instance io_ret : MRet io := fun A a out => (out, Ok a).
#[export] Instance io_bind : MBind io := fun A B f m out =>
  match m out with
  | (out', Ok a) => f a out'
  | (out', Err e) => (out', Err e)
  end.

Definition lift {A : Type} (r : result A) : io A := fun out => (out, r).
Definition emit (o : output) : io () := fun out => (out ++ [o], Ok ()).
Definition when_given (x : option string) (f : string -> io ()) : io () :=
  match x with
  | Some (String a s) => f (String a s)
  | _ => mret ()
  end.

Section Main.
(** Formatting and path arithmetic are taken as they come: the table and
    report renderers, which may raise, and the naming of the report files. *)
Variable render_table_per_api : list ApiMetrics -> Unit -> result string.
Variable render_table_summary : RunSummary -> Unit -> result string.
Variable markdown_report : list ApiMetrics -> RunSummary -> Unit -> result string.
Variable csv_per_api : list ApiMetrics -> Unit -> result string.
Variable csv_summary : RunSummary -> Unit -> result string.
Variable summary_path : string -> string.
Variable message : string -> string -> string.

Definition export_markdown (per_api : list ApiMetrics) (summary : RunSummary)
  (u : Unit) (path : string) : io () :=
  text ← lift (markdown_report per_api summary u);
  emit (Written path text).

Definition export_csv (per_api : list ApiMetrics) (summary : RunSummary)
  (u : Unit) (path : string) : io () :=
  t1 ← lift (csv_per_api per_api u);
  emit (Written path t1);;
  t2 ← lift (csv_summary summary u);
  emit (Written (summary_path path) t2).

(** [main()] on the parsed arguments [args] and the content of the file
    at [args.csv_path]. *)
Definition main (args : Args) (content : string) : io () :=
  rows ← lift (load_rows content);
  '(per_api, summary) ← lift (compute_metrics rows);
  emit (Printed (String Csv.LF "PER-API RUNTIME SUMMARY"));;
  t1 ← lift (render_table_per_api per_api (unit args));
  emit (Printed t1);;
  emit (Printed (String Csv.LF "RUN-LEVEL SUMMARY"));;
  t2 ← lift (render_table_summary summary (unit args));
  emit (Printed t2);;
  when_given (out_md args) (fun p =>
    export_markdown per_api summary (unit args) p;;
    emit (Printed (message "Markdown report written to: " p)));;
  when_given (out_csv args) (fun p =>
    export_csv per_api summary (unit args) p;;
    emit (Printed (message "CSV reports written to: " p))).
End Main.

(** An invocation with the default unit and no report file, and
    renderers that print nothing. *)
Definition default_args : Args :=
  {| unit := {| unit_name := "ms"; factor := 0x1.0c6f7a0b5ed8dp-20 |};
     out_md := None; out_csv := None |}.
Definition quiet_main : Args -> string -> io () :=
  main (fun _ _ => Ok EmptyString) (fun _ _ => Ok EmptyString)
       (fun _ _ _ => Ok EmptyString) (fun _ _ => Ok EmptyString)
       (fun _ _ => Ok EmptyString) (fun p => p) String.append.

End EvaluateTrace.

(** ** The [json] module, as far as the exporter uses it *)
Module Json.
Import Py.

(** The values a span's [meta] holds. *)
Inductive scalar : Type :=
  | SNone
  | SBool (b : bool)
  | SInt (z : Z)
  | SStr (s : string).

(** What [json.dump] is given. *)
#[local] Unset Elimination Schemes.
Inductive json : Type :=
  | JScalar (v : scalar)
  | JList (l : list json)
  | JDict (d : list (string * json)).
#[local] Set Elimination Schemes.

Definition hex_digit (n : nat) : ascii :=
  ascii_of_nat (if (n <? 10)%nat then 48 + n else 87 + n).

(** One character inside a string, [ensure_ascii=False]: the quote, the
    backslash and the control characters are escaped. *)
Definition escape_char (c : ascii) : string :=
  let n := nat_of_ascii c in
  let bs := String "092"%char in
  if Ascii.eqb c "034"%char then bs (String "034"%char EmptyString)
  else if Ascii.eqb c "092"%char then bs (bs EmptyString)
  else if Ascii.eqb c "010"%char then bs "n"
  else if Ascii.eqb c "013"%char then bs "r"
  else if Ascii.eqb c "009"%char then bs "t"
  else if Ascii.eqb c "008"%char then bs "b"
  else if Ascii.eqb c "012"%char then bs "f"
  else if (n <? 32)%nat
  then bs ("u00" +:+ String (hex_digit (n / 16)) (String (hex_digit (n mod 16)) EmptyString))
  else String c EmptyString.

Fixpoint escape (s : string) : string :=
  match s with
  | EmptyString => EmptyString
  | String c s' => escape_char c +:+ escape s'
  end.

Definition dumps_str (s : string) : string :=
  String "034"%char (escape s +:+ String "034"%char EmptyString).

Definition dumps_scalar (v : scalar) : string :=
  match v with
  | SNone => "null"
  | SBool true => "true"
  | SBool false => "false"
  | SInt z => str_of_int z
  | SStr s => dumps_str s
  end.

Fixpoint dumps_items (d : list (string * scalar)) : string :=
  match d with
  | [] => EmptyString
  | [(k, v)] => dumps_str k +:+ ": " +:+ dumps_scalar v
  | (k, v) :: d' => dumps_str k +:+ ": " +:+ dumps_scalar v +:+ ", " +:+ dumps_items d'
  end.

(** [json.dumps(meta, ensure_ascii=False)] for a dict of scalars. *)
Definition dumps_meta (d : list (string * scalar)) : string :=
  "{" +:+ dumps_items d +:+ "}".

(** [obj[key]] on a decoded object. *)
Fixpoint lookup_key (key : string) (d : list (string * json)) : option json :=
  match d with
  | [] => None
  | (k, v) :: d' => if String.eqb k key then Some v else lookup_key key d'
  end.

End Json.

(** ** [sweagent/tracer.py] *)
Module Tracer.
Import Py Json.

Record Span : Type := {
  kind : string;  (* api or program *)
  name : string;
  start_ns : Z;
  end_ns : Z;
  wall_ns : Z;    (* end_ns - start_ns *)
  cpu_start_ns : Z;
  cpu_end_ns : Z;
  cpu_ns : Z;
  meta : list (string * scalar)
}.

(** The objects an attribute can be bound to. *)
Inductive value : Type :=
  | Function (id : nat) (qualname : string) (coroutine : bool)
      (* a [def] or an [async def] *)
  | Callable (id : nat) (qualname : string)
      (* callable and no function: a class, a builtin (one that has a
         [__qualname__]; a callable without one is not modelled) *)
  | Wrapper (label : string) (meta : list (string * scalar)) (fn : value)
      (* the closure [wrap] or [awrap] made around [fn] *)
  | Str (s : string)
  | Data (tag : nat).

Definition callable (v : value) : bool :=
  match v with
  | Function _ _ _ | Callable _ _ | Wrapper _ _ _ => true
  | _ => false
  end.

Definition isfunction (v : value) : bool :=
  match v with
  | Function _ _ _ | Wrapper _ _ _ => true
  | _ => false
  end.

Fixpoint iscoroutinefunction (v : value) : bool :=
  match v with
  | Function _ _ c => c
  | Wrapper _ _ fn => iscoroutinefunction fn
  | _ => false
  end.

(** [fn.__qualname__], which [wraps] copies onto a wrapper. *)
Fixpoint qualname_of (v : value) : option string :=
  match v with
  | Function _ q _ => Some q
  | Callable _ q => Some q
  | Wrapper _ _ fn => qualname_of fn
  | _ => None
  end.

(** A reference to a type or a module: its identity and its name. *)
Record owner : Type := {
  oid : nat;
  __name__ : string
}.

(** The tracer object. *)
Record Tracer : Type := {
  run_id : string;
  out_dir : string;
  _spans : list Span;
  _patches : list (owner * string * value) (* (obj, attr, original) *)
}.

(** [Tracer(run_id, out_dir)] *)
Definition init (run_id out_dir : string) : Tracer :=
  {| run_id := run_id; out_dir := out_dir; _spans := []; _patches := [] |}.

(** The tracer and what it reads and writes around it: the two clocks
    and the attributes of the live types and modules. *)
Record World : Type := {
  tracer : Tracer;
  perf_counter : Z;
  process_time : Z;
  attrs : gmap (nat * string) value
}.

(** A piece of the run: it ends by returning or by raising, and leaves a
    world behind. *)
Definition Work (A : Type) : Type := World -> result A * World.

#[export] Instance Work_ret : MRet Work := fun A a w => (Ok a, w).
#[export] Instance Work_bind : MBind Work := fun A B f m w =>
  match m w with
  | (Ok a, w') => f a w'
  | (Err e, w') => (Err e, w')
  end.

Definition raise {A : Type} (e : exn) : Work A := fun w => (Err e, w).

(** [try: body finally: final] *)
Definition try_finally {A : Type} (body : Work A) (final : Work ()) : Work A :=
  fun w =>
    let '(o, w1) := body w in
    match final w1 with
    | (Ok _, w2) => (o, w2)
    | (Err e, w2) => (Err e, w2)
    end.

Definition perf_counter_ns : Work Z := fun w => (Ok (perf_counter w), w).
Definition process_time_ns : Work Z := fun w => (Ok (process_time w), w).

Definition set_tracer (t : Tracer) (w : World) : World :=
  {| tracer := t; perf_counter := perf_counter w;
     process_time := process_time w; attrs := attrs w |}.

Definition set_attrs (a : gmap (nat * string) value) (w : World) : World :=
  {| tracer := tracer w; perf_counter := perf_counter w;
     process_time := process_time w; attrs := a |}.

(** [with self._lock: self._spans.append(s)] *)
Definition append_span (s : Span) : Work () := fun w =>
  let t := tracer w in
  (Ok (), set_tracer {| run_id := run_id t; out_dir := out_dir t;
                        _spans := _spans t ++ [s];
                        _patches := _patches t |} w).

(** *** Core span capture *)

(** [with tracer.span(name, kind, **meta): body] *)
Definition span {A : Type} (name kind : string) (meta : list (string * scalar))
  (body : Work A) : Work A :=
  ws ← perf_counter_ns; cs ← process_time_ns;
  try_finally body
    (we ← perf_counter_ns; ce ← process_time_ns;
     append_span {| kind := kind; name := name;
                    start_ns := ws; end_ns := we; wall_ns := we - ws;
                    cpu_start_ns := cs; cpu_end_ns := ce; cpu_ns := ce - cs;
                    meta := meta |}).

Definition api {A : Type} (name : string) (meta : list (string * scalar))
  (body : Work A) : Work A := span name "api" meta body.

Definition program {A : Type} (name : string) (meta : list (string * scalar))
  (body : Work A) : Work A := span name "program" meta body.

(** *** Wrappers *)

(** The closure [wrap]: [inner] is the call [fn( *args, **kwargs)]. *)
Definition wrap {A : Type} (label : string) (meta : list (string * scalar))
  (inner : Work A) : Work A :=
  ws ← perf_counter_ns; cs ← process_time_ns;
  try_finally inner
    (we ← perf_counter_ns; ce ← process_time_ns;
     append_span {| kind := "api"; name := label;
                    start_ns := ws; end_ns := we; wall_ns := we - ws;
                    cpu_start_ns := cs; cpu_end_ns := ce; cpu_ns := ce - cs;
                    meta := meta |}).

(** The closure [awrap], run by whoever awaits it: [inner] is
    [await fn( *args, **kwargs)] up to its return, its error or its
    cancellation, with whatever else ran while it was suspended. *)
Definition awrap {A : Type} (label : string) (meta : list (string * scalar))
  (inner : Work A) : Work A :=
  ws ← perf_counter_ns; cs ← process_time_ns;
  try_finally inner
    (we ← perf_counter_ns; ce ← process_time_ns;
     append_span {| kind := "api"; name := label;
                    start_ns := ws; end_ns := we; wall_ns := we - ws;
                    cpu_start_ns := cs; cpu_end_ns := ce; cpu_ns := ce - cs;
                    meta := meta |}).

(** [tracer.trace_api(name, **meta)(fn)] *)
Definition trace_api (name : option string) (meta : list (string * scalar))
  (fn : value) : result value :=
  match name, qualname_of fn with
  | Some (String a s), _ => Ok (Wrapper (String a s) meta fn)
  | _, Some q => Ok (Wrapper q meta fn)
  | _, None => Err AttributeError
  end.

Section Call.
Context {R : Type}.
(** The body of the function or callable of each identity. *)
Variable impl : nat -> Work R.

(** Calling (and, for a coroutine function, awaiting) a value. *)
Fixpoint call (v : value) : Work R :=
  match v with
  | Function id _ _ => impl id
  | Callable id _ => impl id
  | Wrapper label meta fn =>
      if iscoroutinefunction fn then awrap label meta (call fn)
      else wrap label meta (call fn)
  | _ => raise TypeError
  end.
End Call.

(** *** Auto-instrumentation *)

Definition getattr (w : World) (obj : owner) (attr : string) : option value :=
  attrs w !! (oid obj, attr).

Definition setattr (obj : owner) (attr : string) (v : value) (w : World) : World :=
  set_attrs (<[(oid obj, attr) := v]> (attrs w)) w.

Definition push_patch (p : owner * string * value) (w : World) : World :=
  let t := tracer w in
  set_tracer {| run_id := run_id t; out_dir := out_dir t; _spans := _spans t;
                _patches := _patches t ++ [p] |} w.

Definition _wrap_callable (obj : owner) (attr : string) (fn : value)
  (name : option string) (meta : list (string * scalar)) : Work () := fun w =>
  let label := or_str name (default attr (qualname_of fn)) in
  let wrapped := Wrapper label meta fn in
  match getattr w obj attr with
  | Some original =>
      (Ok (), push_patch (obj, attr, original) (setattr obj attr wrapped w))
  | None => (Err AttributeError, w)
  end.

(** [dir(obj)]: the attribute names, sorted. *)
Definition dir (w : World) (obj : owner) : list string :=
  merge_sort (fun a b => Is_true (String.leb a b))
    (omap (fun kv => if decide (kv.1.1 = oid obj) then Some kv.1.2 else None)
          (map_to_list (attrs w))).

Definition public (n : string) : bool := negb (String.prefix "_" n).

(** The reserved members [instrument_class] leaves alone by default. *)
Definition default_exclude : list string :=
  ["__init__"; "__repr__"; "__str__"; "__eq__"; "__hash__"].

(** [f"{name_prefix or obj.__name__}.{n}"] *)
Definition label_for (obj : owner) (name_prefix : option string) (n : string)
  : string := or_str name_prefix (__name__ obj) +:+ "." +:+ n.

Fixpoint for_loop {A : Type} (body : A -> Work ()) (l : list A) : Work () :=
  match l with
  | [] => mret ()
  | x :: l' => body x;; for_loop body l'
  end.

(** The body of the loop of [instrument_class]; [getattr(cls, n, None)]
    gives [None], which is not callable, for a name that is not bound. *)
Definition instrument_member (cls : owner) (exclude : list string)
  (name_prefix : option string) (meta : list (string * scalar)) (n : string)
  : Work () := fun w =>
  if bool_decide (n ∈ exclude) then (Ok (), w)
  else
    match getattr w cls n with
    | Some obj =>
        if callable obj
        then _wrap_callable cls n obj (Some (label_for cls name_prefix n)) meta w
        else (Ok (), w)
    | None => (Ok (), w)
    end.

Definition instrument_class (cls : owner) (include : option (list string))
  (exclude : list string) (name_prefix : option string)
  (meta : list (string * scalar)) : Work () := fun w =>
  let methods := or_list include (List.filter public (dir w cls)) in
  for_loop (instrument_member cls exclude name_prefix meta) methods w.

(** The body of the loop of [instrument_module]. *)
Definition instrument_function (mod_ : owner) (exclude : list string)
  (name_prefix : option string) (meta : list (string * scalar)) (n : string)
  : Work () := fun w =>
  match getattr w mod_ n with
  | Some obj =>
      if isfunction obj && negb (bool_decide (n ∈ exclude))
      then _wrap_callable mod_ n obj (Some (label_for mod_ name_prefix n)) meta w
      else (Ok (), w)
  | None => (Ok (), w)
  end.

Definition instrument_module (mod_ : owner) (include : option (list string))
  (exclude : list string) (name_prefix : option string)
  (meta : list (string * scalar)) : Work () := fun w =>
  let names := or_list include (List.filter public (dir w mod_)) in
  for_loop (instrument_function mod_ exclude name_prefix meta) names w.

(** The loop of [restore] over the patches in the order they are popped. *)
Fixpoint unpatch (popped : list (owner * string * value))
  (a : gmap (nat * string) value) : gmap (nat * string) value :=
  match popped with
  | [] => a
  | (obj, attr, original) :: rest =>
      unpatch rest (<[(oid obj, attr) := original]> a)
  end.

(** [while self._patches: ... = self._patches.pop(); setattr(...)] *)
Definition restore : Work () := fun w =>
  let t := tracer w in
  (Ok (),
   set_attrs (unpatch (reverse (_patches t)) (attrs w))
     (set_tracer {| run_id := run_id t; out_dir := out_dir t;
                    _spans := _spans t; _patches := [] |} w)).

(** *** Export *)

Definition fieldnames : list string :=
  ["kind"; "name"; "start_ns"; "end_ns"; "wall_ns";
   "cpu_start_ns"; "cpu_end_ns"; "cpu_ns"; "meta"].

(** [asdict(s)] with [meta] replaced by its JSON text, as the writer lays
    it out under [fieldnames]. *)
Definition csv_row (s : Span) : list string :=
  [kind s; name s; str_of_int (start_ns s); str_of_int (end_ns s);
   str_of_int (wall_ns s); str_of_int (cpu_start_ns s);
   str_of_int (cpu_end_ns s); str_of_int (cpu_ns s); dumps_meta (meta s)].

(** [asdict(s)] *)
Definition asdict (s : Span) : json :=
  JDict [("kind", JScalar (SStr (kind s)));
         ("name", JScalar (SStr (name s)));
         ("start_ns", JScalar (SInt (start_ns s)));
         ("end_ns", JScalar (SInt (end_ns s)));
         ("wall_ns", JScalar (SInt (wall_ns s)));
         ("cpu_start_ns", JScalar (SInt (cpu_start_ns s)));
         ("cpu_end_ns", JScalar (SInt (cpu_end_ns s)));
         ("cpu_ns", JScalar (SInt (cpu_ns s)));
         ("meta", JDict (map (fun kv => (kv.1, JScalar kv.2)) (meta s)))].

(** The two files [save] writes: the text of the CSV file, and the value
    handed to [json.dump]. *)
Record Export : Type := {
  csv_path : string;
  csv_text : string;
  json_path : string;
  json_doc : json
}.

(** *** Vocabulary of the statements *)

(** The span a recorder builds from the clocks read in [w0], before the
    work, and in [w1], after it. *)
Definition span_between (kind name : string) (meta : list (string * scalar))
  (w0 w1 : World) : Span :=
  {| kind := kind; name := name;
     start_ns := perf_counter w0; end_ns := perf_counter w1;
     wall_ns := perf_counter w1 - perf_counter w0;
     cpu_start_ns := process_time w0; cpu_end_ns := process_time w1;
     cpu_ns := process_time w1 - process_time w0;
     meta := meta |}.

(** [w] with [s] appended to the ledger, and nothing else changed. *)
Definition with_span (s : Span) (w : World) : World := (append_span s w).2.

(** [run] is [body] observed: it ends as [body] ends, in the world [body]
    leaves with exactly one span more. *)
Definition recorded {A : Type} (kind name : string) (meta : list (string * scalar))
  (body run : Work A) : Prop :=
  forall w,
    run w = ((body w).1, with_span (span_between kind name meta w (body w).2) (body w).2).




(** What the call of [_wrap_callable] on the member [n] bound to [v]
    leaves: the wrapper in its place, and the patch record on the stack. *)
Definition patched (obj : owner) (n : string) (label : string)
  (meta : list (string * scalar)) (v : value) (w : World) : World :=
  push_patch (obj, n, v) (setattr obj n (Wrapper label meta v) w).

(** A loop body that does nothing or patches a bound member. *)
Definition patch_step (body : string -> Work ()) : Prop :=
  forall n w,
    body n w = (Ok (), w) \/
    exists obj label meta v,
      getattr w obj n = Some v /\ body n w = (Ok (), patched obj n label meta v w).

(** The attributes once every patch on the stack is undone. *)
Definition restored (w : World) : gmap (nat * string) value :=
  unpatch (reverse (_patches (tracer w))) (attrs w).

(** A class with a reserved and a public method, a private one and a
    data member, and a tracer that has recorded and patched nothing. *)
Definition AgentDebugger : owner := {| oid := 1; __name__ := "AgentDebugger" |}.
Definition fresh_world : World :=
  {| tracer := init "run" "traces";
     perf_counter := 0;
     process_time := 0;
     attrs := list_to_map
       [ ((1%nat, "__init__"), Function 10 "AgentDebugger.__init__" false);
         ((1%nat, "step"), Function 11 "AgentDebugger.step" false);
         ((1%nat, "_reset"), Function 12 "AgentDebugger._reset" false);
         ((1%nat, "timeout"), Data 0) ] |}.

(** Work that takes [wall] ns of wall time and [cpu] ns of CPU time. *)
Definition tick (wall cpu : Z) : Work () := fun w =>
  (Ok (), {| tracer := tracer w; perf_counter := perf_counter w + wall;
             process_time := process_time w + cpu; attrs := attrs w |}).

(** The run of [__main__]: one api call inside the span of the program. *)
Definition example_run : World :=
  (program "entire_run" [("scenario", SStr "baseline")]
     (tick 2 1;; api "AgentDebugger.step" [] (tick 7 3);; tick 1 1)
     fresh_world).2.

(** A ledger whose one span has a carriage return in its name. *)
Definition cr_ledger : Tracer :=
  {| run_id := "run"; out_dir := "traces";
     _spans := [ {| kind := "api"; name := String "a" (String Csv.CR "b");
                    start_ns := 0; end_ns := 5; wall_ns := 5;
                    cpu_start_ns := 0; cpu_end_ns := 1; cpu_ns := 1;
                    meta := [] |} ];
     _patches := [] |}.

(** The row a span is loaded as from a file read in the mode [translate]. *)
Definition loaded_row (translate : bool) (s : Span) : EvaluateTrace.Row :=
  {| EvaluateTrace.kind := Some (Csv.as_read translate (kind s));
     EvaluateTrace.name := Some (Csv.as_read translate (name s));
     EvaluateTrace.wall_ns := wall_ns s |}.

(** The (kind, name, wall_ns) of a span. *)
Definition row_of_span (s : Span) : EvaluateTrace.Row :=
  EvaluateTrace.row (kind s) (name s) (wall_ns s).

(** Decoding the tabular export: [csv.DictReader] over the file opened
    as the csv module asks and as [save] opened it, with [newline] empty. *)
Definition decode_csv (text : string) : result (list EvaluateTrace.Row) :=
  EvaluateTrace.rows_of_text false text.

(** Decoding one object of the structured export. *)
Definition decode_object (j : json) : option EvaluateTrace.Row :=
  match j with
  | JDict d =>
      match lookup_key "kind" d, lookup_key "name" d, lookup_key "wall_ns" d with
      | Some (JScalar (SStr k)), Some (JScalar (SStr n)), Some (JScalar (SInt w)) =>
          Some (EvaluateTrace.row k n w)
      | _, _, _ => None
      end
  | _ => None
  end.

(** Decoding the structured export: the list of its objects. *)
Definition decode_json (doc : json) : option (list EvaluateTrace.Row) :=
  match doc with
  | JList l => mapM decode_object l
  | _ => None
  end.

Definition save (t : Tracer) : Export :=
  {| csv_path := out_dir t +:+ "/" +:+ run_id t +:+ ".csv";
     csv_text := Csv.write_rows (fieldnames :: map csv_row (_spans t));
     json_path := out_dir t +:+ "/" +:+ run_id t +:+ ".json";
     json_doc := JList (map asdict (_spans t)) |}.

End Tracer.

(** ** Sequences of calls of [instrument_module], and [sweagent/__main__.py] *)
Module Script.
Import Py Json Tracer.



(** What a run of the script leaves: how it ended, the world, what it
    printed and the exports it saved. *)
Record Run (R : Type) : Type := {
  outcome : result R;
  final : World;
  printed : list string;
  saved : list Export
}.
Arguments outcome {R} r.
Arguments final {R} r.
Arguments printed {R} r.
Arguments saved {R} r.

Definition library_meta : list (string * scalar) := [("library", SStr "sweagent.debugger")].
Definition scenario_meta : list (string * scalar) := [("scenario", SStr "baseline")].

Section Main.
Context {R : Type}.
Variable debugger : owner. (* the class [AgentDebugger] *)
Variable main : Work R.    (* [sweagent.run.run.main] *)

(** The script, started at the time [now] (already formatted as the run
    id) in the world [w]. *)
Definition script (now : string) (w : World) : Run R :=
  let w0 := set_tracer (init now "traces") w in
  match instrument_class debugger None default_exclude (Some "AgentDebugger")
          library_meta w0 with
  | (Err e, w1) => {| outcome := Err e; final := w1; printed := []; saved := [] |}
  | (Ok _, w1) =>
      let '(o, w2) := program "entire_run" scenario_meta main w1 in
      (* finally: *)
      match restore w2 with
      | (Ok _, w3) =>
          {| outcome := o; final := w3; printed := ["Saving trace..."];
             saved := [save (tracer w3)] |}
      | (Err e, w3) =>
          {| outcome := Err e; final := w3; printed := ["Saving trace..."];
             saved := [] |}
      end
  end.
End Main.

(** The world in which the script runs [main]: a tracer of its own, and
    the class instrumented. *)
Definition instrumented (debugger : owner) (now : string) (w : World) : World :=
  (instrument_class debugger None default_exclude (Some "AgentDebugger")
     library_meta (set_tracer (init now "traces") w)).2.

(** The span of the whole run. *)
Definition run_span (w1 w2 : World) : Span :=
  span_between "program" "entire_run" scenario_meta w1 w2.

(** A [main] that calls the public method of the class once. *)
Definition one_step : Work () := fun w =>
  match getattr w AgentDebugger "step" with
  | Some v => call (fun _ => tick 7 3) v w
  | None => (Err AttributeError, w)
  end.


End Script.

(** ** Vocabulary for the metrics compiler and the loader *)
Module Evaluation.
Import Py EvaluateTrace.

(** The wall_ns of the api rows of name [n], in the order of the rows. *)
Definition walls_named (rows : list Row) (n : option string) : list Z :=
  wall_ns <$> filter (api_named n) rows.

(** The wall_ns of all api rows. *)
Definition api_walls (rows : list Row) : list Z :=
  wall_ns <$> filter (fun r => kind r = Some "api") rows.

(** A trace whose one api row has a wall_ns beyond the floats. *)
Definition huge_rows : list Row := [row "api" "A" (2 ^ 1024)].

(** A file with other columns than the loader asks for. *)
Definition other_columns : string :=
  Csv.write_rows [["label"; "duration"]; ["A"; "5"]].

End Evaluation.

(** ** Formatting: [len], [ljust], [join] and the number formats *)
Module Format.
Import Py.

(** Strings hold text as its UTF-8 bytes: a character is counted at its
    first byte, and the bytes 10xxxxxx that continue it are not. *)
Definition continuation (c : ascii) : bool :=
  let n := nat_of_ascii c in (128 <=? n)%nat && (n <? 192)%nat.

(** [len(s)] *)
Fixpoint len (s : string) : nat :=
  match s with
  | EmptyString => 0
  | String c s' => ((if continuation c then 0 else 1) + len s')%nat
  end.

(** [s * n] *)
Fixpoint repeat_str (s : string) (n : nat) : string :=
  match n with
  | O => EmptyString
  | S n' => s +:+ repeat_str s n'
  end.

(** [s.ljust(w)] *)
Definition ljust (s : string) (w : nat) : string :=
  s +:+ repeat_str " " (w - len s).

(** [sep.join(parts)] *)
Fixpoint join (sep : string) (parts : list string) : string :=
  match parts with
  | [] => EmptyString
  | [x] => x
  | x :: l => x +:+ sep +:+ join sep l
  end.

(** The bytes that continue the character in front of [s]. *)
Fixpoint char_tail (s : string) : string :=
  match s with
  | String c s' => if continuation c then String c (char_tail s') else EmptyString
  | EmptyString => EmptyString
  end.

(** [s[0]] *)
Definition first_char (s : string) : result string :=
  match s with
  | String c s' => Ok (String c (char_tail s'))
  | EmptyString => Err IndexError
  end.

(** [s[-1]]: [last] is the last character met so far. *)
Fixpoint last_char_from (last : option string) (s : string) : option string :=
  match s with
  | EmptyString => last
  | String c s' =>
      last_char_from (if continuation c then last else Some (String c (char_tail s'))) s'
  end.

Definition last_char (s : string) : result string :=
  match last_char_from None s with
  | Some c => Ok c
  | None => Err IndexError
  end.

(** *** Numbers *)

(** Digits with a comma in front of every group of three that follows. *)
Fixpoint group3 (s : string) : string :=
  match s with
  | EmptyString => EmptyString
  | String c s' =>
      String c (if ((0 <? String.length s') && (String.length s' mod 3 =? 0))%nat
                then String "," (group3 s') else group3 s')
  end.

(** [format(n, ",")] for an [int]. *)
Definition format_int_grouped (n : Z) : string :=
  let ds := group3 (str_of_int (Z.abs n)) in
  if n <? 0 then String "-" ds else ds.

(** [float(n)] for an [int]: the nearest binary64, ties to even; beyond
    the floats it raises. *)
Definition float_of_int (n : Z) : result float :=
  match binary_normalize prec emax n 0 false with
  | S754_infinity _ => Err OverflowError
  | x => Ok (SF2Prim x)
  end.

(** [n * x] for an [int] and a [float]. *)
Definition mul_int_float (n : Z) (x : float) : result float :=
  y ← float_of_int n; Ok (y * x)%float.

(** [m * 2^e * 10^digits], rounded to the nearest integer, ties to even. *)
Definition scaled (m : positive) (e : Z) (digits : nat) : Z :=
  let n := Zpos m * 10 ^ Z.of_nat digits in
  if 0 <=? e then n * 2 ^ e
  else
    let d := 2 ^ (- e) in
    let q := n / d in
    let r := n mod d in
    if 2 * r <? d then q
    else if d <? 2 * r then q + 1
    else if Z.even q then q else q + 1.

(** The decimal digits of [n >= 0] on at least [width] places. *)
Definition zero_padded (width : nat) (n : Z) : string :=
  let ds := str_of_int n in
  repeat_str "0" (width - String.length ds) +:+ ds.

(** The integer [n >= 0] of units of [10^-digits] in fixed notation. *)
Definition fixed (grouping : bool) (digits : nat) (negative : bool) (n : Z) : string :=
  let p := 10 ^ Z.of_nat digits in
  let whole := str_of_int (n / p) in
  (if negative then "-" else EmptyString)
  +:+ (if grouping then group3 whole else whole)
  +:+ (match digits with
       | O => EmptyString
       | _ => "." +:+ zero_padded digits (n mod p)
       end).

(** [format(x, ".{digits}f")], and with [grouping] [format(x, ",.{digits}f")],
    for a [float]: the exact value of [x] rounded once. *)
Definition format_f (grouping : bool) (digits : nat) (x : float) : string :=
  match Prim2SF x with
  | S754_nan => "nan"
  | S754_infinity negative => if negative then "-inf" else "inf"
  | S754_zero negative => fixed grouping digits negative 0
  | S754_finite negative m e => fixed grouping digits negative (scaled m e digits)
  end.

End Format.

(** ** [traces/evaluate_trace.py]: formatting, tables and reports *)
Module Report.
Import Py Csv EvaluateTrace Format.

(** *** Formatting *)

(** ["n/a" if x is None else f"{x:.{digits}f}"] *)
Definition fmt_float (x : option float) (digits : nat) : string :=
  match x with
  | None => "n/a"
  | Some x => format_f false digits x
  end.

(** [_fmt_ns(ns_opt, unit)]: the product of the [int] and the factor is
    taken in floats. *)
Definition _fmt_ns (ns_opt : option Z) (u : Unit) : result string :=
  match ns_opt with
  | None => Ok "n/a"
  | Some ns => x ← mul_int_float ns (factor u); Ok (format_f true 3 x)
  end.

(** *** The box table *)

(** A cell: a [str], or [None] where a record had no name. *)
Definition cell : Type := option string.

(** [str(cell)] *)
Definition str_ (c : cell) : string :=
  match c with
  | Some s => s
  | None => "None"
  end.

(** [for i, cell in enumerate(row): widths[i] = max(widths[i], len(str(cell)))],
    from the index [i] on. *)
Fixpoint widen (i : nat) (row : list cell) (widths : list nat) : result (list nat) :=
  match row with
  | [] => Ok widths
  | c :: row' =>
      match widths !! i with
      | Some w => widen (S i) row' (<[i := Nat.max w (len (str_ c))]> widths)
      | None => Err IndexError
      end
  end.

(** The loop over the rows. *)
Fixpoint column_widths (rows : list (list cell)) (widths : list nat)
  : result (list nat) :=
  match rows with
  | [] => Ok widths
  | row :: rows' => widths' ← widen 0 row widths; column_widths rows' widths'
  end.

(** [hline(corners, hchar, sep)] *)
Definition hline (widths : list nat) (corners hchar sep : string) : result string :=
  let parts := map (fun w => repeat_str hchar (w + 2)) widths in
  first ← first_char corners;
  last ← last_char corners;
  Ok (first +:+ join sep parts +:+ last).

(** The loop of [fmt_row], from the index [i] on. *)
Fixpoint fmt_cells (widths : list nat) (i : nat) (items : list cell)
  : result (list string) :=
  match items with
  | [] => Ok []
  | c :: items' =>
      match widths !! i with
      | Some w =>
          cells ← fmt_cells widths (S i) items';
          Ok ((" " +:+ ljust (str_ c) w +:+ " ") :: cells)
      | None => Err IndexError
      end
  end.

(** [fmt_row(items, sep)] *)
Definition fmt_row (widths : list nat) (items : list cell) (sep : string)
  : result string :=
  cells ← fmt_cells widths 0 items;
  Ok (sep +:+ join sep cells +:+ sep).

(** The list [out] of [make_box_table]. *)
Definition box_lines (headers : list string) (rows : list (list cell))
  : result (list string) :=
  widths ← column_widths rows (map len headers);
  top ← hline widths "+" "─" "┬";
  head ← fmt_row widths (map Some headers) "│";
  mid ← hline widths "+" "─" "┼";
  body ← for_each (fun r => fmt_row widths r "│") rows;
  bottom ← hline widths "+" "─" "┴";
  Ok ([top; head; mid] ++ body ++ [bottom]).

Definition make_box_table (headers : list string) (rows : list (list cell))
  : result string :=
  out ← box_lines headers rows;
  Ok (join (String LF EmptyString) out).

(** *** The two tables *)

Definition per_api_headers (u : Unit) : list string :=
  ["API"; "Invocation Count";
   "Cumulative Duration (" +:+ unit_name u +:+ ")";
   "Mean Duration (" +:+ unit_name u +:+ ")"].

(** The row of one record in the table. *)
Definition per_api_cells (u : Unit) (m : ApiMetrics) : result (list cell) :=
  cumulative ← mul_int_float (cumulative_ns m) (factor u);
  Ok [api_name m;
      Some (format_int_grouped (count m));
      Some (format_f true 3 cumulative);
      Some (format_f true 3 (mean_ns m * factor u))].

Definition render_table_per_api (per_api : list ApiMetrics) (u : Unit)
  : result string :=
  rows ← for_each (per_api_cells u) per_api;
  make_box_table (per_api_headers u) rows.

Definition summary_headers (u : Unit) : list string :=
  ["Metric"; "Value (" +:+ unit_name u +:+ " / %)"].

Definition summary_cells (summary : RunSummary) (u : Unit)
  : result (list (list cell)) :=
  program ← _fmt_ns (program_duration_ns summary) u;
  api ← _fmt_ns (Some (api_cumulative_ns summary)) u;
  non_api ← _fmt_ns (non_api_ns summary) u;
  Ok [[Some "Program Duration"; Some program];
      [Some "API Cumulative Duration"; Some api];
      [Some "Non-API Duration (Program − API)"; Some non_api];
      [Some "API Share of Program (%)"; Some (fmt_float (api_share_pct summary) 2)]].

Definition render_table_summary (summary : RunSummary) (u : Unit) : result string :=
  rows ← summary_cells summary u;
  make_box_table (summary_headers u) rows.

(** *** The sheets *)

(** The record of one label in the per-API sheet: the writer turns
    [None] into the empty field and the count into its digits. *)
Definition sheet_record (u : Unit) (m : ApiMetrics) : result (list string) :=
  cumulative ← mul_int_float (cumulative_ns m) (factor u);
  Ok [default EmptyString (api_name m);
      str_of_int (count m);
      format_f false 6 cumulative;
      format_f false 6 (mean_ns m * factor u)].

Definition sheet_header (u : Unit) : list string :=
  ["API"; "Invocation Count";
   "Cumulative Duration (" +:+ unit_name u +:+ ")";
   "Mean Duration (" +:+ unit_name u +:+ ")"].

(** What [export_csv] writes to the per-API sheet when it returns. *)
Definition csv_per_api (per_api : list ApiMetrics) (u : Unit) : result string :=
  records ← for_each (sheet_record u) per_api;
  Ok (write_rows (sheet_header u :: records)).

Definition summary_records (summary : RunSummary) (u : Unit)
  : result (list (list string)) :=
  program ← _fmt_ns (program_duration_ns summary) u;
  api ← _fmt_ns (Some (api_cumulative_ns summary)) u;
  non_api ← _fmt_ns (non_api_ns summary) u;
  Ok [["Metric"; "Value"];
      ["Program Duration (" +:+ unit_name u +:+ ")"; program];
      ["API Cumulative Duration (" +:+ unit_name u +:+ ")"; api];
      ["Non-API Duration (" +:+ unit_name u +:+ ")"; non_api];
      ["API Share of Program (%)"; fmt_float (api_share_pct summary) 2]].

(** What [export_csv] writes to the summary sheet when it returns. *)
Definition csv_summary (summary : RunSummary) (u : Unit) : result string :=
  records ← summary_records summary u;
  Ok (write_rows records).

(** *** Vocabulary of the statements *)

(** The width of the column [i] under a header of [w0] characters: the
    longest of the header and the cells of the column. *)
Definition widest (rows : list (list cell)) (i : nat) (w0 : nat) : nat :=
  foldl (fun w r => match r !! i with
                    | Some c => Nat.max w (len (str_ c))
                    | None => w
                    end) w0 rows.

(** The number of characters of a line of a table of these widths: a
    space on each side of every cell, and the separators around them. *)
Definition table_width (widths : list nat) : nat :=
  (foldr (fun w n => w + 2 + n) 0 widths + (length widths - 1) + 2)%nat.

Definition ms : Unit := {| unit_name := "ms"; factor := 0x1.0c6f7a0b5ed8dp-20 |}.

End Report.

(* ===================================================================== *)
(** * Part II: theorems *)
(* ===================================================================== *)

(** ** The error monad and the quotient *)
Module PyFacts.
Import Py.

Lemma bind_ok_inv {A B : Type} (m : result A) (f : A -> result B) (b : B) :
  m ≫= f = Ok b -> exists a, m = Ok a /\ f a = Ok b.
Proof. destruct m as [a|e]; simpl; [eauto | discriminate]. Qed.

Lemma for_each_ok_inv {A B : Type} (f : A -> result B) (l : list A) (ys : list B) :
  for_each f l = Ok ys -> Forall2 (fun x y => f x = Ok y) l ys.
Proof.
  revert ys. induction l as [|x l IH]; simpl; intros ys H.
  - injection H as <-. constructor.
  - apply bind_ok_inv in H as (y & Hy & H).
    apply bind_ok_inv in H as (ys' & Hys & H).
    injection H as <-. constructor; auto.
Qed.

Lemma for_each_err_inv {A B : Type} (f : A -> result B) (l : list A) (e : exn) :
  for_each f l = Err e -> exists x, x ∈ l /\ f x = Err e.
Proof.
  induction l as [|x l IH]; simpl; [discriminate|].
  destruct (f x) as [y|e'] eqn:Hx; simpl.
  - destruct (for_each f l) as [ys|e'']; simpl; [discriminate|].
    intros [= ->]. destruct IH as (x' & Hin & Hx'); [done|].
    exists x'. split; [by right | done].
  - intros [= ->]. exists x. split; [by left | done].
Qed.

Lemma for_each_ok_intro {A B : Type} (f : A -> result B) (l : list A) :
  Forall (fun x => is_ok (f x) = true) l -> is_ok (for_each f l) = true.
Proof.
  induction 1 as [|x l Hx _ IH]; simpl; [done|].
  destruct (f x); [|done]. simpl. by destruct (for_each f l).
Qed.

(** [truediv] raises nothing but an overflow when the divisor is not zero. *)
Lemma truediv_err (a b : Z) (e : exn) :
  b <> 0 -> truediv a b = Err e -> e = OverflowError.
Proof.
  unfold truediv. intros Hb. destruct (Z.eqb_spec b 0); [done|].
  destruct (SFdiv _ _ _ _); congruence.
Qed.

End PyFacts.

(** ** Order in a list, and the stable sort *)
Module SortFacts.
Import Py.

Section Before.
Context {A : Type}.
Implicit Types (l : list A) (x y a b : A).

Lemma before_nil a b : ~ before [] a b.
Proof. intros (i & j & _ & H & _). by rewrite lookup_nil in H. Qed.

Lemma before_cons x l a b :
  before (x :: l) a b <-> (a = x /\ b ∈ l) \/ before l a b.
Proof.
  split.
  - intros (i & j & Hij & Hi & Hj).
    destruct j as [|j]; [lia|]. simpl in Hj.
    destruct i as [|i]; simpl in Hi.
    + left. split; [congruence|]. by eapply list_elem_of_lookup_2.
    + right. exists i, j. split; [lia|done].
  - intros [[-> Hb]|(i & j & Hij & Hi & Hj)].
    + apply list_elem_of_lookup in Hb as [j Hj]. exists 0%nat, (S j).
      split; [lia|done].
    + exists (S i), (S j). split; [lia|done].
Qed.

Lemma before_elem_of l a b : before l a b -> a ∈ l /\ b ∈ l.
Proof.
  intros (i & j & _ & Hi & Hj). split; by eapply list_elem_of_lookup_2.
Qed.

Lemma before_fmap {B : Type} (f : A -> B) l a b :
  before l a b -> before (f <$> l) (f a) (f b).
Proof.
  intros (i & j & Hij & Hi & Hj). exists i, j.
  rewrite !list_lookup_fmap, Hi, Hj. done.
Qed.

Lemma before_snoc l x a b :
  before (l ++ [x]) a b <-> before l a b \/ (a ∈ l /\ b = x).
Proof.
  split.
  - intros (i & j & Hij & Hi & Hj).
    assert (Hlt : (j < length (l ++ [x]))%nat) by (by eapply lookup_lt_Some).
    rewrite length_app in Hlt. simpl in Hlt.
    rewrite lookup_app_l in Hi by lia.
    destruct (decide (j < length l)%nat).
    + rewrite lookup_app_l in Hj by lia. left. by exists i, j.
    + rewrite lookup_app_r in Hj by lia.
      replace (j - length l)%nat with 0%nat in Hj by lia. simpl in Hj.
      right. split; [by eapply list_elem_of_lookup_2 | congruence].
  - intros [(i & j & Hij & Hi & Hj)|[Ha ->]].
    + exists i, j. split; [done|].
      split; apply lookup_app_l_Some; done.
    + apply list_elem_of_lookup in Ha as [i Hi].
      exists i, (length l). pose proof (lookup_lt_Some _ _ _ Hi).
      split; [lia|]. split; [by apply lookup_app_l_Some|].
      rewrite lookup_app_r by lia. by rewrite Nat.sub_diag.
Qed.
End Before.

Lemma sum_acc (l : list Z) (z : Z) : fold_left Z.add l z = z + sum l.
Proof.
  unfold sum. revert z. induction l as [|x l IH]; intros z; simpl; [lia|].
  rewrite (IH (z + x)), (IH (0 + x)). lia.
Qed.

Lemma sum_cons (x : Z) (l : list Z) : sum (x :: l) = x + sum l.
Proof. unfold sum at 1. simpl. apply sum_acc. Qed.

Section Sort.
Context {A : Type} (key : A -> Z).
Implicit Types (l : list A) (x y a b : A).

Lemma elem_of_insert_desc x l a : a ∈ insert_desc key x l <-> a = x \/ a ∈ l.
Proof.
  induction l as [|y l IH]; simpl.
  - rewrite list_elem_of_singleton, elem_of_nil. tauto.
  - destruct (key x <? key y); rewrite !elem_of_cons; [rewrite IH|]; tauto.
Qed.

Lemma sort_desc_cons x l :
  sort_desc key (x :: l) = insert_desc key x (sort_desc key l).
Proof. reflexivity. Qed.

Lemma elem_of_sort_desc l a : a ∈ sort_desc key l <-> a ∈ l.
Proof.
  induction l as [|y l IH]; [done|].
  rewrite sort_desc_cons, elem_of_insert_desc, elem_of_cons, IH. done.
Qed.

Lemma length_insert_desc x l : length (insert_desc key x l) = S (length l).
Proof.
  induction l as [|y l IH]; simpl; [done|].
  destruct (key x <? key y); simpl; by rewrite ?IH.
Qed.

Lemma length_sort_desc l : length (sort_desc key l) = length l.
Proof.
  induction l as [|y l IH]; [done|].
  by rewrite sort_desc_cons, length_insert_desc, IH.
Qed.

Lemma sum_insert_desc (f : A -> Z) x l :
  sum (f <$> insert_desc key x l) = f x + sum (f <$> l).
Proof.
  induction l as [|y l IH]; [unfold sum; simpl; lia|].
  cbn [insert_desc]. destruct (key x <? key y).
  - rewrite !fmap_cons, !sum_cons, IH. lia.
  - by rewrite fmap_cons, sum_cons.
Qed.

Lemma insert_desc_sorted x l :
  StronglySorted (desc key) l -> StronglySorted (desc key) (insert_desc key x l).
Proof.
  induction 1 as [|y l Hs IH Hy]; simpl.
  - repeat constructor.
  - destruct (Z.ltb_spec (key x) (key y)).
    + constructor; [done|]. apply Forall_forall. intros a Ha.
      apply elem_of_insert_desc in Ha as [->|Ha]; [unfold desc; lia|].
      by eapply Forall_forall in Hy.
    + constructor; [by constructor|]. constructor; [done|].
      eapply Forall_impl; [exact Hy|]. unfold desc. simpl. intros; lia.
Qed.

Lemma sort_desc_sorted l : StronglySorted (desc key) (sort_desc key l).
Proof.
  induction l; [constructor|].
  rewrite sort_desc_cons. by apply insert_desc_sorted.
Qed.

Lemma sorted_before l a b : StronglySorted (desc key) l -> before l a b -> key b <= key a.
Proof.
  induction 1 as [|y l Hs IH Hy]; intros Hb.
  - by apply before_nil in Hb.
  - apply before_cons in Hb as [[-> Hb]|Hb]; [|auto].
    by eapply Forall_forall in Hy.
Qed.

Lemma insert_desc_stable x l a b :
  before (insert_desc key x l) a b -> key a = key b -> before (x :: l) a b.
Proof.
  intros Hb Hk. induction l as [|y l IH] in Hb |- *; simpl in Hb.
  - apply before_cons in Hb as [[_ Hb]|Hb]; [by apply elem_of_nil in Hb|].
    by apply before_nil in Hb.
  - destruct (Z.ltb_spec (key x) (key y)); [|done].
    apply before_cons in Hb as [[-> Hb]|Hb].
    + apply elem_of_insert_desc in Hb as [->|Hb]; [lia|].
      apply before_cons. right. apply before_cons. by left.
    + apply IH in Hb. apply before_cons in Hb as [[-> Hb]|Hb]; apply before_cons.
      * left. split; [done|]. by right.
      * right. apply before_cons. by right.
Qed.

(** The sort is stable: two elements of equal key come out in the order
    in which they went in. *)
Lemma sort_desc_stable l a b :
  before (sort_desc key l) a b -> key a = key b -> before l a b.
Proof.
  revert a b. induction l as [|x l IH]; intros a b Hb Hk.
  - by apply before_nil in Hb.
  - rewrite sort_desc_cons in Hb. apply insert_desc_stable in Hb; [|done].
    apply before_cons in Hb as [[-> Hb]|Hb]; apply before_cons.
    + left. split; [done|]. by apply (elem_of_sort_desc l b).
    + right. auto.
Qed.

Lemma sum_sort_desc (f : A -> Z) l :
  sum (f <$> sort_desc key l) = sum (f <$> l).
Proof.
  induction l as [|x l IH]; [done|].
  by rewrite sort_desc_cons, sum_insert_desc, fmap_cons, sum_cons, IH.
Qed.
End Sort.
End SortFacts.

(** ** The range of the quotient *)
Module FloatFacts.
Import Py.

(** *** Binary digits *)

Lemma digits2_pos_bounds p :
  2 ^ (Zpos (digits2_pos p) - 1) <= Zpos p < 2 ^ Zpos (digits2_pos p).
Proof.
  induction p as [p IH|p IH|]; cbn [digits2_pos].
  - rewrite Pos2Z.inj_succ. replace (Z.succ (Zpos (digits2_pos p)) - 1)
      with (Z.succ (Zpos (digits2_pos p) - 1)) by lia.
    rewrite !Z.pow_succ_r by lia. lia.
  - rewrite Pos2Z.inj_succ. replace (Z.succ (Zpos (digits2_pos p)) - 1)
      with (Z.succ (Zpos (digits2_pos p) - 1)) by lia.
    rewrite !Z.pow_succ_r by lia. lia.
  - simpl. lia.
Qed.

Lemma Zdigits2_nonneg m : 0 <= Zdigits2 m.
Proof. destruct m; simpl; lia. Qed.

Lemma Zdigits2_upper m : 0 <= m -> m < 2 ^ Zdigits2 m.
Proof.
  destruct m as [|p|p]; simpl; [lia | | lia]. intros _. apply digits2_pos_bounds.
Qed.

(** A number below [2 ^ k] has at most [k] binary digits. *)
Lemma Zdigits2_le m k : 0 <= m -> 0 <= k -> m < 2 ^ k -> Zdigits2 m <= k.
Proof.
  intros Hm Hk Hlt. destruct m as [|p|p]; simpl; [done | | lia].
  destruct (Z.le_gt_cases (Zpos (digits2_pos p)) k) as [|Hgt]; [done|].
  pose proof (digits2_pos_bounds p) as [Hlow _].
  assert (2 ^ k <= 2 ^ (Zpos (digits2_pos p) - 1)) by (apply Z.pow_le_mono_r; lia).
  lia.
Qed.

(** *** Shifting to the right *)

Lemma shr_1_m mrs : 0 <= shr_m mrs -> shr_m (shr_1 mrs) = shr_m mrs / 2.
Proof.
  destruct mrs as [m r s]. cbn [shr_m]. intros Hm.
  destruct m as [|[p|p|]|p]; cbn [shr_1 shr_m]; try done.
  - apply Z.div_unique with 1; lia.
  - apply Z.div_unique with 0; lia.
Qed.

Lemma iter_shr_1_m p : forall mrs,
  0 <= shr_m mrs ->
  shr_m (SpecFloat.iter_pos shr_1 p mrs) = shr_m mrs / 2 ^ Zpos p.
Proof.
  assert (Hpos : forall q, 0 < 2 ^ Zpos q) by (intros q; apply Z.pow_pos_nonneg; lia).
  assert (Hdouble : forall q, 2 ^ Zpos q~0 = 2 ^ Zpos q * 2 ^ Zpos q).
  { intros q. rewrite <- Z.pow_add_r by lia. f_equal. lia. }
  induction p as [p IH|p IH|]; intros mrs Hm; cbn [SpecFloat.iter_pos].
  - assert (0 <= shr_m (shr_1 mrs)) by (rewrite shr_1_m by done; apply Z.div_pos; lia).
    assert (0 <= shr_m (SpecFloat.iter_pos shr_1 p (shr_1 mrs))).
    { rewrite IH by done. apply Z.div_pos; [done | apply Hpos]. }
    rewrite !IH, shr_1_m by done.
    rewrite !Z.div_div by (pose proof (Hpos p); lia).
    f_equal. replace (Zpos p~1) with (Z.succ (Zpos p~0)) by lia.
    rewrite Z.pow_succ_r, Hdouble by lia. lia.
  - assert (0 <= shr_m (SpecFloat.iter_pos shr_1 p mrs)).
    { rewrite IH by done. apply Z.div_pos; [done | apply Hpos]. }
    rewrite !IH by done. rewrite Z.div_div by (pose proof (Hpos p); lia).
    by rewrite Hdouble.
  - rewrite shr_1_m by done. done.
Qed.

(** Dropping [n] binary digits. *)
Lemma Zdigits2_div m n :
  0 <= m -> 0 <= n -> Zdigits2 (m / 2 ^ n) <= Z.max 0 (Zdigits2 m - n).
Proof.
  intros Hm Hn. pose proof (Zdigits2_upper m Hm) as Hup.
  pose proof (Zdigits2_nonneg m) as Hd.
  assert (0 < 2 ^ n) by (apply Z.pow_pos_nonneg; lia).
  destruct (Z.le_gt_cases n (Zdigits2 m)) as [Hle|Hgt].
  - rewrite Z.max_r by lia. apply Zdigits2_le; [by apply Z.div_pos | lia |].
    apply Z.div_lt_upper_bound; [done|].
    rewrite <- Z.pow_add_r by lia. by replace (n + (Zdigits2 m - n)) with (Zdigits2 m) by lia.
  - rewrite Z.div_small; [simpl; lia|]. split; [done|].
    assert (2 ^ Zdigits2 m <= 2 ^ n) by (apply Z.pow_le_mono_r; lia). lia.
Qed.

Lemma Zdigits2_succ m : 0 <= m -> Zdigits2 (m + 1) <= Zdigits2 m + 1.
Proof.
  intros Hm. pose proof (Zdigits2_upper m Hm). pose proof (Zdigits2_nonneg m).
  apply Zdigits2_le; [lia..|]. rewrite Z.pow_add_r, Z.pow_1_r by lia. lia.
Qed.

Lemma Zdigits2_mono m n : 0 <= m <= n -> Zdigits2 m <= Zdigits2 n.
Proof.
  intros [Hm Hn]. pose proof (Zdigits2_upper n ltac:(lia)).
  apply Zdigits2_le; [done | apply Zdigits2_nonneg | lia].
Qed.

(** *** Rounding *)

(** The exponent after [shr_fexp]: a mantissa of [d] digits at exponent
    [e], with [d + e <= b], leaves a mantissa and an exponent within the
    same bound. *)
Lemma shr_fexp_bound m e l b :
  0 <= m -> e <= emax - prec -> Zdigits2 m + e <= b -> b <= emax -> SpecFloat.emin prec emax <= b ->
  let '(mrs, e') := shr_fexp prec emax m e l in
  0 <= shr_m mrs /\ e' <= emax - prec /\ Zdigits2 (shr_m mrs) + e' <= b.
Proof.
  intros Hm He Hb Hmax Hmin. unfold shr_fexp, shr.
  assert (Hloc : shr_m (shr_record_of_loc m l) = m) by by destruct l as [|[]].
  destruct (fexp prec emax (Zdigits2 m + e) - e) as [|n|n] eqn:Hn;
    rewrite ?Hloc; [done| |done].
  rewrite iter_shr_1_m by (by rewrite Hloc). rewrite Hloc.
  pose proof (Zdigits2_div m (Zpos n) Hm ltac:(done)) as Hdiv.
  assert (0 <= m / 2 ^ Zpos n) by (apply Z.div_pos; [done | apply Z.pow_pos_nonneg; lia]).
  unfold fexp in Hn. unfold prec, emax, SpecFloat.emin in *. lia.
Qed.

Lemma round_nearest_even_bound m l :
  0 <= m ->
  0 <= round_nearest_even m l /\ Zdigits2 (round_nearest_even m l) <= Zdigits2 m + 1.
Proof.
  intros Hm. pose proof (Zdigits2_succ m Hm).
  unfold round_nearest_even. destruct l as [|[]]; [| destruct (Z.even m) | |]; lia.
Qed.

(** Rounding a mantissa of [d] digits at exponent [e] stays finite when
    [d + e] is below [emax]. *)
Lemma binary_round_aux_finite s m e l :
  0 <= m -> e <= emax - prec -> Zdigits2 m + e < emax ->
  forall s', binary_round_aux prec emax s m e l <> S754_infinity s'.
Proof.
  intros Hm He Hd s'. unfold binary_round_aux.
  pose proof (shr_fexp_bound m e l (emax - 1) Hm He ltac:(lia) ltac:(lia) ltac:(done)) as H1.
  destruct (shr_fexp prec emax m e l) as [mrs1 e1]. destruct H1 as (Hm1 & He1 & Hd1).
  pose proof (round_nearest_even_bound (shr_m mrs1) (loc_of_shr_record mrs1) Hm1) as [Hr Hrd].
  pose proof (shr_fexp_bound _ e1 loc_Exact emax Hr He1 ltac:(lia) ltac:(lia) ltac:(done)) as H2.
  destruct (shr_fexp prec emax _ e1 loc_Exact) as [mrs2 e2]. destruct H2 as (Hm2 & He2 & _).
  destruct (shr_m mrs2); [done| |done].
  by destruct (Z.leb_spec e2 (emax - prec)); [|lia].
Qed.

(** *** Division *)

Lemma SFdiv_int_finite (sa sb : bool) (pa pb : positive) :
  Zpos pa < 2 ^ (emax - 1) ->
  forall s', SFdiv prec emax (S754_finite sa pa 0) (S754_finite sb pb 0) <> S754_infinity s'.
Proof.
  intros Ha s'. cbn [SFdiv]. unfold SFdiv_core_binary.
  set (e' := Z.min _ _). set (da := Zdigits2 (Zpos pa)).
  assert (He' : e' <= 0) by (subst e'; lia).
  assert (Hda : da <= emax - 1) by (apply Zdigits2_le; [done..|done]).
  set (m' := match 0 - 0 - e' with 0 => Zpos pa | Zpos _ => Z.shiftl (Zpos pa) (0 - 0 - e') | Zneg _ => 0 end).
  assert (Hm' : 0 <= m' /\ Zdigits2 m' + e' <= da).
  { subst m'. destruct (0 - 0 - e') as [|s|s] eqn:Hs; [split; [done|fold da; lia] | | lia].
    rewrite Z.shiftl_mul_pow2 by done.
    assert (0 < 2 ^ Zpos s) by (apply Z.pow_pos_nonneg; lia).
    split; [lia|]. pose proof (Zdigits2_upper (Zpos pa) ltac:(done)) as Hup. fold da in Hup.
    assert (Zdigits2 (Zpos pa * 2 ^ Zpos s) <= da + Zpos s); [|lia].
    apply Zdigits2_le; [lia | subst da; simpl; lia |].
    rewrite Z.pow_add_r by (subst da; simpl; lia). nia. }
  clearbody m'. destruct Hm' as [Hm' Hd'].
  pose proof (Z_div_mod m' (Zpos pb) ltac:(done)) as Hdiv.
  destruct (Z.div_eucl m' (Zpos pb)) as [q r]. destruct Hdiv as [Hq Hr].
  assert (0 <= q <= m') by nia.
  apply binary_round_aux_finite; [lia | unfold emax, prec; lia |].
  pose proof (Zdigits2_mono q m' ltac:(done)). lia.
Qed.

(** [a / b] returns for every [a] below [2 ^ 1023] in absolute value and
    every [b] other than zero. *)
Lemma truediv_in_range a b :
  b <> 0 -> Z.abs a < 2 ^ (emax - 1) -> is_ok (truediv a b) = true.
Proof.
  intros Hb Ha. unfold truediv. destruct (Z.eqb_spec b 0) as [|_]; [done|].
  destruct a as [|pa|pa], b as [|pb|pb]; try done;
    destruct (SFdiv _ _ _ _) as [| s' | |] eqn:Hq; try done;
    by apply SFdiv_int_finite in Hq.
Qed.

End FloatFacts.

(** ** The metrics compiler *)
Module EvaluateTraceFacts.
Import Py EvaluateTrace PyFacts SortFacts FloatFacts.

(** *** Grouping *)

Lemma is_api_spec r : is_api r = true <-> kind r = Some "api".
Proof. unfold is_api. by rewrite bool_decide_eq_true. Qed.

Lemma by_name_append_keys k w d :
  (by_name_append k w d).*1 = if decide (k ∈ d.*1) then d.*1 else d.*1 ++ [k].
Proof.
  induction d as [|[k' ws] d IH]; cbn [by_name_append fmap list_fmap fst].
  - case_decide as H; [by apply elem_of_nil in H | done].
  - destruct (decide (k' = k)) as [->|Hne]; cbn [fmap list_fmap fst].
    + rewrite decide_True; [done | by left].
    + fold (@fmap list _ _ _ (@fst (option string) (list Z)) d) in *.
      rewrite IH. destruct (decide (k ∈ d.*1)) as [Hin|Hin].
      * rewrite decide_True; [done | by right].
      * rewrite decide_False; [done|].
        rewrite elem_of_cons. intros [?|?]; congruence.
Qed.

Lemma group_by_name_snoc rows r :
  group_by_name (rows ++ [r]) = group_step (group_by_name rows) r.
Proof. unfold group_by_name. by rewrite fold_left_app. Qed.

Lemma first_seen_at_app rows more n a :
  first_seen_at rows n a -> first_seen_at (rows ++ more) n a.
Proof.
  intros [(r & Hr & Hn) Hmin]. split.
  - exists r. split; [by apply lookup_app_l_Some | done].
  - intros a' r' Hr' Hn'. destruct (decide (a' < length rows)%nat).
    + rewrite lookup_app_l in Hr' by done. eauto.
    + apply lookup_lt_Some in Hr. lia.
Qed.

Lemma first_seen_exists rows n r :
  r ∈ rows -> api_named n r -> exists a, first_seen_at rows n a.
Proof.
  intros Hin Hn.
  destruct (list_find_elem_of (api_named n) rows r Hin Hn) as [[a r'] Hf].
  apply list_find_Some in Hf as (Hr' & Hn' & Hmin).
  exists a. split; [by exists r'|].
  intros a' r'' Hr'' Hn''. destruct (decide (a' < a)%nat); [|lia].
  exfalso. by eapply Hmin.
Qed.

Lemma first_seen_at_lt rows n a : first_seen_at rows n a -> (a < length rows)%nat.
Proof. intros [(r & Hr & _) _]. by eapply lookup_lt_Some. Qed.

(** The keys of the grouping dict are the names of the api rows, in the
    order in which each name is first seen. *)
Lemma group_by_name_keys rows :
  (forall k, k ∈ (group_by_name rows).*1 <-> exists r, r ∈ rows /\ api_named k r) /\
  (forall k1 k2, before (group_by_name rows).*1 k1 k2 ->
     exists a b, first_seen_at rows k1 a /\ first_seen_at rows k2 b /\ (a < b)%nat).
Proof.
  induction rows as [|r rows [IHa IHb]] using rev_ind.
  - split.
    + intros k. simpl. split; [by intros ?%elem_of_nil|].
      by intros (r & ?%elem_of_nil & _).
    + intros k1 k2 ?%before_nil. done.
  - rewrite group_by_name_snoc. unfold group_step.
    destruct (is_api r) eqn:Hapi.
    2:{ split.
        - intros k. rewrite IHa. split; intros (r' & Hin & Hn); exists r'.
          + split; [apply elem_of_app; by left | done].
          + split; [|done]. apply elem_of_app in Hin as [?|Hin]; [done|].
            apply list_elem_of_singleton in Hin as ->. destruct Hn as [Hk _].
            apply is_api_spec in Hk. congruence.
        - intros k1 k2 (a & b & Ha & Hb & Hab)%IHb. exists a, b.
          split_and!; [by apply first_seen_at_app..|done]. }
    apply is_api_spec in Hapi. rewrite by_name_append_keys.
    assert (Hmem : forall k, k ∈ (group_by_name rows).*1 \/ k = name r <->
                             exists r', r' ∈ rows ++ [r] /\ api_named k r').
    { intros k. rewrite IHa. split.
      - intros [(r' & Hin & Hn)| ->].
        + exists r'. split; [apply elem_of_app; by left | done].
        + exists r. split; [apply elem_of_app; right; by left | done].
      - intros (r' & Hin & Hn). apply elem_of_app in Hin as [Hin|Hin]; [left; eauto|].
        apply list_elem_of_singleton in Hin as ->. right. by destruct Hn. }
    destruct (decide (name r ∈ (group_by_name rows).*1)) as [Hin|Hin].
    + split.
      * intros k. rewrite <- Hmem. split; [by left|]. by intros [?| ->].
      * intros k1 k2 (a & b & Ha & Hb & Hab)%IHb. exists a, b.
        split_and!; [by apply first_seen_at_app..|done].
    + split.
      * intros k. rewrite <- Hmem, elem_of_app, list_elem_of_singleton. done.
      * intros k1 k2 [Hb|[Hk1 ->]]%before_snoc.
        { apply IHb in Hb as (a & b & Ha & Hb & Hab). exists a, b.
          split_and!; [by apply first_seen_at_app..|done]. }
        apply IHa in Hk1 as (r1 & Hr1 & Hn1).
        destruct (first_seen_exists rows k1 r1 Hr1 Hn1) as [a Ha].
        exists a, (length rows). split_and!.
        -- by apply first_seen_at_app.
        -- split.
           ++ exists r. split; [|done].
              rewrite lookup_app_r by lia. by rewrite Nat.sub_diag.
           ++ intros a' r' Hr' Hn'. destruct (decide (a' < length rows)%nat); [|lia].
              rewrite lookup_app_l in Hr' by done. exfalso. apply Hin, IHa.
              exists r'. split; [by eapply list_elem_of_lookup_2 | done].
        -- by eapply first_seen_at_lt.
Qed.

(** *** The second loop and the summary *)

Lemma api_metrics_ok_inv k ws m :
  api_metrics (k, ws) = Ok m ->
  api_name m = k /\ count m = Z.of_nat (length ws) /\ cumulative_ns m = sum ws /\
  (if count m =? 0 then Ok 0%float else truediv (sum ws) (count m)) = Ok (mean_ns m).
Proof.
  unfold api_metrics. intros H. apply bind_ok_inv in H as (mean & Hmean & H').
  injection H' as <-. simpl. done.
Qed.

Lemma per_api_names by_name raw :
  Forall2 (fun e m => api_metrics e = Ok m) by_name raw ->
  api_name <$> raw = by_name.*1.
Proof.
  induction 1 as [|[k ws] m by_name raw Hm _ IH]; [done|].
  apply api_metrics_ok_inv in Hm as (Hn & _). rewrite !fmap_cons, IH. by f_equal.
Qed.


(** What a returned result is made of. *)
Lemma compute_metrics_ok_inv rows per_api summary :
  compute_metrics rows = Ok (per_api, summary) ->
  exists raw,
    Forall2 (fun e m => api_metrics e = Ok m) (group_by_name rows) raw /\
    per_api = sort_desc cumulative_ns raw /\
    program_duration_ns summary = program_duration rows /\
    api_cumulative_ns summary = sum (cumulative_ns <$> per_api) /\
    match program_duration rows with
    | Some p =>
        non_api_ns summary = Some (p - api_cumulative_ns summary) /\
        exists pct, share_pct (api_cumulative_ns summary) p = Ok pct /\
                    api_share_pct summary = Some pct
    | None => non_api_ns summary = None /\ api_share_pct summary = None
    end.
Proof.
  unfold compute_metrics. intros H.
  apply bind_ok_inv in H as (raw & Hraw & H1). apply for_each_ok_inv in Hraw.
  apply bind_ok_inv in H1 as (derived & Hd & H2). injection H2 as <- <-.
  exists raw. simpl. split_and!; try done.
  destruct (program_duration rows) as [p|].
  - apply bind_ok_inv in Hd as (pct & Hpct & Hd'). injection Hd' as <-. simpl. eauto.
  - injection Hd as <-. done.
Qed.

(** The only exception [compute_metrics] raises is the overflow of a
    quotient: no division by zero is ever attempted. *)
Lemma compute_metrics_err rows e :
  compute_metrics rows = Err e -> e = OverflowError.
Proof.
  unfold compute_metrics.
  destruct (for_each api_metrics (group_by_name rows)) as [raw|e'] eqn:Hraw; simpl.
  - destruct (program_duration rows) as [p|]; simpl; [|discriminate].
    unfold share_pct. destruct (Z.ltb_spec 0 p); simpl; [|discriminate].
    destruct (truediv _ p) as [q|e2] eqn:Hq; simpl; [discriminate|].
    intros [= <-]. eapply truediv_err; [|done]. lia.
  - intros [= <-]. apply for_each_err_inv in Hraw as ([k ws] & _ & Hm).
    unfold api_metrics in Hm.
    destruct (Z.eqb_spec (Z.of_nat (length ws)) 0); simpl in Hm; [discriminate|].
    destruct (truediv _ _) as [q|e2] eqn:Hq; simpl in Hm; [discriminate|].
    injection Hm as <-. by eapply truediv_err.
Qed.

(** [compute_metrics] returns whenever the quotients it takes are within
    the range of the floats: the mean of each label, and the share of the
    api total in a positive program duration. *)
Lemma compute_metrics_returns rows :
  Forall (fun e => is_ok (truediv (sum e.2) (Z.of_nat (length e.2))) = true)
         (group_by_name rows) ->
  (forall p, program_duration rows = Some p -> 0 < p ->
     is_ok (truediv (sum ((fun e => sum e.2) <$> group_by_name rows)) p) = true) ->
  is_ok (compute_metrics rows) = true.
Proof.
  intros Hmeans Hshare. unfold compute_metrics.
  assert (Hloop : is_ok (for_each api_metrics (group_by_name rows)) = true).
  { apply for_each_ok_intro. eapply Forall_impl; [exact Hmeans|].
    intros [k ws] Hq. unfold api_metrics. simpl in Hq.
    destruct (Z.of_nat (length ws) =? 0); [done|].
    by destruct (truediv (sum ws) (Z.of_nat (length ws))). }
  destruct (for_each api_metrics (group_by_name rows)) as [raw|e] eqn:Hraw; [|done].
  apply for_each_ok_inv in Hraw. cbn [mbind result_bind].
  assert (Htotal : sum (cumulative_ns <$> sort_desc cumulative_ns raw)
                   = sum ((fun e => sum e.2) <$> group_by_name rows)).
  { rewrite sum_sort_desc. clear -Hraw.
    induction Hraw as [|[k ws] m by_name raw Hm _ IH]; [done|].
    apply api_metrics_ok_inv in Hm as (_ & _ & Hc & _).
    rewrite !fmap_cons, !sum_cons, IH, Hc. done. }
  change (@map ApiMetrics Z) with (@fmap list _ ApiMetrics Z). rewrite Htotal.
  destruct (program_duration rows) as [p|]; [|done].
  unfold share_pct. destruct (Z.ltb_spec 0 p); [|done].
  specialize (Hshare p eq_refl ltac:(done)).
  by destruct (truediv _ p).
Qed.

(** *** Sums of absolute values *)

Lemma sum_app (l l' : list Z) : sum (l ++ l') = sum l + sum l'.
Proof.
  induction l as [|x l IH]; [done|].
  rewrite <- app_comm_cons, !sum_cons, IH. lia.
Qed.

Lemma abs_sum_le (l : list Z) : Z.abs (sum l) <= sum (Z.abs <$> l).
Proof.
  induction l as [|x l IH]; [done|]. rewrite fmap_cons, !sum_cons. lia.
Qed.

Lemma sum_abs_nonneg (l : list Z) : 0 <= sum (Z.abs <$> l).
Proof. pose proof (abs_sum_le l). lia. Qed.

(** *** The walls held by the grouping dict *)

Lemma by_name_append_mass k w d :
  sum ((fun e => sum (Z.abs <$> e.2)) <$> by_name_append k w d)
  = sum ((fun e => sum (Z.abs <$> e.2)) <$> d) + Z.abs w.
Proof.
  induction d as [|[k' ws] d IH]; cbn [by_name_append].
  - done.
  - destruct (decide (k' = k)) as [->|Hne]; rewrite !fmap_cons, !sum_cons; cbn [snd].
    + rewrite fmap_app, sum_app. cbn [fmap list_fmap]. rewrite sum_cons. change (sum []) with 0. lia.
    + rewrite IH. lia.
Qed.

Lemma by_name_append_nonempty k w d :
  Forall (fun e => e.2 <> []) d -> Forall (fun e => e.2 <> []) (by_name_append k w d).
Proof.
  induction 1 as [|[k' ws] d Hws Hd IH]; cbn [by_name_append].
  - by repeat constructor.
  - destruct (decide (k' = k)) as [->|Hne]; constructor; try done.
    cbn [snd]. by destruct ws.
Qed.

(** No list of the grouping dict is empty, and together they hold no
    more than the walls of the rows. *)
Lemma group_by_name_mass rows :
  Forall (fun e => e.2 <> []) (group_by_name rows) /\
  sum ((fun e => sum (Z.abs <$> e.2)) <$> group_by_name rows)
  <= sum ((fun r => Z.abs (wall_ns r)) <$> rows).
Proof.
  induction rows as [|r rows [IHn IHm]] using rev_ind; [by split|].
  rewrite group_by_name_snoc, fmap_app, sum_app. cbn [fmap list_fmap].
  rewrite sum_cons. change (sum []) with 0. unfold group_step.
  destruct (is_api r).
  - split; [by apply by_name_append_nonempty|]. rewrite by_name_append_mass. lia.
  - split; [done|]. lia.
Qed.

Lemma mass_bounds (d : list (option string * list Z)) :
  Z.abs (sum ((fun e => sum e.2) <$> d)) <= sum ((fun e => sum (Z.abs <$> e.2)) <$> d) /\
  Forall (fun e => Z.abs (sum e.2) <= sum ((fun e => sum (Z.abs <$> e.2)) <$> d)) d.
Proof.
  induction d as [|[k ws] d [IHs IHe]]; [by split|].
  rewrite !fmap_cons, !sum_cons. cbn [snd].
  pose proof (abs_sum_le ws).
  assert (0 <= sum ((fun e => sum (Z.abs <$> e.2)) <$> d)) by lia.
  split; [lia|]. constructor; [cbn [snd]; lia|].
  eapply Forall_impl; [exact IHe|]. intros e He. cbv beta in *. lia.
Qed.

(** [compute_metrics] returns on every trace whose walls add up, in
    absolute value, to less than [2 ^ 1023]. *)
Lemma compute_metrics_in_range rows :
  sum ((fun r => Z.abs (wall_ns r)) <$> rows) < 2 ^ (emax - 1) ->
  is_ok (compute_metrics rows) = true.
Proof.
  intros Hrange. destruct (group_by_name_mass rows) as [Hne Hmass].
  destruct (mass_bounds (group_by_name rows)) as [Htotal Heach].
  set (bound := 2 ^ (emax - 1)) in *.
  apply compute_metrics_returns.
  - apply Forall_forall. intros e He.
    rewrite Forall_forall in Hne, Heach. specialize (Hne e He). specialize (Heach e He).
    apply truediv_in_range; [destruct (e.2); [done|simpl; lia] | fold bound; lia].
  - intros p _ Hp. apply truediv_in_range; [lia | fold bound; lia].
Qed.

(** *** The program duration *)

Lemma max_list_spec x l : is_max_of (max_list x l) (x :: l).
Proof.
  unfold max_list. revert x. induction l as [|y l IH]; intros x; simpl.
  - split; [by left|]. intros z ->%list_elem_of_singleton. lia.
  - destruct (IH (Z.max x y)) as [Hin Hle]. split.
    + apply elem_of_cons in Hin as [Hin|Hin]; [|by do 2 right].
      rewrite Hin. destruct (Z.max_spec x y) as [[_ ->]|[_ ->]]; [right|]; by left.
    + intros z Hz. assert (Z.max x y <= fold_left Z.max l (Z.max x y)) by (apply Hle; by left).
      apply elem_of_cons in Hz as [->|Hz]; [lia|].
      apply elem_of_cons in Hz as [->|Hz]; [lia|]. apply Hle. by right.
Qed.

Lemma max_wall_spec l :
  match max_wall l with
  | Some m => is_max_of m l
  | None => l = []
  end.
Proof. destruct l; simpl; [done | apply max_list_spec]. Qed.

Lemma filter_is_program rows : List.filter is_program rows = filter program_row rows.
Proof.
  induction rows as [|r rows IH]; [done|]. simpl. rewrite filter_cons, IH.
  unfold is_program, program_row. by case_bool_decide; case_decide.
Qed.

Lemma filter_is_entire_run rows :
  List.filter is_entire_run rows = filter run_scope_row rows.
Proof.
  induction rows as [|r rows IH]; [done|]. simpl. rewrite filter_cons, IH.
  unfold is_entire_run, is_program, run_scope_row.
  repeat case_bool_decide; case_decide; simpl; try done; tauto.
Qed.

Lemma program_duration_spec rows :
  let run_walls := wall_ns <$> filter run_scope_row rows in
  let program_walls := wall_ns <$> filter program_row rows in
  match program_duration rows with
  | Some m =>
      (run_walls <> [] /\ is_max_of m run_walls) \/
      (run_walls = [] /\ is_max_of m program_walls)
  | None => program_walls = []
  end.
Proof.
  unfold program_duration. rewrite filter_is_program, filter_is_entire_run.
  change (@map Row Z) with (@fmap list _ Row Z). simpl.
  destruct (wall_ns <$> filter run_scope_row rows) as [|x l] eqn:Hrun.
  - pose proof (max_wall_spec (wall_ns <$> filter program_row rows)) as H.
    destruct (max_wall _); [right|]; done.
  - left. split; [done|]. apply max_list_spec.
Qed.

(** *** The claims on the metrics compiler *)

(** C1.  On the rows (api, A, 100), (api, A, 300), (api, B, 50),
    (program, entire_run, 1000) the compiler returns the per-label
    records A = (count 2, cumulative 400, mean 200) and B = (count 1,
    cumulative 50, mean 50), in this order, and the summary with program
    duration 1000, api cumulative 450, non-api 550 and api share 45.0. *)
Theorem C1_aggregation_example :
  compute_metrics example_rows = Ok (example_per_api, example_summary).
Proof.
  unfold example_rows, example_per_api, example_summary, row.
  vm_compute. reflexivity.
Qed.

Lemma run_walls_nil rows :
  wall_ns <$> filter program_row rows = [] ->
  wall_ns <$> filter run_scope_row rows = [].
Proof.
  intros H%fmap_nil_inv. destruct (filter run_scope_row rows) as [|r l] eqn:Hf; [done|].
  assert (Hr : r ∈ filter run_scope_row rows) by (rewrite Hf; by left).
  apply list_elem_of_filter in Hr as [[Hk _] Hin].
  assert (Hp : r ∈ filter program_row rows) by (by apply list_elem_of_filter).
  rewrite H in Hp. by apply elem_of_nil in Hp.
Qed.

(** C4.  Whenever the compiler returns, the program duration is the
    largest wall_ns among the program rows named entire_run; when there
    is none, the largest among all program rows; when there is no program
    row, it is absent.  The non-api time and the api share are absent
    exactly when the program duration is. *)
Theorem C4_program_duration rows per_api summary :
  compute_metrics rows = Ok (per_api, summary) ->
  let run_walls := wall_ns <$> filter run_scope_row rows in
  let program_walls := wall_ns <$> filter program_row rows in
  (run_walls <> [] ->
     exists m, program_duration_ns summary = Some m /\ is_max_of m run_walls) /\
  (run_walls = [] -> program_walls <> [] ->
     exists m, program_duration_ns summary = Some m /\ is_max_of m program_walls) /\
  (program_walls = [] -> program_duration_ns summary = None) /\
  (non_api_ns summary = None <-> program_duration_ns summary = None) /\
  (api_share_pct summary = None <-> program_duration_ns summary = None).
Proof.
  intros (raw & _ & _ & Hp & _ & Hd)%compute_metrics_ok_inv run_walls program_walls.
  pose proof (program_duration_spec rows) as Hspec. simpl in Hspec.
  pose proof (run_walls_nil rows) as Hnil.
  fold run_walls program_walls in Hspec, Hnil. rewrite Hp.
  destruct (program_duration rows) as [m|].
  - destruct Hd as (Hnon & pct & _ & Hpct). rewrite Hnon, Hpct. split_and!.
    + intros Hne. exists m. split; [done|]. destruct Hspec as [[_ ?]|[? _]]; [done | contradiction].
    + intros Hrun _. exists m. split; [done|]. destruct Hspec as [[? _]|[_ ?]]; [contradiction | done].
    + intros Hnone. destruct Hspec as [[Hne _]|[_ [Hin _]]]; [destruct Hne; auto|].
      rewrite Hnone in Hin. by apply elem_of_nil in Hin.
    + done.
    + done.
  - destruct Hd as [-> ->]. split_and!; try done.
    intros Hne. destruct Hne; auto.
Qed.

Lemma C4_program_duration_witness :
  let run_walls := wall_ns <$> filter run_scope_row example_rows in
  let program_walls := wall_ns <$> filter program_row example_rows in
  (run_walls <> [] ->
     exists m, program_duration_ns example_summary = Some m /\ is_max_of m run_walls) /\
  (run_walls = [] -> program_walls <> [] ->
     exists m, program_duration_ns example_summary = Some m /\ is_max_of m program_walls) /\
  (program_walls = [] -> program_duration_ns example_summary = None) /\
  (non_api_ns example_summary = None <-> program_duration_ns example_summary = None) /\
  (api_share_pct example_summary = None <-> program_duration_ns example_summary = None).
Proof.
  apply (C4_program_duration example_rows example_per_api example_summary).
  vm_compute. reflexivity.
Defined.

(** C5.  Whenever the compiler returns, the per-label records are in
    descending order of cumulative_ns, and of two records with the same
    cumulative_ns the one that comes first is the one whose name is seen
    first among the api rows. *)
Theorem C5_sorted_stable rows per_api summary :
  compute_metrics rows = Ok (per_api, summary) ->
  forall (i j : nat) (m1 m2 : ApiMetrics),
    per_api !! i = Some m1 -> per_api !! j = Some m2 -> (i < j)%nat ->
    cumulative_ns m2 <= cumulative_ns m1 /\
    (cumulative_ns m1 = cumulative_ns m2 ->
     exists a b, first_seen_at rows (api_name m1) a /\
                 first_seen_at rows (api_name m2) b /\ (a < b)%nat).
Proof.
  intros (raw & Hraw & -> & _)%compute_metrics_ok_inv i j m1 m2 Hi Hj Hij.
  assert (Hb : before (sort_desc cumulative_ns raw) m1 m2) by (by exists i, j).
  split.
  - eapply sorted_before; [apply sort_desc_sorted | done].
  - intros Heq. apply sort_desc_stable in Hb; [|done].
    apply (before_fmap api_name) in Hb. rewrite (per_api_names _ _ Hraw) in Hb.
    by apply group_by_name_keys.
Qed.

Lemma C5_sorted_stable_witness :
  cumulative_ns {| api_name := Some "B"; count := 2; cumulative_ns := 100; mean_ns := 50 |}
    <= cumulative_ns {| api_name := Some "A"; count := 1; cumulative_ns := 100; mean_ns := 100 |} /\
  (100 = 100 ->
   exists a b, first_seen_at tie_rows (Some "A") a /\
               first_seen_at tie_rows (Some "B") b /\ (a < b)%nat).
Proof.
  apply (C5_sorted_stable tie_rows tie_per_api tie_summary) with (i := 1%nat) (j := 2%nat).
  - vm_compute. reflexivity.
  - reflexivity.
  - reflexivity.
  - lia.
Defined.



End EvaluateTraceFacts.

(** ** The tracer *)
Module TracerFacts.
Import Py Json Tracer.

(** *** The recorders *)

Ltac run_recorder :=
  unfold try_finally, mbind, Work_bind, perf_counter_ns, process_time_ns; simpl.

Lemma span_recorded {A : Type} (name kind : string) meta (body : Work A) :
  recorded kind name meta body (span name kind meta body).
Proof. intros w. unfold span. run_recorder. by destruct (body w). Qed.

Lemma wrap_recorded {A : Type} (label : string) meta (inner : Work A) :
  recorded "api" label meta inner (wrap label meta inner).
Proof. intros w. unfold wrap. run_recorder. by destruct (inner w). Qed.

Lemma awrap_recorded {A : Type} (label : string) meta (inner : Work A) :
  recorded "api" label meta inner (awrap label meta inner).
Proof. intros w. unfold awrap. run_recorder. by destruct (inner w). Qed.

Lemma call_wrapper_recorded {R : Type} (impl : nat -> Work R) label meta fn :
  recorded "api" label meta (call impl fn) (call impl (Wrapper label meta fn)).
Proof.
  simpl. destruct (iscoroutinefunction fn);
    [apply awrap_recorded | apply wrap_recorded].
Qed.

Lemma recorded_spans {A : Type} kind name meta (body run : Work A) w :
  recorded kind name meta body run ->
  (run w).1 = (body w).1 /\
  _spans (tracer (run w).2) =
    _spans (tracer (body w).2) ++ [span_between kind name meta w (body w).2] /\
  _patches (tracer (run w).2) = _patches (tracer (body w).2) /\
  attrs (run w).2 = attrs (body w).2 /\
  perf_counter (run w).2 = perf_counter (body w).2 /\
  process_time (run w).2 = process_time (body w).2.
Proof. intros H. rewrite (H w). done. Qed.

(** C3.  Each recorder (the span context manager, the two wrapper
    closures, and so every call of a wrapped member) ends as the
    recorded work ends, with the same result or the same exception,
    whatever it is, and leaves the ledger the work left with exactly
    one span appended. *)
Theorem C3_one_span_on_every_exit {A : Type} (name kind label : string)
  (meta : list (string * scalar)) (body : Work A)
  (impl : nat -> Work A) (fn : value) (w : World) :
  let exits (run inner : Work A) (k n : string) :=
    (run w).1 = (inner w).1 /\
    _spans (tracer (run w).2) =
      _spans (tracer (inner w).2) ++ [span_between k n meta w (inner w).2] in
  exits (span name kind meta body) body kind name /\
  exits (wrap label meta body) body "api" label /\
  exits (awrap label meta body) body "api" label /\
  exits (call impl (Wrapper label meta fn)) (call impl fn) "api" label.
Proof.
  intros exits. subst exits. cbv beta. split_and!.
  - by rewrite (span_recorded name kind meta body w).
  - by rewrite (span_recorded name kind meta body w).
  - by rewrite (wrap_recorded label meta body w).
  - by rewrite (wrap_recorded label meta body w).
  - by rewrite (awrap_recorded label meta body w).
  - by rewrite (awrap_recorded label meta body w).
  - by rewrite (call_wrapper_recorded impl label meta fn w).
  - by rewrite (call_wrapper_recorded impl label meta fn w).
Qed.

(** *** Instrumentation *)

Lemma label_for_or_str cls name_prefix n d :
  or_str (Some (label_for cls name_prefix n)) d = label_for cls name_prefix n.
Proof. unfold label_for. by destruct (or_str name_prefix (__name__ cls)). Qed.

Lemma wrap_callable_bound obj n v label meta w :
  getattr w obj n = Some v ->
  _wrap_callable obj n v (Some (label_for obj label n)) meta w
  = (Ok (), patched obj n (label_for obj label n) meta v w).
Proof.
  intros Hv. unfold _wrap_callable. by rewrite label_for_or_str, Hv.
Qed.

(** One pass of either loop leaves the world as it is, or patches the
    member it looked at. *)
Lemma instrument_member_step cls exclude name_prefix meta n w :
  ((n ∈ exclude \/ getattr w cls n = None \/
    exists v, getattr w cls n = Some v /\ callable v = false) /\
   instrument_member cls exclude name_prefix meta n w = (Ok (), w)) \/
  exists v, (n ∉ exclude) /\ getattr w cls n = Some v /\ callable v = true /\
    instrument_member cls exclude name_prefix meta n w
    = (Ok (), patched cls n (label_for cls name_prefix n) meta v w).
Proof.
  unfold instrument_member. case_bool_decide as Hex; [left; by auto|].
  destruct (getattr w cls n) as [v|] eqn:Hv; [|left; by auto].
  destruct (callable v) eqn:Hc; [|left; by eauto 6].
  right. exists v. split_and!; try done. by apply wrap_callable_bound.
Qed.

Lemma instrument_function_step mod_ exclude name_prefix meta n w :
  instrument_function mod_ exclude name_prefix meta n w = (Ok (), w) \/
  exists v, (n ∉ exclude) /\ getattr w mod_ n = Some v /\ isfunction v = true /\
    instrument_function mod_ exclude name_prefix meta n w
    = (Ok (), patched mod_ n (label_for mod_ name_prefix n) meta v w).
Proof.
  unfold instrument_function.
  destruct (getattr w mod_ n) as [v|] eqn:Hv; [|by left].
  destruct (isfunction v) eqn:Hc; [|by left]. simpl.
  case_bool_decide as Hex; [by left|]. simpl.
  right. exists v. split_and!; try done. by apply wrap_callable_bound.
Qed.

Lemma for_loop_cons {A : Type} (body : A -> Work ()) x l w :
  for_loop body (x :: l) w =
  match body x w with
  | (Ok _, w') => for_loop body l w'
  | (Err e, w') => (Err e, w')
  end.
Proof. simpl. unfold mbind, Work_bind. by destruct (body x w) as [[[]|e] w']. Qed.

(** *** Restoring *)

(** Undoing the patches of a patched world is undoing those that were
    there before. *)
Lemma restored_patched obj n label meta v w :
  getattr w obj n = Some v ->
  restored (patched obj n label meta v w) = restored w.
Proof.
  intros Hv. unfold restored, patched, push_patch, setattr. simpl.
  rewrite reverse_snoc. simpl. rewrite insert_insert_eq.
  by rewrite insert_id.
Qed.

Lemma restore_spec w :
  restore w =
  (Ok (), set_attrs (restored w)
            (set_tracer {| run_id := run_id (tracer w); out_dir := out_dir (tracer w);
                           _spans := _spans (tracer w); _patches := [] |} w)).
Proof. reflexivity. Qed.

Lemma restored_no_patches w : _patches (tracer w) = [] -> restored w = attrs w.
Proof. unfold restored. by intros ->. Qed.

(** Restoring twice is restoring once. *)
Lemma restore_idempotent w : restore (restore w).2 = restore w.
Proof.
  rewrite !restore_spec. simpl. unfold restored. simpl. done.
Qed.

Lemma instrument_member_patch_step cls exclude name_prefix meta :
  patch_step (instrument_member cls exclude name_prefix meta).
Proof.
  intros n w.
  destruct (instrument_member_step cls exclude name_prefix meta n w)
    as [[_ H]|(v & _ & Hv & _ & H)]; [by left|].
  right. by exists cls, (label_for cls name_prefix n), meta, v.
Qed.

Lemma instrument_function_patch_step mod_ exclude name_prefix meta :
  patch_step (instrument_function mod_ exclude name_prefix meta).
Proof.
  intros n w.
  destruct (instrument_function_step mod_ exclude name_prefix meta n w)
    as [H|(v & _ & Hv & _ & H)]; [by left|].
  right. by exists mod_, (label_for mod_ name_prefix n), meta, v.
Qed.

(** Such a loop returns, records nothing, and what it patched is undone
    together with what was patched before. *)
Lemma for_loop_patch_step body l w :
  patch_step body ->
  (for_loop body l w).1 = Ok () /\
  restored (for_loop body l w).2 = restored w /\
  _spans (tracer (for_loop body l w).2) = _spans (tracer w).
Proof.
  intros Hstep. revert w. induction l as [|n l IH]; intros w; [done|].
  rewrite for_loop_cons.
  destruct (Hstep n w) as [->|(obj & label & meta & v & Hv & ->)]; [apply IH|].
  destruct (IH (patched obj n label meta v w)) as (-> & -> & ->).
  by rewrite restored_patched.
Qed.





Lemma filter_public l : List.filter public l = filter (fun n => public n = true) l.
Proof.
  induction l as [|n l IH]; [done|]. simpl. rewrite filter_cons, IH.
  destruct (public n); by case_decide.
Qed.

Lemma instrument_class_spec cls include exclude name_prefix meta w :
  instrument_class cls include exclude name_prefix meta w
  = for_loop (instrument_member cls exclude name_prefix meta)
      (or_list include (filter (fun n => public n = true) (dir w cls))) w.
Proof. unfold instrument_class. by rewrite filter_public. Qed.

(** *** The claim on the instrumentation registry *)




(** On the attribute table of this model, which has one binding for an
    owner and a name and hands it out as it is, restoring after an
    instrumentation undoes it together with whatever was patched before,
    last patch first; the stack is left empty, and a second restore
    changes nothing.  This is how a module behaves, and a type for the
    plain functions it defines itself.  It says nothing of a member that
    attribute lookup on a type does not hand out as it is bound: for a
    static method [_wrap_callable] saves the function the lookup returned,
    and this function, not the static method, is what [restore] writes
    back. *)
Lemma restore_undoes_instrument_class (cls : owner)
  (include : option (list string)) (exclude : list string)
  (name_prefix : option string) (meta : list (string * scalar)) (w : World) :
  let w1 := (instrument_class cls include exclude name_prefix meta w).2 in
  let w2 := (restore w1).2 in
  attrs w2 = unpatch (reverse (_patches (tracer w))) (attrs w) /\
  (_patches (tracer w) = [] -> attrs w2 = attrs w) /\
  _patches (tracer w2) = [] /\
  restore w2 = (Ok (), w2).
Proof.
  intros w1 w2. subst w1 w2. rewrite instrument_class_spec.
  pose proof (for_loop_patch_step _
                (or_list include (filter (fun n => public n = true) (dir w cls))) w
                (instrument_member_patch_step cls exclude name_prefix meta))
    as (_ & Hres & _).
  rewrite !restore_spec. simpl. rewrite Hres. split_and!; try done.
  apply restored_no_patches.
Qed.

(** The same holds of [instrument_module]. *)
Lemma restore_undoes_instrument_module mod_ include exclude name_prefix meta w :
  let w1 := (instrument_module mod_ include exclude name_prefix meta w).2 in
  attrs (restore w1).2 = restored w.
Proof.
  intros w1. subst w1. unfold instrument_module.
  pose proof (for_loop_patch_step _ (or_list include (List.filter public (dir w mod_))) w
                (instrument_function_patch_step mod_ exclude name_prefix meta))
    as (_ & Hres & _).
  rewrite restore_spec. simpl. by rewrite Hres.
Qed.

End TracerFacts.

(** ** [int] and [str] on integers *)
Module IntFacts.
Import Py.

Lemma append_cons (c : ascii) (s t : string) : String c s +:+ t = String c (s +:+ t).
Proof. reflexivity. Qed.

Lemma append_nil_l (s : string) : EmptyString +:+ s = s.
Proof. reflexivity. Qed.

Lemma append_assoc (s1 s2 s3 : string) : (s1 +:+ s2) +:+ s3 = s1 +:+ (s2 +:+ s3).
Proof. induction s1 as [|c s1 IH]; [done|]. by rewrite !append_cons, IH. Qed.

Lemma append_nil_r (s : string) : s +:+ EmptyString = s.
Proof. induction s as [|c s IH]; [done|]. by rewrite append_cons, IH. Qed.

Lemma digit_char_facts k :
  0 <= k < 10 ->
  is_digit (digit_char k) = true /\ digit_val (digit_char k) = k /\
  is_space (digit_char k) = false.
Proof.
  intros Hk.
  assert (k = 0 \/ k = 1 \/ k = 2 \/ k = 3 \/ k = 4 \/ k = 5 \/ k = 6 \/ k = 7 \/
          k = 8 \/ k = 9) as Hc by lia.
  repeat destruct Hc as [->|Hc]; try subst k; done.
Qed.

Lemma digits_of_app fuel n acc :
  digits_of fuel n acc = digits_of fuel n EmptyString +:+ acc.
Proof.
  revert n acc. induction fuel as [|fuel IH]; intros n acc; simpl; [done|].
  destruct (n <? 10); [done|].
  rewrite IH, (IH _ (String _ EmptyString)).
  by rewrite append_assoc.
Qed.

(** The digits written for [n] are read back as [n], whatever was read
    before and whatever follows. *)
Lemma digits_value_digits_of fuel n acc :
  0 <= n < 10 ^ Z.of_nat (S fuel) ->
  exists d, 0 < d /\ forall a prev,
    digits_value a prev (digits_of (S fuel) n acc)
    = digits_value (a * 10 ^ d + n) true acc.
Proof.
  revert n acc. induction fuel as [|fuel IH]; intros n acc Hn.
  - assert (n < 10) by (change (10 ^ Z.of_nat 1) with 10 in Hn; lia).
    exists 1. split; [lia|]. intros a prev. simpl.
    destruct (Z.ltb_spec n 10); [|lia]. rewrite Z.mod_small by lia.
    destruct (digit_char_facts n) as (Hd & Hv & _); [lia|].
    simpl. rewrite Hd, Hv. f_equal. lia.
  - cbn [digits_of]. destruct (Z.ltb_spec n 10).
    + exists 1. split; [lia|]. intros a prev. rewrite Z.mod_small by lia.
      destruct (digit_char_facts n) as (Hd & Hv & _); [lia|].
      simpl. rewrite Hd, Hv. f_equal. lia.
    + destruct (IH (n / 10) (String (digit_char (n mod 10)) acc)) as (d & Hd & Heq).
      { split; [apply Z.div_pos; lia|].
        apply Z.div_lt_upper_bound; [lia|].
        replace (Z.of_nat (S (S fuel))) with (1 + Z.of_nat (S fuel)) in Hn by lia.
        rewrite Z.pow_add_r in Hn by lia. lia. }
      exists (d + 1). split; [lia|]. intros a prev. rewrite Heq. simpl.
      destruct (digit_char_facts (n mod 10)) as (Hdg & Hv & _);
        [apply Z.mod_pos_bound; lia|].
      rewrite Hdg, Hv. f_equal.
      rewrite Z.pow_add_r by lia. pose proof (Z.div_mod n 10). lia.
Qed.

Lemma digits_of_all_digits fuel n acc :
  0 <= n -> all_chars is_digit acc = true ->
  all_chars is_digit (digits_of fuel n acc) = true.
Proof.
  revert n acc. induction fuel as [|fuel IH]; intros n acc Hn Hacc; simpl; [done|].
  destruct (digit_char_facts (n mod 10)) as (Hd & _); [apply Z.mod_pos_bound; lia|].
  destruct (n <? 10).
  - simpl. by rewrite Hd.
  - apply IH; [apply Z.div_pos; lia|]. simpl. by rewrite Hd.
Qed.

Lemma fuel_enough m : 0 <= m -> m < 10 ^ Z.of_nat (S (Z.to_nat (Z.log2 m))).
Proof.
  intros Hm. destruct (decide (m = 0)) as [->|Hne]; [done|].
  pose proof (Z.log2_nonneg m).
  pose proof (Z.log2_spec m ltac:(lia)) as [_ Hlt].
  rewrite Nat2Z.inj_succ, Z2Nat.id by done.
  eapply Z.lt_le_trans; [exact Hlt|].
  apply Z.pow_le_mono_l. lia.
Qed.

Lemma is_digit_not_space c : is_digit c = true -> is_space c = false.
Proof.
  unfold is_digit, is_space. intros H. apply andb_true_iff in H as [H1 H2].
  apply Nat.leb_le in H1. apply Nat.leb_le in H2.
  apply orb_false_iff. split.
  - apply andb_false_iff. right. apply Nat.leb_gt. lia.
  - apply Nat.eqb_neq. lia.
Qed.

(** A string of characters that are no space, or headed by one and ended
    by one, is left as it is by [strip]; here: no space at all. *)
Lemma rstrip_no_space s : all_chars (fun c => negb (is_space c)) s = true -> rstrip s = s.
Proof.
  induction s as [|c s IH]; simpl; [done|].
  intros [Hc Hs]%andb_true_iff. rewrite (IH Hs).
  destruct s; [|done]. by destruct (is_space c).
Qed.

Lemma lstrip_no_space s : all_chars (fun c => negb (is_space c)) s = true -> lstrip s = s.
Proof.
  destruct s as [|c s]; simpl; [done|].
  intros [Hc _]%andb_true_iff. by destruct (is_space c).
Qed.

Lemma all_chars_impl (p q : ascii -> bool) s :
  (forall c, p c = true -> q c = true) -> all_chars p s = true -> all_chars q s = true.
Proof.
  intros Hpq. induction s as [|c s IH]; simpl; [done|].
  intros [Hc Hs]%andb_true_iff. by rewrite (Hpq c Hc), IH.
Qed.

Lemma strip_digits s : all_chars is_digit s = true -> strip s = s.
Proof.
  intros H. assert (all_chars (fun c => negb (is_space c)) s = true).
  { eapply all_chars_impl; [|exact H]. intros c Hc.
    by rewrite (is_digit_not_space c Hc). }
  unfold strip. by rewrite lstrip_no_space, rstrip_no_space.
Qed.

Lemma signed_value_digit c d :
  is_digit c = true -> signed_value (String c d) = digits_value 0 false (String c d).
Proof.
  destruct c as [[] [] [] [] [] [] [] []]; try discriminate; reflexivity.
Qed.

Lemma is_digit_ascii c : is_digit c = true -> (byte c <? 0x80)%N = true.
Proof.
  destruct c as [[] [] [] [] [] [] [] []]; try discriminate; reflexivity.
Qed.

Lemma digits_is_ascii s : all_chars is_digit s = true -> is_ascii s = true.
Proof.
  induction s as [|c s IH]; [done|]. simpl.
  intros [Hc Hs]%andb_true_iff. by rewrite (is_digit_ascii c Hc), IH.
Qed.

(** A [str] of ASCII characters is read as it is. *)
Lemma int_of_str_ascii s :
  is_ascii s = true ->
  int_of_str s = match signed_value (strip s) with
                 | Some z => Ok z
                 | None => Err ValueError
                 end.
Proof. intros H. unfold int_of_str, decimal_and_space_to_ascii. by rewrite H. Qed.

(** [int(str(n)) == n] *)
Lemma int_of_str_of_int n : int_of_str (str_of_int n) = Ok n.
Proof.
  unfold str_of_int. set (m := Z.abs n).
  assert (Hm : 0 <= m) by (subst m; lia).
  destruct (digits_value_digits_of (Z.to_nat (Z.log2 m)) m EmptyString)
    as (d & _ & Hval); [split; [done | by apply fuel_enough]|].
  pose proof (digits_of_all_digits (S (Z.to_nat (Z.log2 m))) m EmptyString Hm eq_refl)
    as Hdig.
  set (ds := digits_of (S (Z.to_nat (Z.log2 m))) m EmptyString) in *.
  pose proof (digits_is_ascii ds Hdig) as Hascii.
  rewrite int_of_str_ascii by (destruct (n <? 0); [simpl|]; by rewrite ?Hascii).
  destruct (Z.ltb_spec n 0).
  - assert (strip (String "-" ds) = String "-" ds) as ->.
    { assert (all_chars (fun c => negb (is_space c)) (String "-" ds) = true).
      { simpl. eapply all_chars_impl; [|exact Hdig]. intros c Hc.
        by rewrite (is_digit_not_space c Hc). }
      unfold strip. by rewrite lstrip_no_space, rstrip_no_space. }
    cbn [signed_value]. rewrite Hval. simpl. f_equal. subst m. lia.
  - rewrite strip_digits by done.
    destruct ds as [|c ds'] eqn:Hds.
    { exfalso. specialize (Hval 0 false). simpl in Hval. discriminate. }
    simpl in Hdig. apply andb_true_iff in Hdig as [Hc _].
    rewrite (signed_value_digit c ds' Hc).
    rewrite Hval. simpl. f_equal. subst m. lia.
Qed.

End IntFacts.

(** ** The csv module: what is written is read back *)
Module CsvFacts.
Import Py Csv PyFacts IntFacts.

Lemma feed_all_app r t1 t2 :
  feed_all r (t1 ++ t2) = feed_all r t1 ≫= fun r' => feed_all r' t2.
Proof.
  revert r. induction t1 as [|t t1 IH]; intros r; simpl; [done|].
  destruct (feed r t) as [r'|e]; simpl; [apply IH | done].
Qed.

Lemma run_app b ls r s1 s2 :
  run b ls r (s1 +:+ s2) = run b ls r s1 ≫= fun p => run b p.1 p.2 s2.
Proof.
  revert ls r. induction s1 as [|c s1 IH]; intros ls r; [done|].
  rewrite append_cons. cbn [run]. destruct (next_tokens b ls c) as [ts ls'].
  destruct (feed_all r ts) as [r'|e]; simpl; [apply IH | done].
Qed.

(** Reading a file is running the reader over its text and closing the
    last line. *)
Lemma feed_tokens_run b ls r s :
  feed_all r (tokens b ls s)
  = run b ls r s ≫= fun p =>
      feed_all p.2 (match p.1 with Fresh => [] | _ => [EOL] end).
Proof.
  revert ls r. induction s as [|c s IH]; intros ls r.
  - simpl. by destruct ls.
  - cbn [tokens run]. destruct (next_tokens b ls c) as [ts ls'].
    rewrite feed_all_app. destruct (feed_all r ts) as [r'|e]; simpl; [apply IH | done].
Qed.

(** *** Characters *)

Lemma char_cases c : c = CR \/ c = LF \/ c = QUOTE \/ c = COMMA \/ plain c.
Proof.
  unfold plain.
  destruct (Ascii.eqb_spec c CR); [by auto|].
  destruct (Ascii.eqb_spec c LF); [by auto|].
  destruct (Ascii.eqb_spec c QUOTE); [by auto|].
  destruct (Ascii.eqb_spec c COMMA); [by auto 6|]. by auto 10.
Qed.

Lemma special_false c : special c = false -> plain c.
Proof.
  unfold special, is_newline, plain. intros H.
  apply orb_false_iff in H as [H Hnl]. apply orb_false_iff in H as [Hc Hq].
  apply orb_false_iff in Hnl as [Hcr Hlf]. done.
Qed.

Lemma next_tokens_plain b ls c :
  Ascii.eqb c CR = false -> Ascii.eqb c LF = false ->
  next_tokens b ls c
  = (match ls with AfterCR => [EOL; Ch c] | _ => [Ch c] end, Mid).
Proof. intros H1 H2. unfold next_tokens. rewrite H1, H2. by destruct ls. Qed.

Lemma next_tokens_CR b ls :
  next_tokens b ls CR
  = (match ls with
     | AfterCR => [EOL; Ch (if b then LF else CR)]
     | _ => [Ch (if b then LF else CR)]
     end, AfterCR).
Proof. by destruct ls. Qed.

Lemma next_tokens_LF b ls :
  next_tokens b ls LF
  = (match ls with
     | AfterCR => (if b then [] else [Ch LF]) ++ [EOL]
     | _ => [Ch LF; EOL]
     end, Fresh).
Proof. by destruct ls. Qed.

(** *** Inside a field *)

Ltac step_reader :=
  cbn [feed_all mbind result_bind]; unfold feed; cbn [mbind result_bind];
  unfold parse_process_char, start_field, end_of_field, end_of_line, set_state,
    parse_add_char, parse_save_field, parse_reset, is_line_end, is_char,
    token_char, is_newline; simpl.

Lemma run_in_field b s : forall ls f fs rs,
  has_special s = false -> ls <> AfterCR ->
  run b ls (Build_reader IN_FIELD f fs rs) s
  = Ok (match s with EmptyString => ls | _ => Mid end,
        Build_reader IN_FIELD (f +:+ s) fs rs).
Proof.
  induction s as [|c s IH]; intros ls f fs rs Hs Hls.
  - by rewrite append_nil_r.
  - simpl in Hs. apply orb_false_iff in Hs as [Hc Hs].
    apply special_false in Hc as (Hcr & Hlf & Hq & Hcm).
    cbn [run]. rewrite next_tokens_plain by done.
    assert (feed_all (Build_reader IN_FIELD f fs rs)
              (match ls with AfterCR => [EOL; Ch c] | _ => [Ch c] end)
            = Ok (Build_reader IN_FIELD (f +:+ String c EmptyString) fs rs)) as ->.
    { destruct ls; try done; simpl; unfold feed, parse_process_char; simpl;
        unfold is_newline; by rewrite Hcr, Hlf, Hcm. }
    simpl. rewrite IH by done. rewrite append_assoc. by destruct s.
Qed.

Lemma run_in_quoted b s : forall ls f fs rs,
  run b ls (Build_reader IN_QUOTED_FIELD f fs rs) (double_quotes s)
  = Ok (line_after ls s,
        Build_reader IN_QUOTED_FIELD (f +:+ read_quoted b ls s) fs rs).
Proof.
  induction s as [|c s IH]; intros ls f fs rs.
  - simpl. unfold read_quoted. destruct b; simpl; by rewrite append_nil_r.
  - destruct (char_cases c) as [->|[->|[->|[->|(Hcr & Hlf & Hq & Hcm)]]]].
    + (* carriage return *)
      cbn [double_quotes]. change (Ascii.eqb CR QUOTE) with false. cbn [run].
      rewrite next_tokens_CR.
      assert (feed_all (Build_reader IN_QUOTED_FIELD f fs rs)
                (match ls with
                 | AfterCR => [EOL; Ch (if b then LF else CR)]
                 | _ => [Ch (if b then LF else CR)]
                 end)
              = Ok (Build_reader IN_QUOTED_FIELD
                      (f +:+ String (if b then LF else CR) EmptyString) fs rs)) as ->.
      { by destruct ls, b. }
      step_reader. rewrite IH, append_assoc. unfold read_quoted. by destruct b, ls.
    + (* line feed *)
      cbn [double_quotes]. change (Ascii.eqb LF QUOTE) with false. cbn [run].
      rewrite next_tokens_LF.
      assert (feed_all (Build_reader IN_QUOTED_FIELD f fs rs)
                (match ls with
                 | AfterCR => (if b then [] else [Ch LF]) ++ [EOL]
                 | _ => [Ch LF; EOL]
                 end)
              = Ok (Build_reader IN_QUOTED_FIELD
                      (f +:+ match b, ls with
                             | true, AfterCR => EmptyString
                             | _, _ => String LF EmptyString
                             end) fs rs)) as ->.
      { destruct ls, b; try done; simpl; by rewrite append_nil_r. }
      step_reader. rewrite IH, append_assoc. unfold read_quoted. by destruct b, ls.
    + (* quote: written twice *)
      cbn [double_quotes]. change (Ascii.eqb QUOTE QUOTE) with true. cbn [run].
      rewrite !(next_tokens_plain b _ QUOTE) by done.
      assert (feed_all (Build_reader IN_QUOTED_FIELD f fs rs)
                (match ls with AfterCR => [EOL; Ch QUOTE] | _ => [Ch QUOTE] end)
              = Ok (Build_reader QUOTE_IN_QUOTED_FIELD f fs rs)) as ->.
      { by destruct ls. }
      step_reader. rewrite IH, append_assoc. unfold read_quoted. by destruct b, ls.
    + (* comma *)
      cbn [double_quotes]. change (Ascii.eqb COMMA QUOTE) with false. cbn [run].
      rewrite (next_tokens_plain b _ COMMA) by done.
      assert (feed_all (Build_reader IN_QUOTED_FIELD f fs rs)
                (match ls with AfterCR => [EOL; Ch COMMA] | _ => [Ch COMMA] end)
              = Ok (Build_reader IN_QUOTED_FIELD (f +:+ String COMMA EmptyString) fs rs))
        as ->.
      { by destruct ls. }
      step_reader. rewrite IH, append_assoc. unfold read_quoted. by destruct b, ls.
    + cbn [double_quotes]. rewrite Hq. cbn [run].
      rewrite next_tokens_plain by done.
      assert (feed_all (Build_reader IN_QUOTED_FIELD f fs rs)
                (match ls with AfterCR => [EOL; Ch c] | _ => [Ch c] end)
              = Ok (Build_reader IN_QUOTED_FIELD (f +:+ String c EmptyString) fs rs))
        as ->.
      { destruct ls; simpl; unfold feed, parse_process_char; simpl; by rewrite Hq. }
      step_reader. rewrite IH, append_assoc. unfold read_quoted.
      destruct b; [|by rewrite Hcr, Hlf].
      cbn [translate_newlines line_after]. rewrite Hcr, Hlf. by destruct ls.
Qed.

(** *** One field as written *)

Lemma translate_plain s :
  has_special s = false -> translate_newlines false s = s.
Proof.
  induction s as [|c s IH]; [done|]. simpl.
  intros [Hc Hs]%orb_false_iff. apply special_false in Hc as (Hcr & Hlf & _).
  by rewrite Hcr, Hlf, IH.
Qed.

Lemma as_read_plain b s : has_special s = false -> as_read b s = s.
Proof. intros H. unfold as_read. destruct b; [by apply translate_plain | done]. Qed.

(** A quoted field is read up to its closing quote. *)
Lemma run_quoted_field b s ls st fs rs :
  ls <> AfterCR -> at_start st ->
  run b ls (Build_reader st EmptyString fs rs)
    (String QUOTE (double_quotes s +:+ String QUOTE EmptyString))
  = Ok (Mid, Build_reader QUOTE_IN_QUOTED_FIELD (as_read b s) fs rs).
Proof.
  intros Hls Hst. cbn [run]. rewrite (next_tokens_plain b ls QUOTE) by done.
  assert (feed_all (Build_reader st EmptyString fs rs)
            (match ls with AfterCR => [EOL; Ch QUOTE] | _ => [Ch QUOTE] end)
          = Ok (Build_reader IN_QUOTED_FIELD EmptyString fs rs)) as ->.
  { destruct Hst as [-> | ->]; by destruct ls. }
  cbn [mbind result_bind]. rewrite run_app, run_in_quoted. cbn [mbind result_bind fst snd run].
  rewrite (next_tokens_plain b _ QUOTE) by done.
  assert (feed_all (Build_reader IN_QUOTED_FIELD (EmptyString +:+ read_quoted b Mid s) fs rs)
            (match line_after Mid s with AfterCR => [EOL; Ch QUOTE] | _ => [Ch QUOTE] end)
          = Ok (Build_reader QUOTE_IN_QUOTED_FIELD (as_read b s) fs rs)) as ->.
  { unfold read_quoted, as_read. by destruct (line_after Mid s). }
  done.
Qed.

(** A field that needs no quotes is read as it is written. *)
Lemma run_plain_field b c s ls st fs rs :
  has_special (String c s) = false -> ls <> AfterCR -> at_start st ->
  run b ls (Build_reader st EmptyString fs rs) (String c s)
  = Ok (Mid, Build_reader IN_FIELD (String c s) fs rs).
Proof.
  intros Hs Hls Hst. pose proof Hs as Hs'. simpl in Hs'.
  apply orb_false_iff in Hs' as [Hc Hs']. apply special_false in Hc as (Hcr & Hlf & Hq & Hcm).
  cbn [run]. rewrite next_tokens_plain by done.
  assert (feed_all (Build_reader st EmptyString fs rs)
            (match ls with AfterCR => [EOL; Ch c] | _ => [Ch c] end)
          = Ok (Build_reader IN_FIELD (String c EmptyString) fs rs)) as ->.
  { destruct Hst as [-> | ->]; destruct ls; try done; step_reader;
      by rewrite ?Hcr, ?Hlf, ?Hq, ?Hcm. }
  cbn [mbind result_bind]. rewrite run_in_field by done. by destruct s.
Qed.

Lemma run_write_field b alone v ls st fs rs :
  ls <> AfterCR -> at_start st ->
  exists ls' r,
    run b ls (Build_reader st EmptyString fs rs) (write_field alone v) = Ok (ls', r) /\
    ls' <> AfterCR /\ field_read (as_read b v) fs rs st r /\
    (alone = true -> state r <> START_RECORD).
Proof.
  intros Hls Hst. unfold write_field.
  destruct (has_special v) eqn:Hsp; cbn [orb].
  - exists Mid, (Build_reader QUOTE_IN_QUOTED_FIELD (as_read b v) fs rs).
    rewrite run_quoted_field by done. split_and!; try done. constructor.
  - destruct v as [|c v]; cbn [String.eqb].
    + destruct alone; cbn [andb].
      * exists Mid, (Build_reader QUOTE_IN_QUOTED_FIELD (as_read b EmptyString) fs rs).
        rewrite (run_quoted_field b EmptyString) by done. split_and!; try done. constructor.
      * exists ls, (Build_reader st EmptyString fs rs). split_and!; try done.
        rewrite as_read_plain by done. by constructor.
    + rewrite andb_false_r. exists Mid, (Build_reader IN_FIELD (String c v) fs rs).
      rewrite run_plain_field by done. rewrite as_read_plain by done.
      split_and!; try done. by constructor.
Qed.

(** After a field, the comma saves it. *)
Lemma run_comma b v fs rs st r ls rest :
  at_start st -> ls <> AfterCR -> field_read v fs rs st r ->
  run b ls r (String COMMA rest)
  = run b Mid (Build_reader START_FIELD EmptyString (fs ++ [v]) rs) rest.
Proof.
  intros Hst Hls Hr. cbn [run]. rewrite (next_tokens_plain b ls COMMA) by done.
  assert (feed_all r (match ls with AfterCR => [EOL; Ch COMMA] | _ => [Ch COMMA] end)
          = Ok (Build_reader START_FIELD EmptyString (fs ++ [v]) rs)) as ->; [|done].
  destruct Hr as [st|st Hv|st ->]; destruct ls; try done.
  all: by destruct Hst as [-> | ->].
Qed.

(** After a field, the line terminator saves it and closes the record. *)
Lemma run_crlf b v fs rs st r ls rest :
  ls <> AfterCR -> field_read v fs rs st r ->
  (v = EmptyString -> state r = START_FIELD \/ state r = QUOTE_IN_QUOTED_FIELD) ->
  run b ls r (String CR (String LF rest))
  = run b Fresh (parse_reset (rs ++ [fs ++ [v]])) rest.
Proof.
  intros Hls Hr Hempty. cbn [run]. rewrite next_tokens_CR, next_tokens_LF.
  assert (feed_all r (match ls with
                      | AfterCR => [EOL; Ch (if b then LF else CR)]
                      | _ => [Ch (if b then LF else CR)]
                      end)
          = Ok (Build_reader EAT_CRNL EmptyString (fs ++ [v]) rs)) as ->.
  { destruct Hr as [st'|st' Hv|st' ->]; destruct ls, b; try done.
    all: destruct Hempty as [Hs|Hs]; [done|..]; simpl in Hs; try discriminate;
      by rewrite Hs. }
  cbn [mbind result_bind]. by destruct b.
Qed.

(** *** Records and files *)

Lemma field_read_crlf_ready v fs rs r :
  field_read v fs rs START_FIELD r ->
  v = EmptyString -> state r = START_FIELD \/ state r = QUOTE_IN_QUOTED_FIELD.
Proof. intros [st|st Hv|st ->] Hv'; simpl; auto. done. Qed.

(** The fields after the first, up to the end of the line. *)
Lemma run_fields b alone cells : forall ls fs rs rest,
  cells <> [] -> ls <> AfterCR ->
  run b ls (Build_reader START_FIELD EmptyString fs rs)
    (join_fields (map (write_field alone) cells) +:+ String CR (String LF rest))
  = run b Fresh (parse_reset (rs ++ [fs ++ map (as_read b) cells])) rest.
Proof.
  induction cells as [|c cells IH]; intros ls fs rs rest Hne Hls; [done|].
  destruct (run_write_field b alone c ls START_FIELD fs rs Hls)
    as (ls' & r & Hrun & Hls' & Hread & _); [by right|].
  destruct cells as [|c' cells].
  - cbn [map join_fields]. rewrite run_app, Hrun. cbn [mbind result_bind fst snd].
    rewrite (run_crlf b (as_read b c) fs rs START_FIELD) by
      (try done; by eapply field_read_crlf_ready).
    done.
  - change (join_fields (map (write_field alone) (c :: c' :: cells)))
      with (write_field alone c +:+
            String COMMA (join_fields (map (write_field alone) (c' :: cells)))).
    rewrite append_assoc, run_app, Hrun. cbn [mbind result_bind fst snd].
    rewrite append_cons.
    rewrite (run_comma b (as_read b c) fs rs START_FIELD) by (try done; by right).
    rewrite IH by done. by rewrite <- app_assoc.
Qed.

(** One record as written is read back as one record. *)
Lemma run_writerow b cells rs rest :
  run b Fresh (parse_reset rs) (writerow cells +:+ rest)
  = run b Fresh (parse_reset (rs ++ [map (as_read b) cells])) rest.
Proof.
  unfold writerow. rewrite append_assoc, !append_cons, append_nil_l.
  change (parse_reset rs) with (Build_reader START_RECORD EmptyString [] rs).
  destruct cells as [|c [|c' cells]].
  - cbn [map join_fields]. rewrite append_nil_l. cbn [run].
    rewrite next_tokens_CR, next_tokens_LF. by destruct b.
  - cbn [map join_fields length Nat.eqb].
    destruct (run_write_field b true c Fresh START_RECORD [] rs)
      as (ls' & r & Hrun & Hls' & Hread & Halone); [done | by left |].
    rewrite run_app, Hrun. cbn [mbind result_bind fst snd].
    rewrite (run_crlf b (as_read b c) [] rs START_RECORD); [done..|].
    intros Hv. destruct Hread as [st|st Hne|st _]; simpl; auto; [done|].
    by destruct Halone.
  - change (join_fields (map (write_field (Nat.eqb (length (c :: c' :: cells)) 1))
                           (c :: c' :: cells)))
      with (write_field false c +:+
            String COMMA (join_fields (map (write_field false) (c' :: cells)))).
    destruct (run_write_field b false c Fresh START_RECORD [] rs)
      as (ls' & r & Hrun & Hls' & Hread & _); [done | by left |].
    rewrite append_assoc, run_app, Hrun. cbn [mbind result_bind fst snd].
    rewrite append_cons.
    rewrite (run_comma b (as_read b c) [] rs START_RECORD) by (try done; by left).
    by rewrite run_fields.
Qed.

Lemma run_write_rows b rows rs :
  run b Fresh (parse_reset rs) (write_rows rows)
  = Ok (Fresh, parse_reset (rs ++ map (map (as_read b)) rows)).
Proof.
  revert rs. induction rows as [|cells rows IH]; intros rs.
  - simpl. by rewrite app_nil_r.
  - cbn [write_rows foldr]. fold (write_rows rows).
    rewrite run_writerow, IH. by rewrite <- app_assoc.
Qed.

(** Round trip of the csv module: what the writer wrote is read back
    record by record and field by field, each field as the newline mode
    of the file hands it out. *)
Lemma read_all_write_rows b rows :
  read_all b (write_rows rows) = Ok (map (map (as_read b)) rows).
Proof.
  unfold read_all. rewrite feed_tokens_run, run_write_rows. done.
Qed.

(** Read with [newline] empty, as the csv module asks, every field comes
    back as it was. *)
Lemma read_all_write_rows_exact rows :
  read_all false (write_rows rows) = Ok rows.
Proof.
  rewrite read_all_write_rows. f_equal. unfold as_read.
  induction rows as [|r rows IH]; [done|]. simpl. rewrite IH. f_equal.
  induction r as [|c r IHr]; [done|]. simpl. by rewrite IHr.
Qed.

End CsvFacts.

(** ** The loader *)
Module LoaderFacts.
Import Py Csv EvaluateTrace PyFacts.

Lemma for_each_err_intro {A B : Type} (f : A -> result B) (l : list A) x e :
  x ∈ l -> f x = Err e -> exists e', for_each f l = Err e'.
Proof.
  induction l as [|y l IH]; intros Hin Hx; [by apply elem_of_nil in Hin|].
  simpl. destruct (f y) as [b|e0] eqn:Hy; simpl; [|eauto].
  apply elem_of_cons in Hin as [->|Hin]; [congruence|].
  destruct (IH Hin Hx) as [e' ->]. simpl. eauto.
Qed.

(** Under the header of an export, a malformed record does not load. *)
Lemma load_row_malformed rec :
  nonblank rec = true -> malformed export_header rec ->
  exists e, load_row export_header rec = Err e.
Proof.
  intros Hnb Hbad. unfold load_row, getitem.
  destruct rec as [|c0 [|c1 [|c2 [|c3 [|c4 rec]]]]]; try discriminate;
    try (simpl; eauto; fail).
  simpl. destruct Hbad as [H|[H|[H|(s & Hs & Hint)]]].
  - by destruct (H c0).
  - by destruct (H c1).
  - by destruct (H c4).
  - simpl in Hs. injection Hs as ->. rewrite Hint. simpl. eauto.
Qed.

(** Under the header of an export, loading a record raises nothing but
    the two errors of [int]. *)
Lemma load_row_export_err rec e :
  load_row export_header rec = Err e -> e = ValueError \/ e = TypeError.
Proof.
  unfold load_row, getitem, export_header. simpl.
  destruct (head (tail (tail (tail (tail rec))))) as [s|]; simpl.
  - unfold int_of_str. destruct (signed_value (strip _)); simpl; intros [= <-]; auto.
  - intros [= <-]. auto.
Qed.

Section MainFacts.
Variable render_table_per_api : list ApiMetrics -> Unit -> result string.
Variable render_table_summary : RunSummary -> Unit -> result string.
Variable markdown_report : list ApiMetrics -> RunSummary -> Unit -> result string.
Variable csv_per_api : list ApiMetrics -> Unit -> result string.
Variable csv_summary : RunSummary -> Unit -> result string.
Variable summary_path : string -> string.
Variable message : string -> string -> string.

Let run_main : Args -> string -> io () :=
  main render_table_per_api render_table_summary markdown_report
       csv_per_api csv_summary summary_path message.

(** When the rows do not load, nothing is printed or written. *)
Lemma main_load_error args content e :
  load_rows content = Err e -> run_main args content [] = ([], Err e).
Proof. intros H. unfold run_main, main, mbind, io_bind, lift. by rewrite H. Qed.

(** C7.  When a row of a tabular input (a file under the header of an
    export) misses one of kind, name and wall_ns or holds a wall_ns that is
    no integer, the invocation raises, and has printed and written
    nothing. *)
Theorem C7_malformed_row_fails_whole_run args content recs rec :
  read_all true content = Ok recs ->
  (dict_rows recs).1 = export_header ->
  rec ∈ (dict_rows recs).2 ->
  malformed export_header rec ->
  exists e, (e = ValueError \/ e = TypeError) /\
            load_rows content = Err e /\
            run_main args content [] = ([], Err e).
Proof.
  intros Hread Hhead Hin Hbad.
  assert (Hrows : load_rows content
                  = for_each (load_row export_header) (dict_rows recs).2).
  { unfold load_rows, rows_of_text. rewrite Hread. simpl.
    destruct (dict_rows recs) as [h rows]. simpl in *. by subst h. }
  assert (Hnb : nonblank rec = true).
  { destruct recs as [|h0 recs]; simpl in Hin; [by apply elem_of_nil in Hin|].
    apply list_elem_of_In, filter_In in Hin. tauto. }
  destruct (load_row_malformed rec Hnb Hbad) as [e0 He0].
  destruct (for_each_err_intro _ _ _ _ Hin He0) as [e He].
  exists e. rewrite Hrows. split_and!; [|done|].
  - apply for_each_err_inv in He as (x & _ & Hx). by apply load_row_export_err in Hx.
  - apply main_load_error. by rewrite Hrows.
Qed.
End MainFacts.

Lemma C7_malformed_row_witness :
  exists e, (e = ValueError \/ e = TypeError) /\
            load_rows unparsable_export = Err e /\
            quiet_main default_args unparsable_export [] = ([], Err e).
Proof.
  apply (C7_malformed_row_fails_whole_run _ _ _ _ _ _ _ default_args unparsable_export
           [export_header; unparsable_row] unparsable_row).
  - vm_compute. reflexivity.
  - reflexivity.
  - simpl. apply list_elem_of_here.
  - right. right. right. exists "five". split; reflexivity.
Defined.

End LoaderFacts.

(** ** Export and load *)
Module ExportFacts.
Import Py Csv Json Tracer PyFacts IntFacts CsvFacts TracerFacts.

(** *** What [save] writes is read back *)

Lemma is_digit_not_special c : is_digit c = true -> special c = false.
Proof.
  destruct c as [[] [] [] [] [] [] [] []]; try discriminate; reflexivity.
Qed.

Lemma digits_plain s : all_chars is_digit s = true -> has_special s = false.
Proof.
  induction s as [|c s IH]; [done|]. simpl.
  intros [Hc Hs]%andb_true_iff. by rewrite (is_digit_not_special c Hc), IH.
Qed.

Lemma str_of_int_plain z : has_special (str_of_int z) = false.
Proof.
  unfold str_of_int.
  assert (has_special (digits_of (S (Z.to_nat (Z.log2 (Z.abs z)))) (Z.abs z) EmptyString)
          = false) as Hd.
  { apply digits_plain, digits_of_all_digits; [lia | done]. }
  set (ds := digits_of _ _ _) in *.
  destruct (z <? 0); [|done]. simpl. by rewrite Hd.
Qed.

Lemma as_read_int b z : as_read b (str_of_int z) = str_of_int z.
Proof. apply as_read_plain, str_of_int_plain. Qed.

(** The record of a span, as read back, loads as the row of the span. *)
Lemma load_row_csv_row b s :
  EvaluateTrace.load_row EvaluateTrace.export_header (map (as_read b) (csv_row s))
  = Ok (loaded_row b s).
Proof.
  unfold EvaluateTrace.load_row, getitem, csv_row. simpl.
  rewrite as_read_int. unfold int. by rewrite int_of_str_of_int.
Qed.

Lemma as_read_fieldnames b : map (as_read b) fieldnames = EvaluateTrace.export_header.
Proof. by destruct b. Qed.

Lemma filter_nonblank_csv_rows b spans :
  List.filter nonblank (map (map (as_read b)) (map csv_row spans))
  = map (map (as_read b)) (map csv_row spans).
Proof. induction spans as [|s spans IH]; [done|]. simpl. by rewrite IH. Qed.

Lemma for_each_load_rows b spans :
  for_each (EvaluateTrace.load_row EvaluateTrace.export_header)
    (map (map (as_read b)) (map csv_row spans))
  = Ok (map (loaded_row b) spans).
Proof.
  induction spans as [|s spans IH]; [done|].
  cbn [map for_each]. rewrite load_row_csv_row, IH. done.
Qed.

(** Loading the tabular export of a ledger gives one row for each span,
    in the order of the ledger. *)
Lemma rows_of_text_save b t :
  EvaluateTrace.rows_of_text b (csv_text (save t)) = Ok (map (loaded_row b) (_spans t)).
Proof.
  unfold EvaluateTrace.rows_of_text, save. cbn [csv_text].
  rewrite read_all_write_rows. cbn [mbind result_bind map dict_rows].
  rewrite as_read_fieldnames, filter_nonblank_csv_rows. apply for_each_load_rows.
Qed.

Lemma decode_json_asdict spans :
  decode_json (JList (map asdict spans)) = Some (map row_of_span spans).
Proof.
  simpl. induction spans as [|s spans IH]; [done|].
  cbn [map mapM]. rewrite IH. done.
Qed.

Lemma loaded_row_exact s : loaded_row false s = row_of_span s.
Proof. done. Qed.

(** *** The claims on the exporter and the loader *)

(** C8.  For every ledger, the records of the tabular export are the
    header and then one record for each span, in the order of the
    ledger; the structured export is the list of the objects of the
    spans, in the same order; and decoding either export gives the
    sequence of the (kind, name, wall_ns) of the spans. *)
Theorem C8_exports_agree (t : Tracer) :
  read_all false (csv_text (save t)) = Ok (fieldnames :: map csv_row (_spans t)) /\
  json_doc (save t) = JList (map asdict (_spans t)) /\
  decode_csv (csv_text (save t)) = Ok (map row_of_span (_spans t)) /\
  decode_json (json_doc (save t)) = Some (map row_of_span (_spans t)).
Proof.
  split_and!.
  - unfold save. cbn [csv_text]. apply read_all_write_rows_exact.
  - done.
  - unfold decode_csv. rewrite rows_of_text_save. f_equal.
  - unfold save. cbn [json_doc]. apply decode_json_asdict.
Qed.

(** [load_rows] opens the file in the mode that translates line endings:
    a carriage return inside a label comes back as a line feed. *)
Remark load_rows_translates_labels :
  EvaluateTrace.load_rows (csv_text (save cr_ledger))
    = Ok [EvaluateTrace.row "api" (String "a" (String LF "b")) 5] /\
  decode_csv (csv_text (save cr_ledger))
    = Ok [EvaluateTrace.row "api" (String "a" (String CR "b")) 5].
Proof. split; vm_compute; reflexivity. Qed.

(** A recorder appends a span of wall_ns at least 0 when the wall clock
    does not go back while the recorded work runs. *)
Lemma recorded_wall_ns {A : Type} kind name meta (body run : Work A) w :
  recorded kind name meta body run ->
  perf_counter w <= perf_counter (body w).2 ->
  Forall (fun s => 0 <= wall_ns s) (_spans (tracer (body w).2)) ->
  Forall (fun s => 0 <= wall_ns s) (_spans (tracer (run w).2)).
Proof.
  intros Hrec Hmono Hall. rewrite (Hrec w). simpl.
  apply Forall_app. split; [done|]. constructor; [simpl; lia | constructor].
Qed.

(** The loader checks nothing: a negative wall_ns field is loaded as it
    is. *)
Lemma C10_negative_counterexample :
  EvaluateTrace.load_rows EvaluateTrace.negative_export
    = Ok [EvaluateTrace.row "api" "AgentDebugger.step" (-5)] /\
  -5 < 0.
Proof. split; [vm_compute; reflexivity | lia]. Qed.

(** C10, as the code has it.  The rows loaded from the export of a
    ledger are the rows of its spans, one for each, with the wall_ns of
    the span; so when every span of the ledger has a wall_ns of at least
    0, as the spans the recorders append have, every row loaded has. *)
Theorem C10_export_rows_wall_ns (t : Tracer) :
  Forall (fun s => 0 <= wall_ns s) (_spans t) ->
  exists rows,
    EvaluateTrace.load_rows (csv_text (save t)) = Ok rows /\
    map EvaluateTrace.wall_ns rows = map wall_ns (_spans t) /\
    Forall (fun r => 0 <= EvaluateTrace.wall_ns r) rows.
Proof.
  intros Hall. exists (map (loaded_row true) (_spans t)). split_and!.
  - apply rows_of_text_save.
  - rewrite map_map. done.
  - apply Forall_map. eapply Forall_impl; [exact Hall|]. done.
Qed.

Lemma C10_export_rows_witness :
  exists rows,
    EvaluateTrace.load_rows (csv_text (save (tracer example_run))) = Ok rows /\
    map EvaluateTrace.wall_ns rows = map wall_ns (_spans (tracer example_run)) /\
    Forall (fun r => 0 <= EvaluateTrace.wall_ns r) rows.
Proof.
  apply (C10_export_rows_wall_ns (tracer example_run)).
  vm_compute. repeat constructor; discriminate.
Defined.

End ExportFacts.

(** ** Further facts on the instrumentation registry *)
Module RegistryFacts.
Import Py Json Tracer TracerFacts Script.

(** *** [instrument_module] *)





(** *** Any number of calls of [instrument_module], then [restore] *)





(** *** The decorator *)


(** X4.  Decorating a decorated function again, without a name, labels
    the second wrapper with the [__qualname__] of the original function
    too: every call then ends as the call of the original and appends two
    api spans under that one label, the span of the inner wrapper
    first. *)
Theorem X4_trace_api_twice {R : Type} (impl : nat -> Work R)
  (meta1 meta2 : list (string * scalar)) (fn : value) (q : string) (w : World) :
  qualname_of fn = Some q ->
  exists g h s1 s2,
    trace_api None meta1 fn = Ok g /\ trace_api None meta2 g = Ok h /\
    (call impl h w).1 = (call impl fn w).1 /\
    _spans (tracer (call impl h w).2)
      = _spans (tracer (call impl fn w).2) ++ [s1; s2] /\
    (kind s1, name s1, meta s1) = ("api", q, meta1) /\
    (kind s2, name s2, meta s2) = ("api", q, meta2).
Proof.
  intros Hq.
  exists (Wrapper q meta1 fn), (Wrapper q meta2 (Wrapper q meta1 fn)).
  set (g := Wrapper q meta1 fn).
  exists (span_between "api" q meta1 w (call impl fn w).2),
         (span_between "api" q meta2 w (call impl g w).2).
  pose proof (recorded_spans _ _ _ _ _ w (call_wrapper_recorded impl q meta1 fn))
    as (Ho1 & Hs1 & _).
  pose proof (recorded_spans _ _ _ _ _ w (call_wrapper_recorded impl q meta2 g))
    as (Ho2 & Hs2 & _).
  fold g in Ho1, Hs1.
  split_and!.
  - unfold trace_api. by rewrite Hq.
  - unfold trace_api. simpl. by rewrite Hq.
  - by rewrite Ho2, Ho1.
  - by rewrite Hs2, Hs1, <- app_assoc.
  - done.
  - done.
Qed.

Lemma X4_trace_api_twice_witness :
  exists g h s1 s2,
    trace_api None [] (Function 11 "AgentDebugger.step" false) = Ok g /\
    trace_api None [("again", SBool true)] g = Ok h /\
    (call (fun _ => tick 7 3) h fresh_world).1
      = (call (fun _ => tick 7 3) (Function 11 "AgentDebugger.step" false) fresh_world).1 /\
    _spans (tracer (call (fun _ => tick 7 3) h fresh_world).2)
      = _spans (tracer (call (fun _ => tick 7 3)
                          (Function 11 "AgentDebugger.step" false) fresh_world).2)
        ++ [s1; s2] /\
    (kind s1, name s1, meta s1) = ("api", "AgentDebugger.step", []) /\
    (kind s2, name s2, meta s2) = ("api", "AgentDebugger.step", [("again", SBool true)]).
Proof.
  apply (X4_trace_api_twice (fun _ => tick 7 3) [] [("again", SBool true)]
           (Function 11 "AgentDebugger.step" false) "AgentDebugger.step" fresh_world).
  reflexivity.
Defined.

End RegistryFacts.

(** ** The script *)
Module ScriptFacts.
Import Py Csv Json Tracer TracerFacts ExportFacts Script.

Lemma instrumented_spec debugger now w :
  instrument_class debugger None default_exclude (Some "AgentDebugger") library_meta
    (set_tracer (init now "traces") w)
  = (Ok (), instrumented debugger now w) /\
  _spans (tracer (instrumented debugger now w)) = [] /\
  restored (instrumented debugger now w) = attrs w.
Proof.
  unfold instrumented.
  set (w0 := set_tracer (init now "traces") w).
  pose proof (for_loop_patch_step _
                (or_list None (List.filter public (dir w0 debugger))) w0
                (instrument_member_patch_step debugger default_exclude
                   (Some "AgentDebugger") library_meta))
    as (Hok & Hres & Hspans).
  fold (instrument_class debugger None default_exclude (Some "AgentDebugger")
          library_meta w0) in Hok, Hres, Hspans.
  destruct (instrument_class _ _ _ _ _ w0) as [o w1]. simpl in *. subst o.
  split_and!; done.
Qed.

(** What the script saves, and the ledger it ends with. *)
Lemma script_ledger {R : Type} (debugger : owner) (main : Work R) (now : string)
  (w : World) :
  let w1 := instrumented debugger now w in
  let r := script debugger main now w in
  outcome r = (main w1).1 /\
  printed r = ["Saving trace..."] /\
  saved r = [save (tracer (final r))] /\
  _spans (tracer (final r))
    = _spans (tracer (main w1).2) ++ [run_span w1 (main w1).2] /\
  _patches (tracer (final r)) = [].
Proof.
  intros w1 r. subst r. unfold script.
  destruct (instrumented_spec debugger now w) as (-> & Hnil & _). fold w1.
  pose proof (recorded_spans _ _ _ _ _ w1 (span_recorded "entire_run" "program"
                scenario_meta main)) as (Ho & Hs & _).
  unfold program.
  destruct (span "entire_run" "program" scenario_meta main w1) as [o w2].
  rewrite restore_spec. simpl in *. by rewrite Hs.
Qed.

(** X5.  Whatever [main] does, and however it ends, the script ends the
    same way, having said that it saves the trace and saved one export
    of the ledger.  The class is instrumented before [main] starts, with a
    ledger that is empty, and the ledger saved is the one [main] left
    with the program span entire_run appended; no patch is left on the
    stack. *)
Theorem X5_script_saves {R : Type} (debugger : owner) (main : Work R)
  (now : string) (w : World) :
  let w1 := instrumented debugger now w in
  let r := script debugger main now w in
  outcome r = (main w1).1 /\
  printed r = ["Saving trace..."] /\
  saved r = [save (tracer (final r))] /\
  _spans (tracer w1) = [] /\
  _spans (tracer (final r))
    = _spans (tracer (main w1).2) ++ [run_span w1 (main w1).2] /\
  _patches (tracer (final r)) = [].
Proof.
  intros w1 r.
  destruct (script_ledger debugger main now w) as (Ho & Hp & Hs & Hl & Hn).
  destruct (instrumented_spec debugger now w) as (_ & Hnil & _).
  split_and!; done.
Qed.

(** *** From the script to the evaluation *)

Lemma as_read_api_row b s :
  kind s = "api" -> EvaluateTrace.is_program (loaded_row b s) = false.
Proof.
  intros Hk. unfold EvaluateTrace.is_program, loaded_row. simpl. rewrite Hk.
  by destruct b.
Qed.

Lemma program_duration_api_then_run b spans w1 w2 :
  Forall (fun s => kind s = "api") spans ->
  EvaluateTrace.program_duration (map (loaded_row b) (spans ++ [run_span w1 w2]))
  = Some (perf_counter w2 - perf_counter w1).
Proof.
  intros Hall. unfold EvaluateTrace.program_duration.
  assert (Hf : List.filter EvaluateTrace.is_entire_run
                 (map (loaded_row b) (spans ++ [run_span w1 w2]))
               = [loaded_row b (run_span w1 w2)]).
  { induction Hall as [|s spans Hs _ IH].
    - simpl. by destruct b.
    - cbn [app map List.filter]. unfold EvaluateTrace.is_entire_run at 1.
      by rewrite (as_read_api_row b s Hs). }
  rewrite Hf. done.
Qed.

(** X6.  When every span [main] leaves in the ledger is an api span, the
    export the script saves loads, with one row for each span, and the
    program duration the evaluator takes from these rows is the wall time
    of [main]: the reading of the wall clock after it minus the reading
    before it. *)
Theorem X6_script_program_duration {R : Type} (debugger : owner) (main : Work R)
  (now : string) (w : World) :
  let w1 := instrumented debugger now w in
  Forall (fun s => kind s = "api") (_spans (tracer (main w1).2)) ->
  exists e rows,
    saved (script debugger main now w) = [e] /\
    EvaluateTrace.load_rows (csv_text e) = Ok rows /\
    length rows = S (length (_spans (tracer (main w1).2))) /\
    EvaluateTrace.program_duration rows
    = Some (perf_counter (main w1).2 - perf_counter w1).
Proof.
  intros w1 Hall.
  destruct (script_ledger debugger main now w) as (_ & _ & Hsaved & Hspans & _).
  exists (save (tracer (final (script debugger main now w)))),
         (map (loaded_row true) (_spans (tracer (final (script debugger main now w))))).
  split_and!.
  - done.
  - apply rows_of_text_save.
  - rewrite length_map, Hspans, length_app. subst w1. simpl. lia.
  - rewrite Hspans. by apply program_duration_api_then_run.
Qed.

Lemma X6_script_program_duration_witness :
  let w1 := instrumented AgentDebugger "run_Jan_01_00-00-00" fresh_world in
  exists e rows,
    saved (script AgentDebugger one_step "run_Jan_01_00-00-00" fresh_world) = [e] /\
    EvaluateTrace.load_rows (csv_text e) = Ok rows /\
    length rows = S (length (_spans (tracer (one_step w1).2))) /\
    EvaluateTrace.program_duration rows
    = Some (perf_counter (one_step w1).2 - perf_counter w1).
Proof.
  apply (X6_script_program_duration AgentDebugger one_step "run_Jan_01_00-00-00"
           fresh_world).
  vm_compute. repeat constructor.
Defined.

End ScriptFacts.

(** ** Further facts on the metrics compiler *)
Module MetricsFacts.
Import Py EvaluateTrace PyFacts SortFacts FloatFacts EvaluateTraceFacts Evaluation.

(** *** The sort is a permutation *)

Lemma insert_desc_perm {A : Type} (key : A -> Z) x l : insert_desc key x l ≡ₚ x :: l.
Proof.
  induction l as [|y l IH]; [done|]. simpl.
  destruct (key x <? key y); [|done]. rewrite IH. apply Permutation_swap.
Qed.

Lemma sort_desc_perm {A : Type} (key : A -> Z) l : sort_desc key l ≡ₚ l.
Proof.
  induction l as [|x l IH]; [done|].
  by rewrite sort_desc_cons, insert_desc_perm, IH.
Qed.

Lemma sum_perm (l l' : list Z) : l ≡ₚ l' -> sum l = sum l'.
Proof.
  induction 1 as [|x l l' _ IH|x y l|l1 l2 l3 _ IH1 _ IH2]; rewrite ?sum_cons; lia.
Qed.

(** *** What the grouping dict holds *)

Lemma by_name_append_spec (f : option string -> list Z) keys k w :
  NoDup keys -> (k ∉ keys -> f k = []) ->
  by_name_append k w ((fun k' => (k', f k')) <$> keys)
  = (fun k' => (k', if decide (k' = k) then f k' ++ [w] else f k'))
      <$> (if decide (k ∈ keys) then keys else keys ++ [k]).
Proof.
  induction keys as [|k0 keys IH]; intros Hnd Hnew.
  - rewrite decide_False by apply not_elem_of_nil.
    cbn [fmap list_fmap app by_name_append]. rewrite decide_True by done.
    rewrite Hnew; [done | apply not_elem_of_nil].
  - apply NoDup_cons in Hnd as [Hk0 Hnd]. rewrite fmap_cons. cbn [by_name_append].
    destruct (decide (k0 = k)) as [->|Hne].
    + rewrite decide_True by (by left). rewrite fmap_cons, decide_True by done.
      f_equal. apply list_fmap_ext. intros i k' Hk'.
      rewrite decide_False; [done|]. intros ->. apply Hk0.
      by eapply list_elem_of_lookup_2.
    + rewrite IH; [|done|]. 2:{ intros Hk. apply Hnew. rewrite elem_of_cons. intros [?|?]; [congruence | done]. }
      destruct (decide (k ∈ keys)) as [Hin|Hin].
      * rewrite decide_True by (by right). by rewrite fmap_cons, decide_False.
      * rewrite decide_False by (rewrite elem_of_cons; intros [?|?]; congruence).
        by rewrite <- app_comm_cons, fmap_cons, decide_False.
Qed.

Lemma walls_named_snoc rows r k :
  walls_named (rows ++ [r]) k
  = walls_named rows k ++ (if decide (api_named k r) then [wall_ns r] else []).
Proof.
  unfold walls_named. rewrite filter_app, fmap_app. f_equal.
  rewrite filter_cons. by case_decide.
Qed.

(** The grouping dict has one entry for each name, and the entry of a
    name holds the wall_ns of the api rows of this name, in their order. *)
Lemma group_by_name_spec rows :
  NoDup (group_by_name rows).*1 /\
  group_by_name rows = (fun k => (k, walls_named rows k)) <$> (group_by_name rows).*1.
Proof.
  induction rows as [|r rows [IHn IHg]] using rev_ind; [split; [constructor|done]|].
  pose proof (proj1 (group_by_name_keys rows)) as Hkeys.
  rewrite group_by_name_snoc. unfold group_step.
  destruct (is_api r) eqn:Hapi.
  - apply is_api_spec in Hapi.
    set (keys := (group_by_name rows).*1) in *.
    assert (Hnew : name r ∉ keys -> walls_named rows (name r) = []).
    { intros Hnot. unfold walls_named.
      destruct (filter (api_named (name r)) rows) as [|r' l] eqn:Hf; [done|].
      assert (Hr' : r' ∈ filter (api_named (name r)) rows) by (rewrite Hf; by left).
      apply list_elem_of_filter in Hr' as [Hn Hin]. destruct Hnot. apply Hkeys. eauto. }
    rewrite IHg, (by_name_append_spec (walls_named rows) keys) by done.
    set (keys' := if decide (name r ∈ keys) then keys else keys ++ [name r]).
    assert (Hfst : ((fun k' => (k', if decide (k' = name r)
                                    then walls_named rows k' ++ [wall_ns r]
                                    else walls_named rows k')) <$> keys').*1 = keys').
    { rewrite <- list_fmap_compose. clear. induction keys' as [|k l IH]; [done|].
      cbn. by rewrite IH. }
    rewrite Hfst. split.
    + subst keys'. case_decide; [done|]. apply NoDup_app. split_and!; [done| |apply NoDup_singleton].
      intros k Hk ->%list_elem_of_singleton. done.
    + apply list_fmap_ext. intros i k _. f_equal. rewrite walls_named_snoc.
      unfold api_named. destruct (decide (k = name r)) as [->|Hne].
      * by rewrite decide_True.
      * rewrite decide_False by (intros [_ ?]; congruence). by rewrite app_nil_r.
  - split; [done|]. rewrite IHg at 1. apply list_fmap_ext. intros i k _. f_equal.
    rewrite walls_named_snoc, decide_False, app_nil_r; [done|].
    intros [Hk _]. apply is_api_spec in Hk. congruence.
Qed.

Lemma group_by_name_entry rows k ws :
  (k, ws) ∈ group_by_name rows ->
  ws = walls_named rows k /\ exists r, r ∈ rows /\ api_named k r.
Proof.
  intros Hin. destruct (group_by_name_spec rows) as [_ Hg].
  assert (Hk : k ∈ (group_by_name rows).*1).
  { apply list_elem_of_fmap. by exists (k, ws). }
  rewrite Hg in Hin. apply list_elem_of_fmap in Hin as (k' & [= -> ->] & _).
  split; [done|]. by apply group_by_name_keys.
Qed.

Lemma walls_named_nonempty rows k r :
  r ∈ rows -> api_named k r -> walls_named rows k <> [].
Proof.
  intros Hin Hn Hnil. unfold walls_named in Hnil. apply fmap_nil_inv in Hnil.
  assert (Hr : r ∈ filter (api_named k) rows) by (by apply list_elem_of_filter).
  rewrite Hnil in Hr. by apply elem_of_nil in Hr.
Qed.

(** *** The records of the labels *)

(** X7.  Whenever the compiler returns, the per-label list has exactly
    one record for each name borne by an api row, and the record of a name
    holds the number of the api rows of this name, the sum of their
    wall_ns, and the binary64 quotient of the two as the mean. *)
Theorem X7_per_api_aggregation rows per_api summary :
  compute_metrics rows = Ok (per_api, summary) ->
  NoDup (api_name <$> per_api) /\
  (forall n, n ∈ api_name <$> per_api <-> exists r, r ∈ rows /\ api_named n r) /\
  (forall m, m ∈ per_api ->
     let walls := walls_named rows (api_name m) in
     count m = Z.of_nat (length walls) /\ 0 < count m /\
     cumulative_ns m = sum walls /\
     truediv (sum walls) (count m) = Ok (mean_ns m)).
Proof.
  intros (raw & Hraw & -> & _)%compute_metrics_ok_inv.
  pose proof (per_api_names _ _ Hraw) as Hnames.
  destruct (group_by_name_spec rows) as [Hnd _].
  assert (Hperm : api_name <$> sort_desc cumulative_ns raw ≡ₚ (group_by_name rows).*1).
  { by rewrite sort_desc_perm, Hnames. }
  split_and!.
  - by rewrite Hperm.
  - intros n. rewrite Hperm. apply group_by_name_keys.
  - intros m Hm%elem_of_sort_desc.
    apply list_elem_of_lookup in Hm as [i Hi].
    destruct (Forall2_lookup_r _ _ _ _ _ Hraw Hi) as ([k ws] & He & Hm).
    apply list_elem_of_lookup_2 in He.
    apply group_by_name_entry in He as (-> & r & Hr & Hn).
    apply api_metrics_ok_inv in Hm as (-> & Hc & Hs & Hmean).
    pose proof (walls_named_nonempty rows _ r Hr Hn) as Hne.
    cbv zeta. assert (0 < count m).
    { rewrite Hc. revert Hne. destruct (walls_named rows _); [done | simpl; lia]. }
    split_and!; try done.
    destruct (Z.eqb_spec (count m) 0); [lia | done].
Qed.

Lemma X7_per_api_aggregation_witness :
  NoDup (api_name <$> tie_per_api) /\
  (forall n, n ∈ api_name <$> tie_per_api <-> exists r, r ∈ tie_rows /\ api_named n r) /\
  (forall m, m ∈ tie_per_api ->
     let walls := walls_named tie_rows (api_name m) in
     count m = Z.of_nat (length walls) /\ 0 < count m /\
     cumulative_ns m = sum walls /\
     truediv (sum walls) (count m) = Ok (mean_ns m)).
Proof.
  apply (X7_per_api_aggregation tie_rows tie_per_api tie_summary).
  vm_compute. reflexivity.
Defined.

(** *** The totals *)

Lemma by_name_append_total (h : list Z -> Z) (c : Z) k w d :
  h [w] = c -> (forall ws, h (ws ++ [w]) = h ws + c) ->
  sum ((fun e => h e.2) <$> by_name_append k w d) = sum ((fun e => h e.2) <$> d) + c.
Proof.
  intros H1 Happ. induction d as [|[k' ws] d IH]; cbn [by_name_append].
  - cbn [fmap list_fmap snd]. rewrite sum_cons, H1. change (sum []) with 0. lia.
  - destruct (decide (k' = k)) as [->|Hne]; rewrite !fmap_cons, !sum_cons; cbn [snd].
    + rewrite Happ. lia.
    + rewrite IH. lia.
Qed.

Lemma api_walls_snoc rows r :
  api_walls (rows ++ [r]) = api_walls rows ++ (if is_api r then [wall_ns r] else []).
Proof.
  unfold api_walls. rewrite filter_app, fmap_app. f_equal.
  rewrite filter_cons. unfold is_api. by case_decide; case_bool_decide.
Qed.

Lemma group_by_name_totals rows :
  sum ((fun e => sum e.2) <$> group_by_name rows) = sum (api_walls rows) /\
  sum ((fun e => Z.of_nat (length e.2)) <$> group_by_name rows)
  = Z.of_nat (length (api_walls rows)).
Proof.
  induction rows as [|r rows [IHs IHc]] using rev_ind; [done|].
  rewrite group_by_name_snoc, api_walls_snoc, sum_app, length_app. unfold group_step.
  destruct (is_api r).
  - rewrite (by_name_append_total sum (wall_ns r)), IHs.
    2:{ rewrite sum_cons. change (sum []) with 0. lia. }
    2:{ intros ws. rewrite sum_app, sum_cons. change (sum []) with 0. lia. }
    rewrite (by_name_append_total (fun ws => Z.of_nat (length ws)) 1), IHc.
    2:{ done. }
    2:{ intros ws. rewrite length_app. simpl. lia. }
    rewrite sum_cons. change (sum []) with 0. simpl. lia.
  - change (sum []) with 0. simpl. lia.
Qed.

(** X8.  Whenever the compiler returns, the api cumulative time of the
    summary is the sum of the wall_ns of all api rows, each row counted
    once, and the counts of the per-label records add up to the number of
    api rows; with a program duration [p], the non-api time is [p] minus
    the api cumulative time, whatever its sign. *)
Theorem X8_totals rows per_api summary :
  compute_metrics rows = Ok (per_api, summary) ->
  api_cumulative_ns summary = sum (api_walls rows) /\
  sum (cumulative_ns <$> per_api) = sum (api_walls rows) /\
  sum (count <$> per_api) = Z.of_nat (length (api_walls rows)) /\
  (forall p, program_duration_ns summary = Some p ->
     non_api_ns summary = Some (p - sum (api_walls rows))).
Proof.
  intros (raw & Hraw & -> & Hp & Hapi & Hd)%compute_metrics_ok_inv.
  destruct (group_by_name_totals rows) as [Hs Hc].
  assert (Hsum : sum (cumulative_ns <$> raw) = sum (api_walls rows)).
  { rewrite <- Hs. clear -Hraw.
    induction Hraw as [|[k ws] m by_name raw Hm _ IH]; [done|].
    apply api_metrics_ok_inv in Hm as (_ & _ & Hcum & _).
    by rewrite !fmap_cons, !sum_cons, IH, Hcum. }
  assert (Hcount : sum (count <$> raw) = Z.of_nat (length (api_walls rows))).
  { rewrite <- Hc. clear -Hraw.
    induction Hraw as [|[k ws] m by_name raw Hm _ IH]; [done|].
    apply api_metrics_ok_inv in Hm as (_ & Hcnt & _).
    by rewrite !fmap_cons, !sum_cons, IH, Hcnt. }
  rewrite Hapi, !sum_sort_desc, Hsum. split_and!; try done.
  intros p Hsome. rewrite Hp in Hsome. rewrite Hsome in Hd.
  destruct Hd as [-> _]. by rewrite Hapi, sum_sort_desc, Hsum.
Qed.

Lemma X8_totals_witness :
  api_cumulative_ns tie_summary = sum (api_walls tie_rows) /\
  sum (cumulative_ns <$> tie_per_api) = sum (api_walls tie_rows) /\
  sum (count <$> tie_per_api) = Z.of_nat (length (api_walls tie_rows)) /\
  (forall p, program_duration_ns tie_summary = Some p ->
     non_api_ns tie_summary = Some (p - sum (api_walls tie_rows))).
Proof.
  apply (X8_totals tie_rows tie_per_api tie_summary).
  vm_compute. reflexivity.
Defined.

(** *** Rows the compiler does not look at *)

Lemma group_by_name_filter (keep : Row -> bool) rows :
  (forall r, r ∈ rows -> is_api r = true -> keep r = true) ->
  group_by_name (List.filter keep rows) = group_by_name rows.
Proof.
  unfold group_by_name. generalize (@nil (option string * list Z)).
  induction rows as [|r rows IH]; intros d Hkeep; [done|].
  assert (Hrest : forall r', r' ∈ rows -> is_api r' = true -> keep r' = true).
  { intros r' Hr'. apply Hkeep. by right. }
  cbn [List.filter]. destruct (keep r) eqn:Hk; cbn [fold_left]; [by apply IH|].
  rewrite IH by done. f_equal. unfold group_step.
  destruct (is_api r) eqn:Hapi; [|done].
  rewrite Hkeep in Hk; [done | by left | done].
Qed.

Lemma filter_filter_keep (p keep : Row -> bool) rows :
  (forall r, r ∈ rows -> p r = true -> keep r = true) ->
  List.filter p (List.filter keep rows) = List.filter p rows.
Proof.
  induction rows as [|r rows IH]; intros Hkeep; [done|].
  assert (Hrest : forall r', r' ∈ rows -> p r' = true -> keep r' = true).
  { intros r' Hr'. apply Hkeep. by right. }
  cbn [List.filter]. destruct (keep r) eqn:Hk; cbn [List.filter].
  - by rewrite IH.
  - rewrite IH by done. destruct (p r) eqn:Hp; [|done].
    rewrite Hkeep in Hk; [done | by left | done].
Qed.

Lemma program_duration_filter (keep : Row -> bool) rows :
  (forall r, r ∈ rows -> is_program r = true -> keep r = true) ->
  program_duration (List.filter keep rows) = program_duration rows.
Proof.
  intros Hkeep. unfold program_duration.
  rewrite !filter_filter_keep; [done|done|].
  intros r Hr [Hp _]%andb_true_iff. by apply Hkeep.
Qed.

(** X9.  Rows that are neither api rows nor program rows have no part
    in the result: taking any of them out of the trace changes neither
    the per-label list nor the summary, nor whether the compiler
    raises. *)
Theorem X9_other_rows_ignored (keep : Row -> bool) rows :
  (forall r, r ∈ rows -> is_api r = true \/ is_program r = true -> keep r = true) ->
  compute_metrics (List.filter keep rows) = compute_metrics rows.
Proof.
  intros Hkeep. unfold compute_metrics.
  rewrite group_by_name_filter, program_duration_filter; [done|..];
    intros r Hr Hk; apply Hkeep; auto.
Qed.

Lemma X9_other_rows_ignored_witness :
  compute_metrics (List.filter (fun r => is_api r || is_program r)
                     (row "note" "A" 7 :: example_rows))
  = compute_metrics (row "note" "A" 7 :: example_rows).
Proof.
  apply (X9_other_rows_ignored (fun r => is_api r || is_program r)
           (row "note" "A" 7 :: example_rows)).
  intros r _ [->| ->]; [done | apply orb_true_r].
Defined.

(** *** The order of the rows *)

Lemma for_each_fmap {A B C : Type} (f : B -> result C) (g : A -> B) (l : list A) :
  for_each f (g <$> l) = for_each (fun x => f (g x)) l.
Proof. induction l as [|x l IH]; [done|]. cbn. by rewrite IH. Qed.

Lemma for_each_ext {A B : Type} (f g : A -> result B) (l : list A) :
  (forall x, x ∈ l -> f x = g x) -> for_each f l = for_each g l.
Proof.
  induction l as [|x l IH]; intros H; [done|]. cbn.
  rewrite H by (by left). rewrite IH; [done|]. intros y Hy. apply H. by right.
Qed.

Lemma for_each_perm {A B : Type} (f : A -> result B) (l l' : list A) ys :
  l ≡ₚ l' -> for_each f l = Ok ys ->
  exists ys', for_each f l' = Ok ys' /\ ys ≡ₚ ys'.
Proof.
  intros Hperm. revert ys.
  induction Hperm as [|x l l' _ IH|x y l|l1 l2 l3 _ IH1 _ IH2]; intros ys Hys.
  - exists ys. done.
  - cbn in Hys. apply bind_ok_inv in Hys as (b & Hb & Hys).
    apply bind_ok_inv in Hys as (bs & Hbs & [= <-]).
    destruct (IH bs Hbs) as (bs' & Hbs' & Hp).
    exists (b :: bs'). cbn. rewrite Hb, Hbs'. split; [done | by constructor].
  - cbn in Hys. apply bind_ok_inv in Hys as (b & Hb & Hys).
    apply bind_ok_inv in Hys as (bs & Hbs & [= <-]).
    apply bind_ok_inv in Hbs as (c & Hc & Hbs).
    apply bind_ok_inv in Hbs as (cs & Hcs & [= <-]).
    exists (c :: b :: cs). cbn. rewrite Hb, Hc, Hcs. split; [done | apply Permutation_swap].
  - destruct (IH1 ys Hys) as (ys1 & H1 & Hp1).
    destruct (IH2 ys1 H1) as (ys2 & H2 & Hp2).
    exists ys2. split; [done | by etrans].
Qed.

Lemma api_metrics_perm k ws ws' :
  ws ≡ₚ ws' -> api_metrics (k, ws) = api_metrics (k, ws').
Proof.
  intros Hp. unfold api_metrics.
  by rewrite (sum_perm _ _ Hp), (Permutation_length Hp).
Qed.

Lemma is_max_of_perm m m' l l' :
  l ≡ₚ l' -> is_max_of m l -> is_max_of m' l' -> m = m'.
Proof.
  intros Hp [Hin Hle] [Hin' Hle'].
  assert (m' <= m) by (apply Hle; by rewrite Hp).
  assert (m <= m') by (apply Hle'; by rewrite <- Hp).
  lia.
Qed.

Lemma program_duration_perm rows rows' :
  rows ≡ₚ rows' -> program_duration rows = program_duration rows'.
Proof.
  intros Hp.
  assert (Hrun : wall_ns <$> filter run_scope_row rows
                 ≡ₚ wall_ns <$> filter run_scope_row rows') by (by rewrite Hp).
  assert (Hprog : wall_ns <$> filter program_row rows
                  ≡ₚ wall_ns <$> filter program_row rows') by (by rewrite Hp).
  pose proof (program_duration_spec rows) as H.
  pose proof (program_duration_spec rows') as H'. cbv zeta in H, H'.
  assert (Hnil : forall l l' : list Z, l ≡ₚ l' -> l = [] -> l' = []).
  { intros l l' Hl ->. by apply Permutation_nil_l in Hl. }
  destruct (program_duration rows) as [m|], (program_duration rows') as [m'|].
  - f_equal.
    destruct H as [[Hne Hm]|[He Hm]], H' as [[Hne' Hm']|[He' Hm']].
    + by apply (is_max_of_perm _ _ _ _ Hrun).
    + destruct Hne. by apply (Hnil _ _ (Permutation_sym Hrun)).
    + destruct Hne'. by apply (Hnil _ _ Hrun).
    + by apply (is_max_of_perm _ _ _ _ Hprog).
  - exfalso. destruct H as [[Hne [Hin _]]|[_ [Hin _]]].
    + apply run_walls_nil in H'. rewrite Hrun, H' in Hin. by apply elem_of_nil in Hin.
    + rewrite Hprog, H' in Hin. by apply elem_of_nil in Hin.
  - exfalso. destruct H' as [[Hne [Hin _]]|[_ [Hin _]]].
    + apply run_walls_nil in H. rewrite <- Hrun, H in Hin. by apply elem_of_nil in Hin.
    + rewrite <- Hprog, H in Hin. by apply elem_of_nil in Hin.
  - done.
Qed.

(** X10.  The summary does not depend on the order of the rows: when
    the compiler returns on a trace it returns on every reordering of it,
    with the same summary and with the same per-label records, which may
    come in another order. *)
Theorem X10_order_of_rows rows rows' per_api summary :
  rows ≡ₚ rows' ->
  compute_metrics rows = Ok (per_api, summary) ->
  exists per_api',
    compute_metrics rows' = Ok (per_api', summary) /\ per_api' ≡ₚ per_api.
Proof.
  intros Hp Hm. unfold compute_metrics in *.
  apply bind_ok_inv in Hm as (raw & Hraw & Hm).
  destruct (group_by_name_spec rows) as [Hnd Hg].
  destruct (group_by_name_spec rows') as [Hnd' Hg'].
  assert (Hkeys : (group_by_name rows).*1 ≡ₚ (group_by_name rows').*1).
  { apply NoDup_Permutation; [done..|]. intros k.
    rewrite !(proj1 (group_by_name_keys _)).
    split; intros (r & Hr & Hn); exists r; (split; [|done]);
      [by rewrite <- Hp | by rewrite Hp]. }
  rewrite Hg, for_each_fmap in Hraw.
  destruct (for_each_perm _ _ _ _ Hkeys Hraw) as (raw' & Hraw' & Hperm).
  assert (Hfor : for_each api_metrics (group_by_name rows') = Ok raw').
  { rewrite Hg', for_each_fmap, <- Hraw'. apply for_each_ext. intros k _.
    apply api_metrics_perm. unfold walls_named. by rewrite Hp. }
  rewrite Hfor. cbn [mbind result_bind].
  rewrite <- (program_duration_perm _ _ Hp).
  change (@map ApiMetrics Z) with (@fmap list _ ApiMetrics Z) in *.
  rewrite !sum_sort_desc in *.
  assert (Hsum : sum (cumulative_ns <$> raw') = sum (cumulative_ns <$> raw)).
  { apply sum_perm. by rewrite Hperm. }
  rewrite Hsum.
  destruct (match program_duration rows with
            | Some p => _
            | None => _
            end) as [derived|e]; [|done].
  cbn [mbind result_bind] in *. injection Hm as <- <-.
  exists (sort_desc cumulative_ns raw'). split; [done|].
  by rewrite !sort_desc_perm.
Qed.

Lemma X10_order_of_rows_witness :
  exists per_api',
    compute_metrics (reverse example_rows) = Ok (per_api', example_summary) /\
    per_api' ≡ₚ example_per_api.
Proof.
  apply (X10_order_of_rows example_rows (reverse example_rows)
           example_per_api example_summary).
  - apply Permutation_sym, reverse_Permutation.
  - vm_compute. reflexivity.
Defined.

(** *** Exceptions *)

(** X11.  The compiler raises nothing but OverflowError, and raises it
    only on a trace whose wall_ns add up, in absolute value, to 2^1023 or
    more: below that it returns. *)
Theorem X11_only_overflow rows e :
  compute_metrics rows = Err e ->
  e = OverflowError /\
  2 ^ 1023 <= sum ((fun r => Z.abs (wall_ns r)) <$> rows).
Proof.
  intros He. split; [by eapply compute_metrics_err|].
  destruct (Z.le_gt_cases (2 ^ 1023) (sum ((fun r => Z.abs (wall_ns r)) <$> rows)))
    as [|Hlt]; [done|].
  pose proof (compute_metrics_in_range rows) as Hok.
  change (emax - 1) with 1023 in Hok. rewrite He in Hok.
  specialize (Hok ltac:(lia)). done.
Qed.

Lemma X11_only_overflow_witness :
  OverflowError = OverflowError /\
  2 ^ 1023 <= sum ((fun r => Z.abs (wall_ns r)) <$> huge_rows).
Proof.
  apply (X11_only_overflow huge_rows OverflowError).
  vm_compute. reflexivity.
Defined.

End MetricsFacts.

(** ** Further facts on the loader *)
Module ColumnFacts.
Import Py Csv EvaluateTrace PyFacts LoaderFacts Evaluation.

Lemma dict_get_None fieldnames rec key :
  key ∉ fieldnames -> dict_get fieldnames rec key = None.
Proof.
  revert rec. induction fieldnames as [|k ks IH]; intros rec Hnot; [done|].
  apply not_elem_of_cons in Hnot as [Hne Hnot]. cbn [dict_get].
  rewrite IH by done. destruct (String.eqb_spec k key); [congruence | done].
Qed.

Lemma dict_get_Some fieldnames rec key :
  key ∈ fieldnames -> exists v, dict_get fieldnames rec key = Some v.
Proof.
  revert rec. induction fieldnames as [|k ks IH]; intros rec Hin.
  - by apply elem_of_nil in Hin.
  - cbn [dict_get]. destruct (dict_get ks (tail rec) key) as [v|] eqn:Hrest; [eauto|].
    apply elem_of_cons in Hin as [->|Hin].
    + rewrite String.eqb_refl. eauto.
    + destruct (IH (tail rec) Hin) as [v Hv]. congruence.
Qed.

(** X12.  The loader takes the first record of the file as the header,
    whatever it holds.  A file with no record after the header, blank
    lines apart, loads as the empty list even when the header lacks the
    columns; with at least one such record, a header that lacks kind,
    name or wall_ns makes the loader raise KeyError for the first of the
    three, in this order, that is missing. *)
Theorem X12_missing_column content recs :
  read_all true content = Ok recs ->
  let header := (dict_rows recs).1 in
  let body := (dict_rows recs).2 in
  (body = [] -> load_rows content = Ok []) /\
  (body <> [] -> "kind" ∉ header -> load_rows content = Err (KeyError "kind")) /\
  (body <> [] -> "kind" ∈ header -> "name" ∉ header ->
     load_rows content = Err (KeyError "name")) /\
  (body <> [] -> "kind" ∈ header -> "name" ∈ header -> "wall_ns" ∉ header ->
     load_rows content = Err (KeyError "wall_ns")).
Proof.
  intros Hread header body.
  assert (Hload : load_rows content = for_each (load_row header) body).
  { unfold load_rows, rows_of_text. rewrite Hread. cbn [mbind result_bind].
    subst header body. by destruct (dict_rows recs). }
  rewrite Hload. clear Hload. split_and!.
  - by intros ->.
  - intros Hne Hkind. destruct body as [|rec body']; [done|].
    cbn [for_each]. unfold load_row, getitem.
    by rewrite (dict_get_None header rec "kind").
  - intros Hne Hkind Hname. destruct body as [|rec body']; [done|].
    cbn [for_each]. unfold load_row, getitem.
    destruct (dict_get_Some header rec "kind" Hkind) as [k ->].
    by rewrite (dict_get_None header rec "name").
  - intros Hne Hkind Hname Hwall. destruct body as [|rec body']; [done|].
    cbn [for_each]. unfold load_row, getitem.
    destruct (dict_get_Some header rec "kind" Hkind) as [k ->].
    destruct (dict_get_Some header rec "name" Hname) as [n ->].
    by rewrite (dict_get_None header rec "wall_ns").
Qed.

Lemma X12_missing_column_witness :
  let header := ["label"; "duration"] in
  let body := [["A"; "5"]] in
  (body = [] -> load_rows other_columns = Ok []) /\
  (body <> [] -> "kind" ∉ header -> load_rows other_columns = Err (KeyError "kind")) /\
  (body <> [] -> "kind" ∈ header -> "name" ∉ header ->
     load_rows other_columns = Err (KeyError "name")) /\
  (body <> [] -> "kind" ∈ header -> "name" ∈ header -> "wall_ns" ∉ header ->
     load_rows other_columns = Err (KeyError "wall_ns")).
Proof.
  apply (X12_missing_column other_columns [["label"; "duration"]; ["A"; "5"]]).
  vm_compute. reflexivity.
Defined.

End ColumnFacts.

(** ** The box table *)
Module TableFacts.
Import Py Csv EvaluateTrace PyFacts IntFacts Format Report.

(** *** Counting characters *)

Lemma len_app (s t : string) : len (s +:+ t) = (len s + len t)%nat.
Proof.
  induction s as [|c s IH]; [by rewrite append_nil_l|].
  rewrite append_cons. cbn [len]. rewrite IH. lia.
Qed.

Lemma len_repeat_str (s : string) (n : nat) : len (repeat_str s n) = (n * len s)%nat.
Proof. induction n as [|n IH]; [done|]. cbn [repeat_str]. rewrite len_app, IH. lia. Qed.

Lemma len_ljust (s : string) (w : nat) : len (ljust s w) = Nat.max (len s) w.
Proof.
  unfold ljust. rewrite len_app, len_repeat_str. change (len " ") with 1%nat. lia.
Qed.

Lemma len_join (sep : string) (parts : list string) :
  len (join sep parts)
  = (foldr (fun p n => len p + n) 0 parts + (length parts - 1) * len sep)%nat.
Proof.
  induction parts as [|p parts IH]; [done|].
  destruct parts as [|q parts]; [simpl; lia|].
  change (join sep (p :: q :: parts)) with (p +:+ sep +:+ join sep (q :: parts)).
  rewrite !len_app, IH. simpl. lia.
Qed.

(** *** The widths *)

Lemma widen_spec row : forall i widths,
  (i + length row <= length widths)%nat ->
  exists widths',
    widen i row widths = Ok widths' /\
    length widths' = length widths /\
    forall j, widths' !! j
              = (fun w => match (if decide (i <= j)%nat then row !! (j - i)%nat else None) with
                          | Some c => Nat.max w (len (str_ c))
                          | None => w
                          end) <$> widths !! j.
Proof.
  induction row as [|c row IH]; intros i widths Hlen.
  - exists widths. split_and!; [done..|]. intros j.
    destruct (widths !! j); simpl; [|done]. case_decide; by rewrite ?lookup_nil.
  - simpl in Hlen. cbn [widen].
    destruct (lookup_lt_is_Some_2 widths i ltac:(lia)) as [w Hw]. rewrite Hw.
    destruct (IH (S i) (<[i := Nat.max w (len (str_ c))]> widths)) as (ws & -> & Hl & Hj).
    { rewrite length_insert. lia. }
    exists ws. rewrite length_insert in Hl. split_and!; [done..|].
    intros j. rewrite Hj. destruct (decide (j = i)) as [->|Hne].
    + rewrite list_lookup_insert_eq by lia. rewrite Hw. simpl.
      rewrite decide_False by lia. rewrite decide_True by lia.
      by rewrite Nat.sub_diag.
    + rewrite list_lookup_insert_ne by done. destruct (widths !! j) as [w'|]; [|done].
      simpl. f_equal. destruct (decide (S i <= j)%nat).
      * rewrite decide_True by lia. replace (j - i)%nat with (S (j - S i)) by lia. done.
      * by rewrite decide_False by lia.
Qed.

Lemma widen_long row : forall i widths,
  (length widths < i + length row)%nat -> (i <= length widths)%nat ->
  widen i row widths = Err IndexError.
Proof.
  induction row as [|c row IH]; intros i widths Hlen Hi; [simpl in Hlen; lia|].
  cbn [widen]. destruct (widths !! i) as [w|] eqn:Hw; [|done].
  apply lookup_lt_Some in Hw. apply IH.
  - rewrite length_insert. simpl in Hlen. lia.
  - rewrite length_insert. lia.
Qed.

Lemma column_widths_spec rows : forall widths,
  Forall (fun r => (length r <= length widths)%nat) rows ->
  exists widths',
    column_widths rows widths = Ok widths' /\
    length widths' = length widths /\
    forall j, widths' !! j = widest rows j <$> widths !! j.
Proof.
  induction rows as [|row rows IH]; intros widths Hall.
  - exists widths. split_and!; [done..|]. intros j. by destruct (widths !! j).
  - apply Forall_cons in Hall as [Hrow Hall]. cbn [column_widths].
    destruct (widen_spec row 0 widths ltac:(lia)) as (w1 & -> & Hl1 & Hj1).
    cbn [mbind result_bind].
    destruct (IH w1) as (w2 & -> & Hl2 & Hj2).
    { by rewrite Hl1. }
    exists w2. split_and!; [done | congruence |].
    intros j. rewrite Hj2, Hj1. destruct (widths !! j) as [w|]; [|done]. simpl.
    by rewrite Nat.sub_0_r.
Qed.

Lemma column_widths_long rows : forall widths,
  Exists (fun r => (length widths < length r)%nat) rows ->
  column_widths rows widths = Err IndexError.
Proof.
  induction rows as [|row rows IH]; intros widths Hex; [by apply Exists_nil in Hex|].
  cbn [column_widths].
  destruct (decide (length widths < length row)%nat) as [Hlong|Hshort].
  - by rewrite widen_long by lia.
  - apply Exists_cons in Hex as [?|Hex]; [done|].
    destruct (widen_spec row 0 widths ltac:(lia)) as (w1 & -> & Hl1 & _).
    cbn [mbind result_bind]. apply IH. by rewrite Hl1.
Qed.

Lemma widest_le rows i w0 : (w0 <= widest rows i w0)%nat.
Proof.
  unfold widest. revert w0. induction rows as [|r rows IH]; intros w0; [done|].
  cbn [foldl]. etrans; [|apply IH]. destruct (r !! i); lia.
Qed.

Lemma widest_cell rows i w0 r c :
  r ∈ rows -> r !! i = Some c -> (len (str_ c) <= widest rows i w0)%nat.
Proof.
  unfold widest. revert w0. induction rows as [|r' rows IH]; intros w0 Hin Hc.
  - by apply elem_of_nil in Hin.
  - cbn [foldl]. apply elem_of_cons in Hin as [<-|Hin]; [|by apply IH].
    rewrite Hc. etrans; [|apply (widest_le rows i)]. lia.
Qed.

(** *** The lines *)

Lemma hline_spec widths hchar sep :
  hline widths "+" hchar sep
  = Ok ("+" +:+ join sep (map (fun w => repeat_str hchar (w + 2)) widths) +:+ "+").
Proof. reflexivity. Qed.

Lemma len_hline widths hchar sep l :
  len hchar = 1%nat -> len sep = 1%nat ->
  hline widths "+" hchar sep = Ok l -> len l = table_width widths.
Proof.
  intros Hh Hs. rewrite hline_spec. intros [= <-].
  rewrite !len_app, len_join, Hs, length_map. change (len "+") with 1%nat.
  unfold table_width.
  assert (foldr (fun p n => (len p + n)%nat) 0%nat
            (map (fun w => repeat_str hchar (w + 2)) widths)
          = foldr (fun w n => (w + 2 + n)%nat) 0%nat widths) as ->.
  { induction widths as [|w ws IH]; [done|]. cbn [map foldr].
    rewrite IH, len_repeat_str, Hh. lia. }
  lia.
Qed.

Lemma fmt_cells_spec widths items : forall i,
  (i + length items <= length widths)%nat ->
  exists cells,
    fmt_cells widths i items = Ok cells /\
    length cells = length items /\
    ((forall j c w, items !! j = Some c -> widths !! (i + j)%nat = Some w ->
        (len (str_ c) <= w)%nat) ->
     foldr (fun p n => (len p + n)%nat) 0%nat cells
     = foldr (fun w n => (w + 2 + n)%nat) 0%nat (take (length items) (drop i widths))).
Proof.
  induction items as [|c items IH]; intros i Hlen.
  - exists []. split_and!; done.
  - simpl in Hlen. cbn [fmt_cells].
    destruct (lookup_lt_is_Some_2 widths i ltac:(lia)) as [w Hw]. rewrite Hw.
    destruct (IH (S i) ltac:(lia)) as (cells & -> & Hl & Hsum).
    cbn [mbind result_bind]. eexists. split_and!; [done | simpl; by rewrite Hl |].
    intros Hfit. cbn [foldr length].
    rewrite (drop_S _ _ _ Hw). cbn [take foldr].
    rewrite Hsum.
    2:{ intros j c' w' Hc' Hw'. apply (Hfit (S j) c' w'); [done|].
        by replace (i + S j)%nat with (S i + j)%nat by lia. }
    rewrite !len_app, len_ljust. change (len " ") with 1%nat.
    assert (len (str_ c) <= w)%nat.
    { apply (Hfit 0%nat c w); [done|]. by rewrite Nat.add_0_r. }
    lia.
Qed.

Lemma len_fmt_row widths items l :
  length items = length widths ->
  (forall j c w, items !! j = Some c -> widths !! j = Some w -> (len (str_ c) <= w)%nat) ->
  fmt_row widths items "│" = Ok l -> len l = table_width widths.
Proof.
  intros Hlen Hfit. unfold fmt_row.
  destruct (fmt_cells_spec widths items 0 ltac:(lia)) as (cells & -> & Hl & Hsum).
  cbn [mbind result_bind]. intros [= <-].
  rewrite !len_app, len_join, Hsum by done.
  rewrite drop_0, Hlen, firstn_all, Hl, Hlen.
  change (len "│") with 1%nat. unfold table_width. lia.
Qed.

Lemma fmt_row_ok widths items sep :
  (length items <= length widths)%nat -> exists l, fmt_row widths items sep = Ok l.
Proof.
  intros Hlen. unfold fmt_row.
  destruct (fmt_cells_spec widths items 0 ltac:(lia)) as (cells & -> & _).
  cbn [mbind result_bind]. eauto.
Qed.

Lemma for_each_total {A B : Type} (f : A -> result B) (l : list A) :
  Forall (fun x => exists y, f x = Ok y) l ->
  exists ys, for_each f l = Ok ys /\ Forall2 (fun x y => f x = Ok y) l ys.
Proof.
  induction 1 as [|x l [y Hy] _ (ys & Hys & Hall)].
  - exists []. split; [done | constructor].
  - exists (y :: ys). cbn [for_each]. rewrite Hy, Hys. split; [done | by constructor].
Qed.

(** What [box_lines] returns when no row is longer than the headers. *)
Lemma box_lines_spec headers rows :
  Forall (fun r => (length r <= length headers)%nat) rows ->
  exists widths top head mid body bottom,
    box_lines headers rows = Ok ([top; head; mid] ++ body ++ [bottom]) /\
    length widths = length headers /\
    (forall i, widths !! i = (fun h => widest rows i (len h)) <$> headers !! i) /\
    hline widths "+" "─" "┬" = Ok top /\
    fmt_row widths (map Some headers) "│" = Ok head /\
    hline widths "+" "─" "┼" = Ok mid /\
    Forall2 (fun r l => fmt_row widths r "│" = Ok l) rows body /\
    hline widths "+" "─" "┴" = Ok bottom.
Proof.
  intros Hall. unfold box_lines.
  destruct (column_widths_spec rows (map len headers)) as (widths & -> & Hl & Hj).
  { by rewrite length_map. }
  rewrite length_map in Hl. cbn [mbind result_bind]. rewrite !hline_spec.
  cbn [mbind result_bind].
  destruct (fmt_row_ok widths (map Some headers) "│") as [head Hhead].
  { rewrite length_map. lia. }
  rewrite Hhead.
  cbn [mbind result_bind].
  destruct (for_each_total (fun r => fmt_row widths r "│") rows) as (body & Hfor & Hbody).
  { eapply Forall_impl; [exact Hall|]. intros r Hr. apply fmt_row_ok. simpl in Hr. lia. }
  rewrite Hfor. cbn [mbind result_bind].
  eexists widths, _, head, _, body, _.
  split; [reflexivity|]. split; [done|]. split; [|by split_and!].
  intros i. rewrite Hj. change (map len headers) with (len <$> headers).
  rewrite list_lookup_fmap. by destruct (headers !! i).
Qed.

(** X13.  [make_box_table] returns exactly when no row has more cells
    than there are headers; a longer row makes it raise IndexError, and it
    raises nothing else. *)
Theorem X13_box_table_index_error (headers : list string) (rows : list (list cell)) :
  (Forall (fun r => (length r <= length headers)%nat) rows <->
   is_ok (make_box_table headers rows) = true) /\
  (Exists (fun r => (length headers < length r)%nat) rows <->
   make_box_table headers rows = Err IndexError).
Proof.
  assert (Hlong : Exists (fun r => (length headers < length r)%nat) rows ->
                  make_box_table headers rows = Err IndexError).
  { intros Hex. unfold make_box_table, box_lines.
    rewrite column_widths_long; [done|]. by rewrite length_map. }
  assert (Hshort : Forall (fun r => (length r <= length headers)%nat) rows ->
                   is_ok (make_box_table headers rows) = true).
  { intros Hall. unfold make_box_table.
    destruct (box_lines_spec headers rows Hall) as (ws & t & h & m & b & bt & -> & _).
    done. }
  assert (Hcases : Forall (fun r => (length r <= length headers)%nat) rows \/
                   Exists (fun r => (length headers < length r)%nat) rows).
  { destruct (decide (Forall (fun r => (length r <= length headers)%nat) rows))
      as [?|Hnot]; [by left|].
    right. apply not_Forall_Exists in Hnot; [|apply _].
    eapply Exists_impl; [exact Hnot|]. simpl. intros r. lia. }
  split; split; try done.
  - intros Hok. destruct Hcases as [?|Hex]; [done|]. by rewrite (Hlong Hex) in Hok.
  - intros Herr. destruct Hcases as [Hall|?]; [|done].
    apply Hshort in Hall. by rewrite Herr in Hall.
Qed.

(** The shape of the table. *)
Lemma box_table_shape (headers : list string) (rows : list (list cell)) :
  Forall (fun r => (length r <= length headers)%nat) rows ->
  exists widths lines,
    box_lines headers rows = Ok lines /\
    make_box_table headers rows = Ok (join (String LF EmptyString) lines) /\
    length lines = (length rows + 4)%nat /\
    length widths = length headers /\
    (forall i h, headers !! i = Some h -> widths !! i = Some (widest rows i (len h))) /\
    (Forall (fun r => length r = length headers) rows ->
     Forall (fun l => len l = table_width widths) lines).
Proof.
  intros Hall.
  destruct (box_lines_spec headers rows Hall)
    as (widths & top & head & mid & body & bottom & Hlines & Hl & Hw & Ht & Hh & Hm & Hb & Hbt).
  exists widths, ([top; head; mid] ++ body ++ [bottom]).
  split_and!; try done.
  - unfold make_box_table. by rewrite Hlines.
  - apply Forall2_length in Hb. rewrite !length_app, <- Hb. simpl. lia.
  - intros i h Hi. by rewrite Hw, Hi.
  - intros Hfull.
    assert (Hfit : forall r, r ∈ rows ->
              forall j c w, r !! j = Some c -> widths !! j = Some w ->
                (len (str_ c) <= w)%nat).
    { intros r Hr j c w Hc Hwj. rewrite Hw in Hwj.
      destruct (headers !! j) as [h|]; [|done]. injection Hwj as <-.
      by eapply widest_cell. }
    repeat apply Forall_cons_2; [| | |apply Forall_app_2; [|apply Forall_cons_2; [|constructor]]].
    + by apply (len_hline widths "─" "┬").
    + eapply len_fmt_row; [|  |exact Hh]; [by rewrite length_map|].
      intros j c w Hc Hwj. change (map Some headers) with (Some <$> headers) in Hc.
      rewrite list_lookup_fmap in Hc. rewrite Hw in Hwj.
      destruct (headers !! j) as [h|]; [|done]. injection Hc as <-. injection Hwj as <-.
      apply widest_le.
    + by apply (len_hline widths "─" "┼").
    + apply Forall_forall. intros l Hin.
      apply list_elem_of_lookup in Hin as [i Hi].
      destruct (Forall2_lookup_r _ _ _ _ _ Hb Hi) as (r & Hr & Hrow).
      apply list_elem_of_lookup_2 in Hr.
      eapply len_fmt_row; [| |exact Hrow].
      * rewrite Hl. by eapply Forall_forall in Hfull.
      * by apply Hfit.
    + by apply (len_hline widths "─" "┴").
Qed.

(** X14.  When no row is longer than the headers, the table has a top
    rule, the header line, a rule, one line for each row and a bottom
    rule.  The width of a column is the length of the longest of its
    header and its cells, counted in characters.  When every row has as
    many cells as there are headers, every line of the table has the same
    number of characters. *)
Theorem X14_box_table_shape (headers : list string) (rows : list (list cell)) :
  Forall (fun r => (length r <= length headers)%nat) rows ->
  exists widths lines,
    box_lines headers rows = Ok lines /\
    make_box_table headers rows = Ok (join (String LF EmptyString) lines) /\
    length lines = (length rows + 4)%nat /\
    length widths = length headers /\
    (forall i h, headers !! i = Some h -> widths !! i = Some (widest rows i (len h))) /\
    (Forall (fun r => length r = length headers) rows ->
     Forall (fun l => len l = table_width widths) lines).
Proof. apply box_table_shape. Qed.

Lemma X14_box_table_shape_witness :
  exists widths lines,
    box_lines ["API"; "Count"] [[Some "step"; Some "2"]; [None; Some "1,000"]] = Ok lines /\
    make_box_table ["API"; "Count"] [[Some "step"; Some "2"]; [None; Some "1,000"]]
      = Ok (join (String LF EmptyString) lines) /\
    length lines = (2 + 4)%nat /\
    length widths = 2%nat /\
    (forall i h, ["API"; "Count"] !! i = Some h ->
       widths !! i
       = Some (widest [[Some "step"; Some "2"]; [None; Some "1,000"]] i (len h))) /\
    (Forall (fun r => length r = 2%nat) [[Some "step"; Some "2"]; [None; Some "1,000"]] ->
     Forall (fun l => len l = table_width widths) lines).
Proof.
  apply (X14_box_table_shape ["API"; "Count"]
           [[Some "step"; Some "2"]; [None; Some "1,000"]]).
  repeat constructor.
Defined.

End TableFacts.

(** ** The tables and the reports *)
Module ReportFacts.
Import Py Csv EvaluateTrace PyFacts IntFacts FloatFacts CsvFacts Format Report TableFacts.

(** *** The range of [float(n)] *)

Lemma float_of_int_in_range n :
  Z.abs n < 2 ^ (emax - 1) -> is_ok (float_of_int n) = true.
Proof.
  intros Hn. unfold float_of_int.
  assert (Hpos : forall s (p : positive), Zpos p < 2 ^ (emax - 1) ->
            forall s', binary_round prec emax s p 0 <> S754_infinity s').
  { intros s p Hp s'. unfold binary_round, shl_align.
    assert (Hd : Zdigits2 (Zpos p) <= emax - 1) by (by apply Zdigits2_le).
    set (e' := fexp prec emax (Zpos (digits2_pos p) + 0)).
    assert (He' : e' = Z.max (Zpos (digits2_pos p) + 0 - 53) (-1074)) by reflexivity.
    clearbody e'. change (emax - 1) with 1023 in *. simpl in Hd.
    destruct (e' - 0) as [|d|d] eqn:Hf.
    - apply binary_round_aux_finite; [done | done | change emax with 1024; simpl; lia].
    - apply binary_round_aux_finite; [done | done | change emax with 1024; simpl; lia].
    - change (PosDef.Pos.iter xO p d) with (shift_pos d p).
      assert (Hshift : Zpos (shift_pos d p) = Zpos p * 2 ^ Zpos d).
      { rewrite shift_pos_correct, Z.pow_pos_fold. lia. }
      pose proof (Zdigits2_upper (Zpos p) ltac:(done)) as Hup.
      assert (0 < 2 ^ Zpos d) by (apply Z.pow_pos_nonneg; lia).
      assert (Zdigits2 (Zpos (shift_pos d p)) <= Zdigits2 (Zpos p) + Zpos d).
      { rewrite Hshift. apply Zdigits2_le; [lia | simpl; lia |].
        rewrite Z.pow_add_r by (simpl; lia). nia. }
      simpl in *.
      apply binary_round_aux_finite;
        [done | change (emax - prec) with 971; lia | change emax with 1024; simpl; lia]. }
  destruct n as [|p|p]; cbn [binary_normalize]; [done| |].
  - destruct (binary_round prec emax false p 0) eqn:Hb; try done.
    by apply Hpos in Hb.
  - destruct (binary_round prec emax true p 0) eqn:Hb; try done.
    by apply Hpos in Hb.
Qed.

Lemma float_of_int_err n e : float_of_int n = Err e -> e = OverflowError.
Proof.
  unfold float_of_int. by destruct (binary_normalize prec emax n 0 false); intros [= <-].
Qed.

Lemma mul_int_float_err n x e : mul_int_float n x = Err e -> e = OverflowError.
Proof.
  unfold mul_int_float. destruct (float_of_int n) as [y|e'] eqn:Hy; [done|].
  intros [= <-]. by eapply float_of_int_err.
Qed.

Lemma mul_int_float_in_range n x :
  Z.abs n < 2 ^ (emax - 1) -> is_ok (mul_int_float n x) = true.
Proof.
  intros Hn%float_of_int_in_range. unfold mul_int_float.
  by destruct (float_of_int n).
Qed.

Lemma fmt_ns_err ns u e : _fmt_ns ns u = Err e -> e = OverflowError.
Proof.
  destruct ns as [n|]; [|done]. unfold _fmt_ns.
  destruct (mul_int_float n (factor u)) as [y|e'] eqn:Hy; [done|].
  intros [= <-]. by eapply mul_int_float_err.
Qed.

Lemma fmt_ns_in_range ns u :
  (forall n, ns = Some n -> Z.abs n < 2 ^ (emax - 1)) -> is_ok (_fmt_ns ns u) = true.
Proof.
  destruct ns as [n|]; [|done]. intros Hn. unfold _fmt_ns.
  pose proof (mul_int_float_in_range n (factor u) (Hn n eq_refl)).
  by destruct (mul_int_float n (factor u)).
Qed.

(** *** The two tables *)

Lemma for_each_length {A B : Type} (f : A -> result B) (l : list A) ys :
  for_each f l = Ok ys -> length ys = length l.
Proof. intros H%for_each_ok_inv. by apply Forall2_length in H. Qed.

(** X15.  [render_table_summary] raises nothing but OverflowError, and
    returns when the durations of the summary are below 2^1023 in
    absolute value.  What it returns is a table of eight lines, the rules
    and the header line included, which all have the same number of
    characters. *)
Theorem X15_summary_table (summary : RunSummary) (u : Unit) :
  (forall e, render_table_summary summary u = Err e -> e = OverflowError) /\
  ((forall n, program_duration_ns summary = Some n \/ non_api_ns summary = Some n \/
              api_cumulative_ns summary = n -> Z.abs n < 2 ^ 1023) ->
   is_ok (render_table_summary summary u) = true) /\
  (forall text, render_table_summary summary u = Ok text ->
     exists widths lines,
       text = join (String LF EmptyString) lines /\
       length lines = 8%nat /\
       Forall (fun l => len l = table_width widths) lines).
Proof.
  unfold render_table_summary, summary_cells.
  pose proof (fmt_ns_err (program_duration_ns summary) u) as He1.
  pose proof (fmt_ns_err (Some (api_cumulative_ns summary)) u) as He2.
  pose proof (fmt_ns_err (non_api_ns summary) u) as He3.
  pose proof (fmt_ns_in_range (program_duration_ns summary) u) as Hr1.
  pose proof (fmt_ns_in_range (Some (api_cumulative_ns summary)) u) as Hr2.
  pose proof (fmt_ns_in_range (non_api_ns summary) u) as Hr3.
  change (emax - 1) with 1023 in *.
  destruct (_fmt_ns (program_duration_ns summary) u) as [p|e1] eqn:H1;
    cbn [mbind result_bind].
  2:{ split_and!; [by intros e [= <-]; apply He1 | | done].
      intros Hn. apply Hr1. intros n Hp. apply Hn. auto. }
  destruct (_fmt_ns (Some (api_cumulative_ns summary)) u) as [a|e2] eqn:H2;
    cbn [mbind result_bind].
  2:{ split_and!; [by intros e [= <-]; apply He2 | | done].
      intros Hn. apply Hr2. intros n [= <-]. apply Hn. auto. }
  destruct (_fmt_ns (non_api_ns summary) u) as [n|e3] eqn:H3; cbn [mbind result_bind].
  2:{ split_and!; [by intros e [= <-]; apply He3 | | done].
      intros Hn. apply Hr3. intros n Hp. apply Hn. auto. }
  set (rows := [[Some "Program Duration"; Some p]; _; _; _]).
  destruct (box_table_shape (summary_headers u) rows)
    as (widths & lines & _ & Htext & Hlen & _ & _ & Hrect).
  { subst rows. repeat constructor. }
  rewrite Htext. split_and!; [done..|].
  intros text [= <-]. exists widths, lines. split_and!; [done..|].
  apply Hrect. subst rows. repeat constructor.
Qed.


(** *** The sheets *)

(** X17.  When [export_csv] returns, the per-API sheet reads back, with
    the csv reader, as the header and one record of four fields for each
    label, in the order of the list: the name as it is whatever
    characters it holds (the empty field for a record without a name), and
    the count, which [int] reads back.  The summary sheet reads back as
    its header and four records of two fields. *)
Theorem X17_sheets_read_back (per_api : list ApiMetrics) (summary : RunSummary)
  (u : Unit) :
  (forall text, csv_per_api per_api u = Ok text ->
     exists records,
       read_all false text = Ok (sheet_header u :: records) /\
       length records = length per_api /\
       forall i m, per_api !! i = Some m ->
         exists cumulative mean,
           records !! i = Some [default EmptyString (api_name m);
                                str_of_int (count m); cumulative; mean] /\
           int_of_str (str_of_int (count m)) = Ok (count m)) /\
  (forall text, csv_summary summary u = Ok text ->
     exists records,
       read_all false text = Ok (["Metric"; "Value"] :: records) /\
       Forall (fun r => length r = 2%nat) records /\ length records = 4%nat).
Proof.
  split.
  - intros text. unfold csv_per_api.
    destruct (for_each (sheet_record u) per_api) as [records|e] eqn:Hrec; [|done].
    cbn [mbind result_bind]. intros Htext.
    replace text with (write_rows (sheet_header u :: records)) by congruence.
    exists records. split_and!.
    + apply read_all_write_rows_exact.
    + by eapply for_each_length.
    + intros i m Hm. apply for_each_ok_inv in Hrec.
      destruct (Forall2_lookup_l _ _ _ _ _ Hrec Hm) as (r & Hr & Hsheet).
      unfold sheet_record in Hsheet.
      destruct (mul_int_float (cumulative_ns m) (factor u)) as [c|]; [|done].
      injection Hsheet as <-. eexists _, _. split; [exact Hr|].
      apply int_of_str_of_int.
  - intros text. unfold csv_summary.
    destruct (summary_records summary u) as [records|e] eqn:Hrec; [|done].
    cbn [mbind result_bind]. intros Htext.
    replace text with (write_rows records) by congruence. clear Htext.
    assert (Hshape : exists r1 r2 r3 r4,
              records = ["Metric"; "Value"] :: [r1; r2; r3; r4] /\
              Forall (fun r => length r = 2%nat) [r1; r2; r3; r4]).
    { unfold summary_records in Hrec.
      destruct (_fmt_ns (program_duration_ns summary) u) as [p|]; [|done].
      destruct (_fmt_ns (Some (api_cumulative_ns summary)) u) as [a|]; [|done].
      destruct (_fmt_ns (non_api_ns summary) u) as [n|]; [|done].
      cbn [mbind result_bind] in Hrec. injection Hrec as <-.
      eexists _, _, _, _. split; [reflexivity|]. by repeat constructor. }
    destruct Hshape as (r1 & r2 & r3 & r4 & -> & Hall).
    exists [r1; r2; r3; r4]. split_and!; [|done|done].
    apply read_all_write_rows_exact.
Qed.

End ReportFacts.
